(** * SymINDy: the evolutionary search loop and its fitness evaluator

    A shallow embedding of [symindy/symindy/symindy.py] (class [SymINDy]):
    the primitive-set renaming, the randomized genetic operators, the
    fitness evaluator [evalSymbReg], the generational driver [my_eaSimple],
    the top-level [fit] and the wrapper's [score]. The earlier variant
    [src/SymINDy/main_tmp.py] shares the operators and the driver; its
    evaluator (fixed split, negated score, minimizing weights) is not
    embedded.

    Conventions of the embedding.
    - Python floats are exact rationals ([Q]); rounding is not modelled.
    - A raised exception is a value of [exn]; code that can raise runs in
      the monad [Eff], which threads the state of the [random] module and a
      trace of the calls made to the evaluator and to the fitting engine.
    - The symbolic-regression library (DEAP) and the sparse-identification
      library (pySINDy) are collaborators: their random tree surgery and
      their numerical fitting are parameters (type classes below). *)

From Stdlib Require Import QArith Qround Qpower Qabs.
From stdpp Require Import base option list gmap strings pretty.

Local Open Scope Q_scope.

(** ** Python basics *)

Module Py.

(** Exceptions, by class. [ValueError] stands for any instance of
    [ValueError]; [OtherError] for any class not listed. *)
Inductive exn : Type :=
| ValueError (msg : string)
| TypeError (msg : string)
| IndexError (msg : string)
| OtherError (cls msg : string).

Definition is_ValueError (e : exn) : bool :=
  match e with ValueError _ => true | _ => false end.

(** Computations over a state [S] that may raise; the state survives a
    raise, as the side effects of a Python call do. *)
Definition Eff (S A : Type) : Type := S -> (exn + A) * S.

Definition ret {S A} (a : A) : Eff S A := fun s => (inr a, s).

Definition bind {S A B} (c : Eff S A) (k : A -> Eff S B) : Eff S B :=
  fun s => match c s with
           | (inr a, s') => k a s'
           | (inl e, s') => (inl e, s')
           end.

Definition raise {S A} (e : exn) : Eff S A := fun s => (inl e, s).

(** [try: c except ValueError: h], for code that has no state. *)
Definition try_except_ValueError {A} (c : exn + A) (h : exn + A) : exn + A :=
  match c with
  | inl e => if is_ValueError e then h else inl e
  | inr a => inr a
  end.

Definition lift {S A} (r : exn + A) : Eff S A := fun s => (r, s).

(** [for a in l: f a], collecting the results. *)
Fixpoint for_each {S A B} (f : A -> Eff S B) (l : list A) : Eff S (list B) :=
  match l with
  | [] => ret []
  | a :: l' => bind (f a) (fun b => bind (for_each f l') (fun bs => ret (b :: bs)))
  end.

(** [for a in l: acc = f acc a] *)
Fixpoint for_fold {S A B} (f : B -> A -> Eff S B) (l : list A) (acc : B) : Eff S B :=
  match l with
  | [] => ret acc
  | a :: l' => bind (f acc a) (for_fold f l')
  end.

(** [int(q)]: truncation toward zero. *)
Definition int (q : Q) : Z := Z.quot (Qnum q) (Z.pos (Qden q)).

(** The index a slice bound [k] denotes in a sequence of length [n]:
    negative bounds count from the end, and all bounds are clamped. *)
Definition slice_index (n : nat) (k : Z) : nat :=
  if (k <? 0)%Z then Z.to_nat (Z.max 0 (Z.of_nat n + k))
  else Nat.min (Z.to_nat k) n.

(** [x[:k]] and [x[k:]] *)
Definition slice_to {A} (x : list A) (k : Z) : list A :=
  take (slice_index (length x) k) x.
Definition slice_from {A} (x : list A) (k : Z) : list A :=
  drop (slice_index (length x) k) x.

Definition Qltb (x y : Q) : bool := negb (Qle_bool y x).

End Py.

Export Py.

Notation "x <- c ;; k" := (Py.bind c (fun x => k))
  (at level 100, c at next level, right associativity).
Notation "'let*' pat := c 'in' k" := (Py.bind c (fun x => match x with pat => k end))
  (at level 10, pat pattern, c at level 100, k at level 200).
Notation "c ;;; k" := (Py.bind c (fun _ => k))
  (at level 100, right associativity).

(** ** Data *)

(** A 2-D array, time-major: one row per time sample. *)
Definition Array2 : Type := list (list Q).

(** [time_rec_obs]: a float time step or an array of sample times. *)
Inductive TimeSpec : Type :=
| TimeStep (dt : Q)
| TimeArray (t : list Q).

(** What [split] asks of its argument: [len(x)] and slicing. *)
Class Sliceable (T : Type) : Type := {
  py_len : T -> exn + nat;
  py_slice_to : T -> Z -> T;
  py_slice_from : T -> Z -> T
}.

#[export] Instance Sliceable_list {A} : Sliceable (list A) := {|
  py_len x := inr (length x);
  py_slice_to := slice_to;
  py_slice_from := slice_from
|}.

(** A float has no [len()]. *)
#[export] Instance Sliceable_TimeSpec : Sliceable TimeSpec := {|
  py_len x := match x with
              | TimeStep _ => inl (TypeError "object of type 'float' has no len()")
              | TimeArray t => inr (length t)
              end;
  py_slice_to x k := match x with
                     | TimeStep dt => TimeStep dt
                     | TimeArray t => TimeArray (slice_to t k)
                     end;
  py_slice_from x k := match x with
                       | TimeStep dt => TimeStep dt
                       | TimeArray t => TimeArray (slice_from t k)
                       end
|}.

(** Modelled from the spec: the expression trees of the tree-evolution
    engine (DEAP's [gp.PrimitiveTree], not under src/). A tree is the
    sequence of its nodes in depth-first order, each a primitive call of
    fixed arity or an input slot (arity 0); [len] is its node count and
    [height] the depth of its deepest node, the root being at depth 0. *)
Record Node : Type := { node_name : string; arity : nat }.

Definition Tree : Type := list Node.

Fixpoint height_loop (nodes : list Node) (stack : list nat) (max_depth : nat) : nat :=
  match nodes with
  | [] => max_depth
  | elem :: rest =>
      match stack with
      | [] => max_depth
      | depth :: stack' =>
          height_loop rest (replicate (arity elem) (S depth) ++ stack')
                      (Nat.max max_depth depth)
      end
  end.

Definition height (t : Tree) : nat := height_loop t [0%nat] 0%nat.

(** Modelled from the spec: the fitness record of the tree-evolution engine
    (DEAP's [base.Fitness], not under src/): the weighted values, empty when
    the fitness is invalid; comparison is on the weighted values. *)
Record Fitness : Type := { weights : list Q; wvalues : list Q }.

Definition valid (f : Fitness) : bool :=
  match wvalues f with [] => false | _ => true end.

(** [fitness.values = values] *)
Definition set_values (f : Fitness) (values : list Q) : Fitness :=
  {| weights := weights f; wvalues := zip_with Qmult values (weights f) |}.

(** [del fitness.values] *)
Definition del_values (f : Fitness) : Fitness :=
  {| weights := weights f; wvalues := [] |}.

(** [fitness.values] *)
Definition values (f : Fitness) : list Q :=
  zip_with Qdiv (wvalues f) (weights f).

(** Lexicographic [<=] of tuples of floats. *)
Fixpoint tuple_le (a b : list Q) : bool :=
  match a, b with
  | [], _ => true
  | _ :: _, [] => false
  | x :: a', y :: b' => if Qeq_bool x y then tuple_le a' b' else Qle_bool x y
  end.

Definition fitness_le (f g : Fitness) : bool := tuple_le (wvalues f) (wvalues g).
Definition fitness_gt (f g : Fitness) : bool := negb (fitness_le f g).

(** [creator.Individual]: a list of subtrees with a [fitness] attribute. *)
Record Individual : Type := { trees : list Tree; fitness : Fitness }.

(** The calls the program makes, in order: to the fitness evaluator (under
    either of its registered names), from inside it to the tree compiler and
    the fitting engine, and from the variation step to the mating and
    mutation operators (with the offspring positions and the subtree index
    they are applied to). *)
Inductive Event : Type :=
| EvEvaluate (individual : list Tree) (flag_solution : bool) (tr_te_ratio : option Q)
| EvCompile (expr : Tree)
| EvSINDy
| EvFit (x : Array2) (t : option TimeSpec) (x_dot : option Array2)
| EvScore (x : Array2) (t : option TimeSpec) (x_dot : option Array2)
| EvCoefficients
| EvMate (i j h_component : nat)
| EvMutate (i h_component : nat).

(** The state of the [random] module: the generator's output sequence (fixed
    by the seed) and how much of it has been consumed. *)
Record Rng : Type := { outputs : nat -> N; cursor : nat }.

Record World : Type := { rng : Rng; trace : list Event }.

Definition M (A : Type) : Type := Eff World A.

Definition emit (ev : Event) : M unit :=
  fun w => (inr tt, {| rng := rng w; trace := trace w ++ [ev] |}).

(** ** The [random] module *)

Module random.

Definition genrand : M N :=
  fun w => let r := rng w in
           (inr (outputs r (cursor r)),
            {| rng := {| outputs := outputs r; cursor := S (cursor r) |};
               trace := trace w |}).

(** [random.random()]: 53 random bits scaled into [0, 1). *)
Definition random : M Q :=
  k <- genrand ;;
  ret (Z.of_N (k mod 2 ^ 53) # 2 ^ 53).

(** [random.randint(a, b)]: an integer in [a, b]. *)
Definition randint (a b : Z) : M Z :=
  if (b <? a)%Z then raise (ValueError "empty range for randrange()")
  else k <- genrand ;;
       ret (a + Z.of_N k mod (b - a + 1))%Z.

(** [random.choice(seq)] *)
Definition choice {A} (seq : list A) : M A :=
  match seq with
  | [] => raise (IndexError "Cannot choose from an empty sequence")
  | _ => k <- genrand ;;
         match seq !! (N.to_nat k mod length seq)%nat with
         | Some a => ret a
         | None => raise (IndexError "list index out of range")
         end
  end.

End random.

(** ** The collaborators *)

(** The primitive set, as far as this program reads it: the names of its
    argument slots, in order. *)
Record PrimitiveSet : Type := { arguments : list string }.

(** Modelled from the spec: the expression library builder
    ([symindy.symindy.library.library], not under src/): given the number of
    symbolic constants, the dimensionality and the time-dependence flag it
    yields a primitive set with one argument slot per input,
    [ARG0 .. ARG{dims + nc (+ 1) - 1}], the default slot names of the
    tree-evolution engine (as [configure_DEAP] of [main_tmp.py] builds it). *)
Definition library (nc dimensions : nat) (is_time_dependent : bool)
    (library_name : string) : PrimitiveSet :=
  let size_input := (dimensions + nc + if is_time_dependent then 1 else 0)%nat in
  {| arguments := (fun i : nat => "ARG" +:+ pretty i) <$> seq 0 size_input |}.

(** Modelled from the spec: [pset.renameArguments] of the tree-evolution
    engine (not under src/), called with the keyword dictionary [kargs]:
    every slot whose old name is a key of [kargs] takes the name stored
    there. *)
Definition renameArguments (pset : PrimitiveSet) (kargs : gmap string string)
    : PrimitiveSet :=
  {| arguments := (fun old_name : string => default old_name (kargs !! old_name))
                    <$> arguments pset |}.

(** The tree-evolution engine: random tree generation and surgery, and the
    compilation of a tree into a callable. The random operators see only the
    state of the [random] module, and they are functions of the trees they
    are given: crossover takes two trees to two trees, a mutation one tree to
    one tree. *)
Class TreeEngine : Type := {
  Feature : Type;
  genHalfAndHalf : PrimitiveSet -> Z -> Z -> Eff Rng Tree;
  cxOnePoint : Tree -> Tree -> Eff Rng (Tree * Tree);
  cxOnePointLeafBiased : Tree -> Tree -> Q -> Eff Rng (Tree * Tree);
  mutInsert : Tree -> PrimitiveSet -> Eff Rng Tree;
  mutShrink : Tree -> Eff Rng Tree;
  mutNodeReplacement : Tree -> PrimitiveSet -> Eff Rng Tree;
  gp_compile : PrimitiveSet -> Tree -> exn + Feature
}.

(** The system-identification engine. *)
Class FittingEngine `{TreeEngine} : Type := {
  Kwargs : Type;
  no_kwargs : Kwargs;
  Model : Type;
  Metric : Type := option Array2 -> option Array2 -> Kwargs -> exn + Q;
  r2_score : Metric;
  ps_SINDy : list Feature -> Kwargs -> exn + Model;
  SINDy_fit : Model -> Array2 -> option TimeSpec -> option Array2 -> exn + Model;
  SINDy_score : Model -> Array2 -> option TimeSpec -> option Array2 ->
                Metric -> Kwargs -> exn + Q;
  SINDy_coefficients : Model -> exn + Array2
}.

(** An operator of the engine run on the current state of [random]. *)
Definition with_rng {A} (c : Eff Rng A) : M A :=
  fun w => match c (rng w) with
           | (r, g) => (r, {| rng := g; trace := trace w |})
           end.

(** Modelled from the spec: the static height limit of the tree-evolution
    engine ([gp.staticLimit], not under src/). The decorated operator keeps
    copies of the trees it was given; each produced tree whose [key] exceeds
    [max_value] is rejected and replaced by a kept pre-operation tree, drawn
    at random among them. *)
Definition staticLimit (key : Tree -> nat) (max_value : nat)
    (func : list Tree -> M (list Tree)) (args : list Tree) : M (list Tree) :=
  let keep_inds := args in
  new_inds <- func args ;;
  for_each (fun ind => if (max_value <? key ind)%nat
                       then random.choice keep_inds
                       else ret ind) new_inds.

(** Modelled from the spec: the lineage decorator ([history.decorator], not
    under src/). The bookkeeping itself is left out; what remains is that the
    result of the operator is iterated, which a [None] does not survive. *)
Definition history_decorator (func : list Tree -> M (option (list Tree)))
    (args : list Tree) : M (list Tree) :=
  individuals <- func args ;;
  match individuals with
  | Some inds => ret inds
  | None => raise (TypeError "'NoneType' object is not iterable")
  end.

(** [max(aspirants, key=attrgetter("fitness"))]: the first maximal one. *)
Fixpoint max_by_fitness (best : Individual) (rest : list Individual) : Individual :=
  match rest with
  | [] => best
  | x :: rest' =>
      max_by_fitness (if fitness_gt (fitness x) (fitness best) then x else best) rest'
  end.

(** Modelled from the spec: tournament selection of the tree-evolution
    engine ([tools.selTournament], not under src/): [k] times, draw
    [tournsize] aspirants with replacement and keep the fittest. *)
Fixpoint selRandom (individuals : list Individual) (k : nat) : M (list Individual) :=
  match k with
  | O => ret []
  | S k' => a <- random.choice individuals ;;
            rest <- selRandom individuals k' ;;
            ret (a :: rest)
  end.

Definition tournament (individuals : list Individual) (tournsize : nat) : M Individual :=
  aspirants <- selRandom individuals tournsize ;;
  match aspirants with
  | [] => raise (ValueError "max() arg is an empty sequence")
  | a :: rest => ret (max_by_fitness a rest)
  end.

Fixpoint selTournament (tournsize : nat) (individuals : list Individual) (k : nat)
    : M (list Individual) :=
  match k with
  | O => ret []
  | S k' => c <- tournament individuals tournsize ;;
            chosen <- selTournament tournsize individuals k' ;;
            ret (c :: chosen)
  end.

#[export] Instance Node_eq_dec : EqDecision Node.
Proof. solve_decision. Defined.

(** Modelled from the spec: the hall of fame of the tree-evolution engine
    ([tools.HallOfFame], not under src/), best first, of capacity [maxsize].
    A candidate enters when it is strictly fitter than the worst member (or
    there is room) and no member has the same trees. The program uses
    capacity 1. *)
Record HallOfFame : Type := { maxsize : nat; items : list Individual }.

Fixpoint hof_insert (item : Individual) (members : list Individual) : list Individual :=
  match members with
  | [] => [item]
  | m :: rest => if fitness_le (fitness m) (fitness item)
                 then item :: m :: rest
                 else m :: hof_insert item rest
  end.

Definition similar (a b : Individual) : bool := bool_decide (trees a = trees b).

Definition hof_update_one (first : Individual) (hof : HallOfFame) (ind : Individual)
    : HallOfFame :=
  match last (items hof) with
  | None => if (maxsize hof =? 0)%nat then hof
            else {| maxsize := maxsize hof; items := hof_insert first (items hof) |}
  | Some worst =>
      if fitness_gt (fitness ind) (fitness worst)
         || (length (items hof) <? maxsize hof)%nat
      then if existsb (similar ind) (items hof) then hof
           else let kept := if (maxsize hof <=? length (items hof))%nat
                            then removelast (items hof) else items hof in
                {| maxsize := maxsize hof; items := hof_insert ind kept |}
      else hof
  end.

Definition hof_update (hof : HallOfFame) (population : list Individual) : HallOfFame :=
  match population with
  | [] => hof
  | first :: _ => fold_left (hof_update_one first) population hof
  end.

(** ** numpy, as far as the evaluator uses it *)

Module np.

(** [a.T.reshape(-1)]: the entries of [a], column after column. *)
Definition T_reshape_flat (a : Array2) : list Q :=
  let ncols := length (hd [] a) in
  flat_map (fun j : nat => (fun row : list Q => nth j row 0) <$> a) (seq 0 ncols).

Fixpoint chunks {A} (size : nat) (l : list A) (n : nat) : list (list A) :=
  match n with
  | O => []
  | S n' => take size l :: chunks size (drop size l) n'
  end.

(** [np.split(ary, sections)]: equal sections, or an error. *)
Definition split (ary : list Q) (sections : nat) : exn + list (list Q) :=
  match sections with
  | O => inl (OtherError "ZeroDivisionError" "integer modulo by zero")
  | _ => if (length ary mod sections =? 0)%nat
         then inr (chunks (length ary / sections) ary sections)
         else inl (ValueError "array split does not result in an equal division")
  end.

(** [np.all(v == 0)] *)
Definition all_zero (v : list Q) : bool := forallb (fun c => Qeq_bool c 0) v.

End np.

(** ** class SymINDy *)

Section SymINDy.

Context {TE : TreeEngine} {FE : FittingEngine}.

(** What [evalSymbReg] returns: [[fitness, ]] or the fitted model. *)
Inductive EvalResult : Type :=
| FitnessList (v : list Q)
| FittedModel (model : Model).

Record Toolbox : Type := {
  tb_expr : M Tree;
  tb_subindividual : M Tree;
  tb_individual : M Individual;
  tb_population : nat -> M (list Individual);
  tb_compile : Tree -> exn + Feature;
  tb_select : list Individual -> nat -> M (list Individual);
  tb_mate : list Tree -> M (list Tree);
  tb_mutate : list Tree -> M (list Tree);
  tb_evaluate : option (Individual -> M EvalResult);
  tb_retrieve_model : option (Individual -> M EvalResult)
}.

Definition register_evaluate (tb : Toolbox) (f : Individual -> M EvalResult) : Toolbox :=
  {| tb_expr := tb_expr tb; tb_subindividual := tb_subindividual tb;
     tb_individual := tb_individual tb; tb_population := tb_population tb;
     tb_compile := tb_compile tb; tb_select := tb_select tb;
     tb_mate := tb_mate tb; tb_mutate := tb_mutate tb;
     tb_evaluate := Some f; tb_retrieve_model := tb_retrieve_model tb |}.

Definition register_retrieve_model (tb : Toolbox) (f : Individual -> M EvalResult)
    : Toolbox :=
  {| tb_expr := tb_expr tb; tb_subindividual := tb_subindividual tb;
     tb_individual := tb_individual tb; tb_population := tb_population tb;
     tb_compile := tb_compile tb; tb_select := tb_select tb;
     tb_mate := tb_mate tb; tb_mutate := tb_mutate tb;
     tb_evaluate := tb_evaluate tb; tb_retrieve_model := Some f |}.

(** A registered function is called; an unregistered name is an
    [AttributeError]. *)
Definition call_registered (name : string)
    (f : option (Individual -> M EvalResult)) (ind : Individual) : M EvalResult :=
  match f with
  | Some f => f ind
  | None => raise (OtherError "AttributeError" name)
  end.

(** *** configure_DEAP *)

(** [pset] is the primitive set of the enclosing [configure_DEAP]. *)
Definition _random_mating_operator (ind1 ind2 : Tree) : M (option (Tree * Tree)) :=
  roll <- random.random ;;
  if Qltb roll 0.5 then
    r <- with_rng (cxOnePoint ind1 ind2) ;; ret (Some r)
  else if Qltb roll 1.5 then
    r <- with_rng (cxOnePointLeafBiased ind1 ind2 0.5) ;; ret (Some r)
  else ret None.

Definition _random_mutation_operator (pset : PrimitiveSet) (individual : Tree)
    : M (option Tree) :=
  roll <- random.random ;;
  if Qltb roll 0.5 then
    r <- with_rng (mutInsert individual pset) ;; ret (Some r)
  else if Qltb roll 0.66 then
    r <- with_rng (mutShrink individual) ;; ret (Some r)
  else if Qltb roll 2.66 then
    r <- with_rng (mutNodeReplacement individual pset) ;; ret (Some r)
  else ret None.

(** The dictionary [argnames] that [_rename_args] builds. *)
Definition argnames (nc dimensions : nat) (is_time_dependent : bool)
    : gmap string string :=
  let argnames1 :=
    foldl (fun (d : gmap string string) (dim : nat) =>
             <["ARG" +:+ pretty dim := "x" +:+ pretty dim]> d)
          ∅ (seq 0 dimensions) in
  let argnames2 :=
    foldl (fun (d : gmap string string) (i : nat) =>
             <["ARG" +:+ pretty (i + dimensions)%nat := "x" +:+ pretty i]> d)
          argnames1 (seq 0 nc) in
  if is_time_dependent
  then <["ARG" +:+ pretty (size argnames2) := "t"]> argnames2
  else argnames2.

Definition _rename_args (pset : PrimitiveSet) (nc dimensions : nat)
    (is_time_dependent : bool) : PrimitiveSet :=
  renameArguments pset (argnames nc dimensions is_time_dependent).

(** The positional calling convention of the decorated operators. *)
Definition mate_args (args : list Tree) : M (option (list Tree)) :=
  match args with
  | [ind1; ind2] =>
      r <- _random_mating_operator ind1 ind2 ;;
      ret ((fun p : Tree * Tree => [p.1; p.2]) <$> r)
  | _ => raise (TypeError "_random_mating_operator() takes 2 positional arguments")
  end.

Definition mutate_args (pset : PrimitiveSet) (args : list Tree) : M (option (list Tree)) :=
  match args with
  | [individual] =>
      r <- _random_mutation_operator pset individual ;;
      ret ((fun t : Tree => [t]) <$> r)
  | _ => raise (TypeError "_random_mutation_operator() takes 1 positional argument")
  end.

(** [creator.FitnessMax]: [weights=(1.0,)]. *)
Definition FitnessMax : Fitness := {| weights := [1.0]; wvalues := [] |}.

(** [tools.initRepeat(container, func, n)] *)
Fixpoint initRepeat {A} (func : M A) (n : nat) : M (list A) :=
  match n with
  | O => ret []
  | S n' => a <- func ;; rest <- initRepeat func n' ;; ret (a :: rest)
  end.

Definition _create_toolbox (pset : PrimitiveSet) (ntrees : nat) (max_depth : Z)
    : Toolbox :=
  let expr := with_rng (genHalfAndHalf pset 0 max_depth) in
  let subindividual := expr in
  let individual :=
    ts <- initRepeat subindividual ntrees ;;
    ret {| trees := ts; fitness := FitnessMax |} in
  {| tb_expr := expr;
     tb_subindividual := subindividual;
     tb_individual := individual;
     tb_population := initRepeat individual;
     tb_compile := gp_compile pset;
     tb_select := selTournament 2;
     tb_mate := staticLimit height 2 (history_decorator mate_args);
     tb_mutate := staticLimit height 2 (history_decorator (mutate_args pset));
     tb_evaluate := None;
     tb_retrieve_model := None |}.

(** The attributes of a [SymINDy] object set by [__init__]. *)
Record Config : Type := {
  ngen : nat;
  ntrees : nat;
  mutpb : Q;
  cxpb : Q;
  dims : nat;
  library_name : string;
  is_time_dependent : bool;
  score_metrics : option Metric;
  score_metrics_kwargs : option Kwargs;
  nc : nat;
  n_individuals : nat;
  sindy_kwargs : option Kwargs;
  sparsity : string
}.

(** [configure_DEAP]; the [max_depth] it stores on [self] is returned
    with the toolbox. The time-dependence flag it uses is the object's,
    not its own parameter. *)
Definition configure_DEAP (self : Config) (ntrees nc dimensions : nat)
    (max_depth : Z) (is_time_dependent' : bool) : Toolbox * PrimitiveSet * Z :=
  let pset := library nc dimensions (is_time_dependent self) (library_name self) in
  let pset := _rename_args pset nc dimensions (is_time_dependent self) in
  (_create_toolbox pset ntrees max_depth, pset, max_depth).

(** *** evalSymbReg *)

Definition validate_input (x_train : Array2) : M unit :=
  if (length x_train <? 3)%nat
  then raise (ValueError "x_train shall have at least 3 timepounts!")
  else ret tt.

Definition subtree (individual : Individual) (i : nat) : M Tree :=
  match trees individual !! i with
  | Some t => ret t
  | None => raise (IndexError "list index out of range")
  end.

Definition create_sindy_model (ntrees : nat) (individual : Individual)
    (toolbox : Toolbox) (sindy_kwargs : Kwargs) : M Model :=
  sr_functions <- for_each (fun i : nat =>
                              expr <- subtree individual i ;;
                              emit (EvCompile expr) ;;;
                              lift (tb_compile toolbox expr))
                           (seq 0 ntrees) ;;
  emit EvSINDy ;;;
  lift (ps_SINDy sr_functions sindy_kwargs).

(** The keyword [quiet=True] of the call is left out. *)
Definition fit_sindy_model (model : Model) (x_train : Array2)
    (x_dot_train : option Array2) (time_rec_obs : option TimeSpec) : M Model :=
  emit (EvFit x_train time_rec_obs x_dot_train) ;;;
  lift (SINDy_fit model x_train time_rec_obs x_dot_train).

Definition score_sindy_model (model : Model) (x_train : Array2)
    (time_rec_obs : option TimeSpec) (x_dot_train : option Array2)
    (score_metrics : Metric) (score_metrics_kwargs : Kwargs) : M (Model * Q) :=
  emit (EvScore x_train time_rec_obs x_dot_train) ;;;
  fitness <- lift (SINDy_score model x_train time_rec_obs x_dot_train
                               score_metrics score_metrics_kwargs) ;;
  ret (model, fitness).

(** The lambda [split]. *)
Definition split {T} `{Sliceable T} (x : option T) (ratio : Q)
    : exn + (option T * option T) :=
  match x with
  | Some x =>
      match py_len x with
      | inr n =>
          let k := int (ratio * inject_Z (Z.of_nat n)) in
          inr (Some (py_slice_to x k), Some (py_slice_from x k))
      | inl e => inl e
      end
  | None => inr (None, None)
  end.

(** The number of nodes that count for the sparsity penalty. *)
Definition count_nodes (ntrees : nat) (individual : Individual)
    (ind_coefs_list : list (list Q)) : M nat :=
  for_fold (fun (n_nodes : nat) (i : nat) =>
              match ind_coefs_list !! i with
              | None => raise (IndexError "list index out of range")
              | Some coefs =>
                  if np.all_zero coefs then ret n_nodes
                  else t <- subtree individual i ;;
                       ret (n_nodes + length t)%nat
              end)
           (seq 0 ntrees) 0%nat.

Definition evalSymbReg (individual : Individual) (ntrees : nat) (max_depth : Z)
    (toolbox : Toolbox) (x_train : Array2) (x_dot_train : option Array2)
    (time_rec_obs : option TimeSpec) (sindy_kwargs : option Kwargs)
    (score_metrics : option Metric) (score_metrics_kwargs : option Kwargs)
    (flag_solution : bool) (tr_te_ratio : option Q) (sparsity : string)
    : M EvalResult :=
  emit (EvEvaluate (trees individual) flag_solution tr_te_ratio) ;;;
  let sindy_kwargs := default no_kwargs sindy_kwargs in
  let score_metrics := default r2_score score_metrics in
  let score_metrics_kwargs := default no_kwargs score_metrics_kwargs in
  validate_input x_train ;;;
  model <- create_sindy_model ntrees individual toolbox sindy_kwargs ;;
  let* (model, fitness) :=
    match tr_te_ratio with
    | Some ratio =>
        let* (x_train_tr, x_train_te) := lift (split (Some x_train) ratio) in
        let* (x_dot_train_tr, x_dot_train_te) := lift (split x_dot_train ratio) in
        let* (time_tr, time_te) := lift (split time_rec_obs ratio) in
        match x_train_tr, x_train_te with
        | Some x_train_tr, Some x_train_te =>
            model <- fit_sindy_model model x_train_tr x_dot_train_tr time_tr ;;
            score_sindy_model model x_train_te time_te x_dot_train_te
                              score_metrics score_metrics_kwargs
        | _, _ => raise (TypeError "x_train is None")
        end
    | None =>
        model <- fit_sindy_model model x_train x_dot_train time_rec_obs ;;
        score_sindy_model model x_train time_rec_obs x_dot_train
                          score_metrics score_metrics_kwargs
    end in
  fitness <-
    (if String.eqb sparsity "n_zero_nodes" then
       emit EvCoefficients ;;;
       coefficients <- lift (SINDy_coefficients model) ;;
       ind_coefs_list <- lift (np.split (np.T_reshape_flat coefficients) ntrees) ;;
       n_nodes <- count_nodes ntrees individual ind_coefs_list ;;
       let max_nnodes := 2 ^ (1 + max_depth) * inject_Z (Z.of_nat ntrees) in
       if Qeq_bool max_nnodes 0
       then raise (OtherError "ZeroDivisionError" "division by zero")
       else ret (fitness - inject_Z (Z.of_nat n_nodes) / max_nnodes)
     else ret fitness) ;;
  if negb flag_solution then ret (FitnessList [fitness])
  else ret (FittedModel model).

(** *** my_eaSimple *)

Definition get_subtree (offspring : list Individual) (i h_component : nat) : M Tree :=
  match offspring !! i with
  | Some ind => subtree ind h_component
  | None => raise (IndexError "list index out of range")
  end.

(** [offspring[i][h_component] = t] *)
Definition set_subtree (offspring : list Individual) (i h_component : nat) (t : Tree)
    : list Individual :=
  match offspring !! i with
  | Some ind =>
      <[i := {| trees := <[h_component := t]> (trees ind); fitness := fitness ind |}]>
        offspring
  | None => offspring
  end.

(** [del offspring[i].fitness.values] *)
Definition del_fitness (offspring : list Individual) (i : nat) : list Individual :=
  match offspring !! i with
  | Some ind =>
      <[i := {| trees := trees ind; fitness := del_values (fitness ind) |}]> offspring
  | None => offspring
  end.

(** The body of the crossover loop of [_my_varAnd], at position [i]. *)
Definition varAnd_mate (toolbox_local : Toolbox) (cxpb : Q) (ntrees : nat)
    (offspring : list Individual) (i : nat) : M (list Individual) :=
  roll <- random.random ;;
  if Qltb roll cxpb then
    h <- random.randint 0 (Z.of_nat ntrees - 1) ;;
    let h_component := Z.to_nat h in
    ind1 <- get_subtree offspring (i - 1) h_component ;;
    ind2 <- get_subtree offspring i h_component ;;
    emit (EvMate (i - 1) i h_component) ;;;
    children <- tb_mate toolbox_local [ind1; ind2] ;;
    match children with
    | [child1; child2] =>
        let offspring := set_subtree offspring (i - 1) h_component child1 in
        let offspring := set_subtree offspring i h_component child2 in
        ret (del_fitness (del_fitness offspring (i - 1)) i)
    | _ => raise (ValueError "wrong number of values to unpack")
    end
  else ret offspring.

(** The body of the mutation loops, at position [i] and subtree
    [h_component]. *)
Definition varAnd_mutate (toolbox_local : Toolbox) (mutpb : Q)
    (offspring : list Individual) (ih : nat * nat) : M (list Individual) :=
  let i := ih.1 in
  let h_component := ih.2 in
  roll <- random.random ;;
  if Qltb roll mutpb then
    ind <- get_subtree offspring i h_component ;;
    emit (EvMutate i h_component) ;;;
    children <- tb_mutate toolbox_local [ind] ;;
    match children with
    | [child] =>
        ret (del_fitness (set_subtree offspring i h_component child) i)
    | _ => raise (ValueError "wrong number of values to unpack")
    end
  else ret offspring.

(** [range(1, n, 2)] *)
Definition odd_range (n : nat) : list nat :=
  (fun k : nat => (2 * k + 1)%nat) <$> seq 0 (n / 2).

(** The clones are values here, so cloning is the identity, and an
    assignment into one individual never shows in another. *)
Definition _my_varAnd (population : list Individual) (toolbox_local : Toolbox)
    (cxpb mutpb : Q) (ntrees : nat) : M (list Individual) :=
  let offspring := population in
  offspring <- for_fold (varAnd_mate toolbox_local cxpb ntrees)
                        (odd_range (length offspring)) offspring ;;
  for_fold (varAnd_mutate toolbox_local mutpb)
           (i ← seq 0 (length offspring); (fun h : nat => (i, h)) <$> seq 0 ntrees)
           offspring.

(** [ind.fitness.values = fit] *)
Definition assign_fitness (ind : Individual) (fit : EvalResult) : M Individual :=
  match fit with
  | FitnessList v => ret {| trees := trees ind; fitness := set_values (fitness ind) v |}
  | FittedModel _ => raise (TypeError "object is not iterable")
  end.

(** [[ind for ind in population if not ind.fitness.valid]], each with its
    position in the population (its identity). *)
Definition invalid_ind (population : list Individual) : list (nat * Individual) :=
  List.filter (fun p : nat * Individual => negb (valid (fitness p.2)))
              (imap pair population).

(** The evaluation of the individuals with an invalid fitness, as
    [my_eaSimple] does it for the first population and in each generation:
    the lazy [map] of [toolbox.evaluate] consumed by the assignment loop.
    Returns the population and [len(invalid_ind)]. *)
Definition evaluate_invalid (toolbox_local : Toolbox) (population : list Individual)
    : M (list Individual * nat) :=
  let invalid := invalid_ind population in
  population <- for_fold (fun (pop : list Individual) (p : nat * Individual) =>
                            fit <- call_registered "evaluate" (tb_evaluate toolbox_local) p.2 ;;
                            ind <- assign_fitness p.2 fit ;;
                            ret (<[p.1 := ind]> pop))
                         invalid population ;;
  ret (population, length invalid).

(** A logbook record; the statistics are not modelled. *)
Record LogRecord : Type := { gen : nat; nevals : nat }.

Definition generation (toolbox_local : Toolbox) (cxpb mutpb : Q) (ntrees : nat)
    (state : list Individual * list LogRecord * option HallOfFame) (gen : nat)
    : M (list Individual * list LogRecord * option HallOfFame) :=
  let '(population, logbook, halloffame) := state in
  offspring <- tb_select toolbox_local population (length population) ;;
  offspring <- _my_varAnd offspring toolbox_local cxpb mutpb ntrees ;;
  let* (offspring, nevals) := evaluate_invalid toolbox_local offspring in
  let halloffame := (fun hof => hof_update hof offspring) <$> halloffame in
  let population := offspring in
  ret (population, logbook ++ [{| gen := gen; nevals := nevals |}], halloffame).

Definition my_eaSimple (population : list Individual) (toolbox_local : Toolbox)
    (cxpb mutpb : Q) (ngen ntrees : nat) (halloffame : option HallOfFame)
    : M (list Individual * list LogRecord * option HallOfFame) :=
  let* (population, nevals) := evaluate_invalid toolbox_local population in
  let halloffame := (fun hof => hof_update hof population) <$> halloffame in
  let logbook := [{| gen := 0; nevals := nevals |}] in
  for_fold (generation toolbox_local cxpb mutpb ntrees) (seq 1 ngen)
           (population, logbook, halloffame).

(** *** fit *)

(** The attributes [fit] stores on the object. *)
Record Fitted : Type := {
  fitted_population : list Individual;
  fitted_log : list LogRecord;
  fitted_hof : HallOfFame;
  final_model : Model
}.

(** The function registered as [evaluate]. *)
Definition evaluate_of (self : Config) (max_depth : Z) (toolbox : Toolbox)
    (x_train : Array2) (x_dot_train : option Array2) (time_rec_obs : option TimeSpec)
    (individual : Individual) : M EvalResult :=
  evalSymbReg individual (ntrees self) max_depth toolbox x_train x_dot_train
              time_rec_obs (sindy_kwargs self) (score_metrics self)
              (score_metrics_kwargs self) false (Some 0.8) (sparsity self).

(** The function registered as [retrieve_model]. *)
Definition retrieve_model_of (self : Config) (max_depth : Z) (toolbox : Toolbox)
    (x_train : Array2) (x_dot_train : option Array2) (time_rec_obs : option TimeSpec)
    (individual : Individual) : M EvalResult :=
  evalSymbReg individual (ntrees self) max_depth toolbox x_train x_dot_train
              time_rec_obs (sindy_kwargs self) (score_metrics self)
              (score_metrics_kwargs self) true (Some 0.8) (sparsity self).

Definition fit (self : Config) (x_train : Array2) (x_dot_train : option Array2)
    (time_rec_obs : option TimeSpec) : M Fitted :=
  let '(toolbox0, pset, max_depth) :=
    configure_DEAP self (ntrees self) (nc self) (dims self) 2 false in
  let toolbox := register_evaluate toolbox0
                   (evaluate_of self max_depth toolbox0 x_train x_dot_train time_rec_obs) in
  let toolbox := register_retrieve_model toolbox
                   (retrieve_model_of self max_depth toolbox0 x_train x_dot_train
                                      time_rec_obs) in
  pop <- tb_population toolbox (n_individuals self) ;;
  let hof_ := {| maxsize := 1; items := [] |} in
  let* (pop, log, hof) :=
    my_eaSimple pop toolbox (cxpb self) (mutpb self) (ngen self) (ntrees self)
                (Some hof_) in
  match hof with
  | None => raise (TypeError "'NoneType' object is not subscriptable")
  | Some hof =>
      match items hof !! 0%nat with
      | None => raise (IndexError "list index out of range")
      | Some best =>
          final <- call_registered "retrieve_model" (tb_retrieve_model toolbox) best ;;
          match final with
          | FittedModel m =>
              ret {| fitted_population := pop; fitted_log := log;
                     fitted_hof := hof; final_model := m |}
          | FitnessList _ =>
              raise (OtherError "AttributeError" "'list' object has no attribute 'print'")
          end
      end
  end.

(** *** score *)

Definition score (x x_pred xdot xdot_pred : option Array2)
    (metric : option Metric) (metric_kwargs : option Kwargs)
    : exn + (Q * option Q) :=
  let metric := default r2_score metric in
  let metric_kwargs := default no_kwargs metric_kwargs in
  match metric x x_pred metric_kwargs with
  | inl e => inl e
  | inr x_score =>
      match try_except_ValueError
              (match metric xdot xdot_pred metric_kwargs with
               | inr s => inr (Some s)
               | inl e => inl e
               end)
              (inr None) with
      | inl e => inl e
      | inr xdot_score => inr (x_score, xdot_score)
      end
  end.

End SymINDy.

(** ** A small instance of the collaborators, to run the model on *)

Module Toy.

Definition sin_node : Node := {| node_name := "sin"; arity := 1 |}.
Definition arg0 : Node := {| node_name := "ARG0"; arity := 0 |}.

(** Trees of height 0, 1, 2 and 3. *)
Definition leaf : Tree := [arg0].
Definition tree1 : Tree := [sin_node; arg0].
Definition tree2 : Tree := [sin_node; sin_node; arg0].
Definition tree3 : Tree := [sin_node; sin_node; sin_node; arg0].

(** Generation yields a leaf; crossover swaps the two trees; insertion
    wraps the tree in one more call; the other mutations keep it. *)
#[export] Instance tree_engine : TreeEngine := {|
  Feature := Tree;
  genHalfAndHalf _ _ _ := ret leaf;
  cxOnePoint a b := ret (b, a);
  cxOnePointLeafBiased a b _ := ret (b, a);
  mutInsert t _ := ret (sin_node :: t);
  mutShrink t := ret t;
  mutNodeReplacement t _ := ret t;
  gp_compile _ t := inr t
|}.

(** A model is its library and the data it was last fitted on. Fitting
    gives every feature the coefficient 1 for a single target, except that
    a leaf feature gets 0; the score is the number of test samples. *)
Record ToyModel : Type := { toy_library : list Tree; toy_fitted_on : Array2 }.

#[export] Instance fitting_engine : FittingEngine := {|
  Kwargs := unit;
  no_kwargs := tt;
  Model := ToyModel;
  r2_score a b _ :=
    match a, b with
    | Some a, Some b =>
        if (length a =? length b)%nat then inr 1
        else inl (ValueError "inconsistent numbers of samples")
    | _, _ => inl (TypeError "Expected sequence or array-like, got NoneType")
    end;
  ps_SINDy feats _ := inr {| toy_library := feats; toy_fitted_on := [] |};
  SINDy_fit m x _ _ := inr {| toy_library := toy_library m; toy_fitted_on := x |};
  SINDy_score m x _ _ _ _ := inr (inject_Z (Z.of_nat (length x)));
  SINDy_coefficients m :=
    inr [ (fun t : Tree => if (length t =? 1)%nat then 0 else 1) <$> toy_library m ]
|}.

(** A generator that always outputs [k]. *)
Definition constant_rng (k : N) : Rng := {| outputs := fun _ => k; cursor := 0 |}.

Definition world (k : N) : World := {| rng := constant_rng k; trace := [] |}.

(** Ten samples of a one-dimensional state. *)
Definition x10 : Array2 := (fun i : nat => [inject_Z (Z.of_nat i)]) <$> seq 0 10.

Definition config : Config := {|
  ngen := 1; ntrees := 2; mutpb := 0.8; cxpb := 0.7; dims := 1;
  library_name := "generalized"; is_time_dependent := false;
  score_metrics := None; score_metrics_kwargs := None; nc := 0;
  n_individuals := 2; sindy_kwargs := None; sparsity := "n_zero_nodes"
|}.

End Toy.

(** ** Vocabulary of the statements *)


(** The value [random.random()] returns in world [w], and the world after. *)
Definition roll_of (w : World) : Q :=
  Z.of_N (outputs (rng w) (cursor (rng w)) mod 2 ^ 53) # 2 ^ 53.

Definition after_roll (w : World) : World :=
  {| rng := {| outputs := outputs (rng w); cursor := S (cursor (rng w)) |};
     trace := trace w |}.


(** The slot name [ARG{i}] and the display name [x{i}]. *)
Definition ARG (i : nat) : string := "ARG" +:+ pretty i.
Definition xname (i : nat) : string := "x" +:+ pretty i.

(** A loop [for i in range(a, a + n): d[key i] = val i]. *)
Definition insert_loop (key val : nat -> string) (d : gmap string string)
    (a n : nat) : gmap string string :=
  foldl (fun (d : gmap string string) (i : nat) => <[key i := val i]> d) d (seq a n).


(** The error [validate_input] raises. *)
Definition validation_error : exn :=
  ValueError "x_train shall have at least 3 timepounts!".

(** World [w] after the events [evs]; the state of [random] is kept. *)
Definition after_events (w : World) (evs : list Event) : World :=
  {| rng := rng w; trace := trace w ++ evs |}.

(** The data of the calls to [model.fit], to [model.score] and to the
    evaluator recorded in a list of events. *)
Definition fits_of (evs : list Event)
    : list (Array2 * option TimeSpec * option Array2) :=
  omap (fun ev => match ev with EvFit x t xd => Some (x, t, xd) | _ => None end) evs.

Definition scores_of (evs : list Event)
    : list (Array2 * option TimeSpec * option Array2) :=
  omap (fun ev => match ev with EvScore x t xd => Some (x, t, xd) | _ => None end) evs.

Definition evaluations_of (evs : list Event) : list (list Tree * bool * option Q) :=
  omap (fun ev => match ev with
                  | EvEvaluate ind flag ratio => Some (ind, flag, ratio)
                  | _ => None
                  end) evs.

(** The events of building the model: compiling the subtrees and
    constructing the engine's model. *)
Definition is_build_event (ev : Event) : Prop :=
  match ev with EvCompile _ | EvSINDy => True | _ => False end.

(** The first [floor(ratio * len(x))] samples of [x], and the others. *)
Definition train_of {A} (ratio : Q) (x : list A) : list A :=
  take (Z.to_nat (Qfloor (ratio * inject_Z (Z.of_nat (length x))))) x.

Definition test_of {A} (ratio : Q) (x : list A) : list A :=
  drop (Z.to_nat (Qfloor (ratio * inject_Z (Z.of_nat (length x))))) x.

(** The part of [evalSymbReg] that fits and scores, with or without a split,
    and the part that applies the sparsity penalty. *)
Section EvaluatorParts.

Context {TE : TreeEngine} {FE : FittingEngine}.

Definition fit_and_score (model : Model) (x_train : Array2)
    (x_dot_train : option Array2) (time_rec_obs : option TimeSpec)
    (score_metrics : Metric) (score_metrics_kwargs : Kwargs)
    (tr_te_ratio : option Q) : M (Model * Q) :=
  match tr_te_ratio with
  | Some ratio =>
      let* (x_train_tr, x_train_te) := lift (split (Some x_train) ratio) in
      let* (x_dot_train_tr, x_dot_train_te) := lift (split x_dot_train ratio) in
      let* (time_tr, time_te) := lift (split time_rec_obs ratio) in
      match x_train_tr, x_train_te with
      | Some x_train_tr, Some x_train_te =>
          model <- fit_sindy_model model x_train_tr x_dot_train_tr time_tr ;;
          score_sindy_model model x_train_te time_te x_dot_train_te
                            score_metrics score_metrics_kwargs
      | _, _ => raise (TypeError "x_train is None")
      end
  | None =>
      model <- fit_sindy_model model x_train x_dot_train time_rec_obs ;;
      score_sindy_model model x_train time_rec_obs x_dot_train
                        score_metrics score_metrics_kwargs
  end.

Definition penalized (individual : Individual) (ntrees : nat) (max_depth : Z)
    (sparsity : string) (model : Model) (fitness : Q) : M Q :=
  if String.eqb sparsity "n_zero_nodes" then
    emit EvCoefficients ;;;
    coefficients <- lift (SINDy_coefficients model) ;;
    ind_coefs_list <- lift (np.split (np.T_reshape_flat coefficients) ntrees) ;;
    n_nodes <- count_nodes ntrees individual ind_coefs_list ;;
    let max_nnodes := 2 ^ (1 + max_depth) * inject_Z (Z.of_nat ntrees) in
    if Qeq_bool max_nnodes 0
    then raise (OtherError "ZeroDivisionError" "division by zero")
    else ret (fitness - inject_Z (Z.of_nat n_nodes) / max_nnodes)
  else ret fitness.

End EvaluatorParts.

(** The fitted coefficients of subtree [i]: column [i] of the coefficient
    matrix, whose rows are the targets and whose columns are the library
    features, one per subtree. *)
Definition subtree_coefficients (coefficients : Array2) (i : nat) : list Q :=
  (fun row : list Q => nth i row 0) <$> coefficients.

(** The node count of the subtrees the regression retains: a subtree whose
    coefficients are all exactly zero counts for nothing. *)
Definition retained_nodes (individual : Individual) (coefficients : Array2)
    (ntrees : nat) : nat :=
  sum_list ((fun i : nat =>
               if np.all_zero (subtree_coefficients coefficients i) then 0%nat
               else length (default [] (trees individual !! i)))
            <$> seq 0 ntrees).

Definition sparsity_penalty (individual : Individual) (coefficients : Array2)
    (ntrees : nat) (max_depth : Z) : Q :=
  inject_Z (Z.of_nat (retained_nodes individual coefficients ntrees))
  / (2 ^ (1 + max_depth) * inject_Z (Z.of_nat ntrees)).

(** An individual with a single-objective fitness that has been set, and
    that weighted fitness value. *)
Definition scored (ind : Individual) : Prop := length (wvalues (fitness ind)) = 1%nat.

Definition wvalue (ind : Individual) : Q := hd 0 (wvalues (fitness ind)).




(** Position [i] of the offspring was handed to the mating or the mutation
    operator, according to the events [evs]. *)
Definition touched (evs : list Event) (i : nat) : Prop :=
  exists j h, EvMate i j h ∈ evs \/ EvMate j i h ∈ evs \/ EvMutate i h ∈ evs.

Definition invalid_at (offspring : list Individual) (i : nat) : Prop :=
  exists ind, offspring !! i = Some ind /\ valid (fitness ind) = false.

Definition is_variation_event (ev : Event) : Prop :=
  match ev with EvMate _ _ _ | EvMutate _ _ => True | _ => False end.

(** A computation that makes no recorded call. *)
Definition silent {A} (c : M A) : Prop :=
  forall w r w', c w = (r, w') -> trace w' = trace w.

(** What a stretch of the variation step does to the offspring: the events
    are calls of the operators, every position they touch ends with an
    invalid fitness, an invalid fitness stays invalid, and an untouched
    position keeps its individual. *)
Definition varies (before : list Individual * World) (after : list Individual * World)
    : Prop :=
  exists evs,
    trace after.2 = trace before.2 ++ evs
    /\ Forall is_variation_event evs
    /\ (forall k, touched evs k -> invalid_at after.1 k)
    /\ (forall k, invalid_at before.1 k -> invalid_at after.1 k)
    /\ (forall k, ~ touched evs k -> after.1 !! k = before.1 !! k).

(** The individuals with an invalid fitness, in order. *)
Definition invalid_individuals (population : list Individual) : list Individual :=
  List.filter (fun ind => negb (valid (fitness ind))) population.

Section FitToolbox.

Context {TE : TreeEngine} {FE : FittingEngine}.

(** The toolbox [fit] works with: the one of [configure_DEAP], with
    [evaluate] and [retrieve_model] registered. *)
Definition fit_toolbox (self : Config) (x_train : Array2)
    (x_dot_train : option Array2) (time_rec_obs : option TimeSpec) : Toolbox :=
  let '(toolbox0, pset, max_depth) :=
    configure_DEAP self (ntrees self) (nc self) (dims self) 2 false in
  register_retrieve_model
    (register_evaluate toolbox0
       (evaluate_of self max_depth toolbox0 x_train x_dot_train time_rec_obs))
    (retrieve_model_of self max_depth toolbox0 x_train x_dot_train time_rec_obs).

End FitToolbox.

(** ** The rest of the class: construction and plotting *)

Section Construction.

Context {TE : TreeEngine} {FE : FittingEngine}.

(** The keyword arguments of [__init__], each given or left out. An
    argument whose default is [None] can also be given as [None]. The
    [seed] is not among them: it fixes the output sequence the generator
    starts with ([outputs] of [Rng]); [verbose] only prints. *)
Record InitArgs : Type := {
  arg_ngen : option nat;
  arg_ntrees : option nat;
  arg_mutpb : option Q;
  arg_cxpb : option Q;
  arg_dims : option nat;
  arg_library_name : option string;
  arg_is_time_dependent : option bool;
  arg_score_metrics : option (option Metric);
  arg_score_metrics_kwargs : option (option Kwargs);
  arg_nc : option nat;
  arg_n_individuals : option nat;
  arg_sindy_kwargs : option (option Kwargs);
  arg_sparsity : option string
}.

(** [SymINDy()] *)
Definition no_args : InitArgs := {|
  arg_ngen := None; arg_ntrees := None; arg_mutpb := None; arg_cxpb := None;
  arg_dims := None; arg_library_name := None; arg_is_time_dependent := None;
  arg_score_metrics := None; arg_score_metrics_kwargs := None; arg_nc := None;
  arg_n_individuals := None; arg_sindy_kwargs := None; arg_sparsity := None
|}.

Definition __init__ (args : InitArgs) : Config := {|
  ngen := default 5%nat (arg_ngen args);
  ntrees := default 5%nat (arg_ntrees args);
  mutpb := default 0.8 (arg_mutpb args);
  cxpb := default 0.7 (arg_cxpb args);
  dims := default 2%nat (arg_dims args);
  library_name := default "generalized" (arg_library_name args);
  is_time_dependent := default false (arg_is_time_dependent args);
  score_metrics := default (Some r2_score) (arg_score_metrics args);
  score_metrics_kwargs := default None (arg_score_metrics_kwargs args);
  nc := default 0%nat (arg_nc args);
  n_individuals := default 300%nat (arg_n_individuals args);
  sindy_kwargs := default None (arg_sindy_kwargs args);
  sparsity := default "n_nodes" (arg_sparsity args)
|}.

End Construction.

(** [plt.subplots(nrows, ncols)] of the plotting library, as far as
    [plot_trees] uses it: the axes of a grid of [nrows] rows and [ncols]
    columns, each named by its row and column, in the order in which
    [np.ravel] lists them (row after row). A grid without rows or without
    columns is refused. *)
Definition subplots (nrows ncols : Z) : exn + list (nat * nat) :=
  if (nrows <=? 0)%Z then inl (ValueError "Number of rows must be a positive integer")
  else if (ncols <=? 0)%Z
       then inl (ValueError "Number of columns must be a positive integer")
       else inr (r ← seq 0 (Z.to_nat nrows);
                 (fun c : nat => (r, c)) <$> seq 0 (Z.to_nat ncols)).

(** The loop of [plot_trees]: subtree [expr[i]] is drawn on axis [ax], for
    each pair [(i, ax)] in turn. *)
Fixpoint draw_all (expr : list Tree) (pairs : list (nat * (nat * nat)))
    : exn + list (Tree * (nat * nat)) :=
  match pairs with
  | [] => inr []
  | (i, ax) :: rest =>
      match expr !! i with
      | None => inl (IndexError "list index out of range")
      | Some t =>
          match draw_all expr rest with
          | inl e => inl e
          | inr drawn => inr ((t, ax) :: drawn)
          end
      end
  end.

(** [plot_trees]: the subtrees drawn with their axes, and the axis returned
    (the last one the loop used). [ntrees] and [hof] are the attributes of
    the object. *)
Definition plot_trees (ntrees : nat) (hof : HallOfFame)
    : exn + (list (Tree * (nat * nat)) * (nat * nat)) :=
  match items hof !! 0%nat with
  | None => inl (IndexError "list index out of range")
  | Some expr =>
      let half := inject_Z (Z.of_nat ntrees) / 2 in
      match subplots (int (inject_Z (Qfloor half))) (int (inject_Z (Qceiling half))) with
      | inl e => inl e
      | inr axs =>
          match draw_all (trees expr) (zip (seq 0 ntrees) axs) with
          | inl e => inl e
          | inr drawn =>
              match last drawn with
              | Some (_, ax) => inr (drawn, ax)
              | None => inl (OtherError "UnboundLocalError"
                                        "local variable 'ax' referenced before assignment")
              end
          end
      end
  end.

(** ** The earlier variant, [src/SymINDy/main_tmp.py] *)

Module main_tmp.

(** A number as Python has it: an [int] or a float (numpy's included). *)
Inductive Number : Type :=
| PyInt (k : Z)
| PyFloat (q : Q).

(** [np.floor(q) * len(x)]: the float [floor(q)] times an integer, a float. *)
Definition floor_times_len {A} (q : Q) (x : list A) : Number :=
  PyFloat (inject_Z (Qfloor q) * inject_Z (Z.of_nat (length x))).

(** [x[:b]] and [x[b:]] on an array: a slice bound is an integer; a float is
    refused, whole or not. *)
Definition array_slice_to {A} (x : list A) (b : Number) : exn + list A :=
  match b with
  | PyInt k => inr (slice_to x k)
  | PyFloat _ =>
      inl (TypeError "slice indices must be integers or None or have an __index__ method")
  end.

Definition array_slice_from {A} (x : list A) (b : Number) : exn + list A :=
  match b with
  | PyInt k => inr (slice_from x k)
  | PyFloat _ =>
      inl (TypeError "slice indices must be integers or None or have an __index__ method")
  end.

(** [x_dot_train[b:]], where [x_dot_train] may be [None]. *)
Definition subscript_from (x : option Array2) (b : Number) : exn + Array2 :=
  match x with
  | None => inl (TypeError "'NoneType' object is not subscriptable")
  | Some x => array_slice_from x b
  end.

Section Variant.

Context {TE : TreeEngine} {FE : FittingEngine}.

(** The evaluator of the variant. The library is compiled and the model is
    constructed first, as [create_sindy_model] does it; the input is
    validated next; the data are cut at [np.floor(0.8) * len(x_train)]. The
    call is recorded like a call of the later evaluator, without a split
    ratio, which is not an argument here. *)
Definition evalSymbReg (individual : Individual) (ntrees : nat) (toolbox : Toolbox)
    (x_train : Array2) (x_dot_train : option Array2) (time_rec_obs : option TimeSpec)
    (sindy_kwargs : option Kwargs) (score_metrics : option Metric)
    (score_metrics_kwargs : option Kwargs) (flag_solution : bool) : M EvalResult :=
  emit (EvEvaluate (trees individual) flag_solution None) ;;;
  let sindy_kwargs := default no_kwargs sindy_kwargs in
  let score_metrics := default r2_score score_metrics in
  let score_metrics_kwargs := default no_kwargs score_metrics_kwargs in
  model <- create_sindy_model ntrees individual toolbox sindy_kwargs ;;
  validate_input x_train ;;;
  model <-
    match x_dot_train with
    | Some x_dot =>
        x_tr <- lift (array_slice_to x_train (floor_times_len 0.8 x_train)) ;;
        x_dot_tr <- lift (array_slice_to x_dot (floor_times_len 0.8 x_train)) ;;
        fit_sindy_model model x_tr (Some x_dot_tr) time_rec_obs
    | None =>
        x_tr <- lift (array_slice_to x_train (floor_times_len 0.8 x_train)) ;;
        fit_sindy_model model x_tr None time_rec_obs
    end ;;
  x_te <- lift (array_slice_from x_train (floor_times_len 0.8 x_train)) ;;
  x_dot_te <- lift (subscript_from x_dot_train (floor_times_len 0.8 x_train)) ;;
  let* (model, score) :=
    score_sindy_model model x_te time_rec_obs (Some x_dot_te)
                      score_metrics score_metrics_kwargs in
  let fitness := - score in
  if negb flag_solution then ret (FitnessList [fitness])
  else ret (FittedModel model).

(** [print(halloffame[0][i])] for each subtree index: the printing is not
    modelled, the subscripts are. *)
Definition print_best (halloffame : option HallOfFame) (ntrees : nat) : M unit :=
  for_each (fun i : nat =>
              match halloffame with
              | None => raise (TypeError "'NoneType' object is not subscriptable")
              | Some hof =>
                  match items hof !! 0%nat with
                  | None => raise (IndexError "list index out of range")
                  | Some best => subtree best i ;;; ret tt
                  end
              end)
           (seq 0 ntrees) ;;;
  ret tt.

(** The variables of [my_eaSimple] that its loop sets: the population, the
    logbook, the hall of fame, and [invalid_ind]. *)
Definition LoopState : Type :=
  list Individual * list LogRecord * option HallOfFame * list Individual.

(** One generation: as in the later [my_eaSimple], followed by the printing
    under [verbose]. *)
Definition generation (toolbox_local : Toolbox) (cxpb mutpb : Q) (ntrees : nat)
    (verbose : bool) (state : LoopState) (gen : nat) : M LoopState :=
  let '(population, logbook, halloffame, _) := state in
  offspring <- tb_select toolbox_local population (length population) ;;
  offspring <- _my_varAnd offspring toolbox_local cxpb mutpb ntrees ;;
  let invalid := invalid_individuals offspring in
  let* (offspring, nevals) := evaluate_invalid toolbox_local offspring in
  let halloffame := (fun hof => hof_update hof offspring) <$> halloffame in
  let population := offspring in
  let logbook := logbook ++ [{| gen := gen; nevals := nevals |}] in
  (if verbose then print_best halloffame ntrees else ret tt) ;;;
  ret (population, logbook, halloffame, invalid).

(** [my_eaSimple] up to the end of its loop. *)
Definition evolve (population : list Individual) (toolbox_local : Toolbox)
    (cxpb mutpb : Q) (ngen ntrees : nat) (halloffame : option HallOfFame)
    (verbose : bool) : M LoopState :=
  let invalid := invalid_individuals population in
  let* (population, nevals) := evaluate_invalid toolbox_local population in
  let halloffame := (fun hof => hof_update hof population) <$> halloffame in
  let logbook := [{| gen := 0; nevals := nevals |}] in
  for_fold (generation toolbox_local cxpb mutpb ntrees verbose) (seq 1 ngen)
           (population, logbook, halloffame, invalid).

(** [my_eaSimple] of the variant: after the loop, [gen] is the last value
    the loop gave it, if any, and [models] is assigned only under
    [gen == ngen + 1]; as a lazy [map], [models] stands for the individuals
    it would evaluate. A local variable read before it is assigned is an
    [UnboundLocalError]. *)
Definition my_eaSimple (population : list Individual) (toolbox_local : Toolbox)
    (cxpb mutpb : Q) (ngen ntrees : nat) (halloffame : option HallOfFame)
    (verbose : bool)
    : M (list Individual * list LogRecord * option HallOfFame * list Individual) :=
  let* (population, logbook, halloffame, invalid) :=
    evolve population toolbox_local cxpb mutpb ngen ntrees halloffame verbose in
  match last (seq 1 ngen) with
  | None =>
      raise (OtherError "UnboundLocalError"
                        "local variable 'gen' referenced before assignment")
  | Some gen =>
      if (gen =? ngen + 1)%nat
      then let models := invalid in
           ret (population, logbook, halloffame, models)
      else raise (OtherError "UnboundLocalError"
                             "local variable 'models' referenced before assignment")
  end.

End Variant.

End main_tmp.

(** ** More vocabulary *)

(** World [w] after [k] more outputs of the generator were consumed. *)
Definition after_rolls (w : World) (k : nat) : World :=
  {| rng := {| outputs := outputs (rng w); cursor := (k + cursor (rng w))%nat |};
     trace := trace w |}.

Definition is_mate_event (ev : Event) : Prop :=
  match ev with EvMate _ _ _ => True | _ => False end.

Definition is_mutate_event (ev : Event) : Prop :=
  match ev with EvMutate _ _ => True | _ => False end.

(** A call of an operator that fits an offspring of [n] individuals with
    [ntrees] subtrees each: mating is of the neighbours [2k] and [2k+1] at
    one subtree index, mutation of one subtree of one individual. *)
Definition well_placed (n ntrees : nat) (ev : Event) : Prop :=
  match ev with
  | EvMate i j h =>
      (exists k : nat, i = (2 * k)%nat /\ j = (2 * k + 1)%nat)
      /\ (j < n)%nat /\ (h < ntrees)%nat
  | EvMutate i h => (i < n)%nat /\ (h < ntrees)%nat
  | _ => False
  end.

(** Position [i] took part in a mating. *)
Definition mated (evs : list Event) (i : nat) : Prop :=
  exists j h, EvMate i j h ∈ evs \/ EvMate j i h ∈ evs.

(** Subtree [h] of position [i] was handed to an operator. *)
Definition operated (evs : list Event) (i h : nat) : Prop :=
  (exists j, EvMate i j h ∈ evs \/ EvMate j i h ∈ evs) \/ EvMutate i h ∈ evs.

(** [population[i][h]], if there is one. *)
Definition subtree_at (population : list Individual) (i h : nat) : option Tree :=
  ind ← population !! i; trees ind !! h.

(** The coefficients of the [m] library features [i*m .. i*m + m - 1], for
    all targets, feature after feature. *)
Definition feature_block (coefficients : Array2) (m i : nat) : list Q :=
  concat (subtree_coefficients coefficients <$> seq (i * m) m).

(** The node count of the subtrees whose section of coefficients is not all
    zero. *)
Definition retained_nodes_of (individual : Individual) (section : nat -> list Q)
    (ntrees : nat) : nat :=
  sum_list ((fun i : nat =>
               if np.all_zero (section i) then 0%nat
               else length (default [] (trees individual !! i)))
            <$> seq 0 ntrees).


(** No event of the list is a call to [model.coefficients()]. *)
Definition coefficients_unread (evs : list Event) : Prop :=
  Forall (fun ev => ev <> EvCoefficients) evs.

(** What a stretch of the variation step does, subtree by subtree, to an
    offspring of [n] individuals: its events satisfy [P] and are well
    placed, every individual keeps its number of subtrees, and a subtree
    that was not handed to an operator is unchanged. *)
Definition locally_varied (P : Event -> Prop) (n ntrees : nat)
    (before after : list Individual * World) : Prop :=
  exists evs,
    trace after.2 = trace before.2 ++ evs
    /\ Forall P evs
    /\ Forall (well_placed n ntrees) evs
    /\ (fun ind => length (trees ind)) <$> after.1
       = (fun ind => length (trees ind)) <$> before.1
    /\ (forall k h, ~ operated evs k h ->
          subtree_at after.1 k h = subtree_at before.1 k h).

(** * Properties *)

(** ** The random roll *)

Lemma random_run (w : World) : random.random w = (inr (roll_of w), after_roll w).
Proof. reflexivity. Qed.

Lemma roll_range (w : World) : 0 <= roll_of w /\ roll_of w < 1.
Proof.
  unfold roll_of, Qle, Qlt; simpl.
  assert (Hub : (outputs (rng w) (cursor (rng w)) mod 2 ^ 53 < 9007199254740992)%N)
    by (apply N.mod_upper_bound; discriminate).
  revert Hub. generalize (outputs (rng w) (cursor (rng w)) mod 2 ^ 53)%N as k.
  intros k Hk.
  change (Z.pos (2 ^ 53)) with 9007199254740992%Z.
  lia.
Qed.

Lemma Qltb_lt (x y : Q) : Qltb x y = true <-> x < y.
Proof.
  unfold Qltb. rewrite negb_true_iff.
  split.
  - intros Hle. apply Qnot_le_lt. intros Hyx.
    apply Qle_bool_iff in Hyx. congruence.
  - intros Hlt. destruct (Qle_bool y x) eqn:E; [|reflexivity].
    apply Qle_bool_iff in E. exfalso. exact (Qlt_not_le _ _ Hlt E).
Qed.

Lemma Qltb_ge (x y : Q) : Qltb x y = false <-> y <= x.
Proof.
  unfold Qltb. rewrite negb_false_iff. apply Qle_bool_iff.
Qed.

(** How many of the possible rolls fall below the two thresholds. *)
Lemma roll_counts (k : N) :
  (Qltb (Z.of_N k # 2 ^ 53) 0.5 = true <-> (k < 2 ^ 52)%N)
  /\ (Qltb (Z.of_N k # 2 ^ 53) 0.66 = true <-> (k < 5944751508129055)%N).
Proof.
  rewrite !Qltb_lt. unfold Qlt. simpl.
  change (Z.pos (2 ^ 53)) with 9007199254740992%Z.
  change (2 ^ 52)%N with 4503599627370496%N.
  lia.
Qed.

Section Operators.

Context {TE : TreeEngine} {FE : FittingEngine}.

(** C10. Whatever [random.random()] returns, the mating operator takes its
    first branch when the roll is below 0.5 and its second otherwise, and
    the mutation operator inserts below 0.5, shrinks from 0.5 up to 0.66
    and replaces a node from 0.66 on: the last test of either chain
    ([roll < 1.5], [roll < 2.66]) always holds, so neither operator falls
    through and returns [None]. The rolls lie in [0, 1), and the branches
    cover it with intervals of length 0.5 and 0.5, respectively 0.5, 0.16
    and 0.34. Of the [2^53] values a roll can take, [2^52] are below 0.5
    and 5944751508129055 are below 0.66, so that the shares of the three
    mutation branches are 0.5, 0.16 and 0.34 to within [2^-53]. *)
Theorem random_operators_take_one_branch
    (pset : PrimitiveSet) (ind1 ind2 individual : Tree) (w : World) :
  let roll := roll_of w in
  (0 <= roll /\ roll < 1)
  /\ _random_mating_operator ind1 ind2 w
     = (if Qltb roll 0.5
        then r <- with_rng (cxOnePoint ind1 ind2) ;; ret (Some r)
        else r <- with_rng (cxOnePointLeafBiased ind1 ind2 0.5) ;; ret (Some r))
         (after_roll w)
  /\ _random_mutation_operator pset individual w
     = (if Qltb roll 0.5
        then r <- with_rng (mutInsert individual pset) ;; ret (Some r)
        else if Qltb roll 0.66
             then r <- with_rng (mutShrink individual) ;; ret (Some r)
             else r <- with_rng (mutNodeReplacement individual pset) ;; ret (Some r))
         (after_roll w)
  /\ (_random_mating_operator ind1 ind2 w).1 <> inr None
  /\ (_random_mutation_operator pset individual w).1 <> inr None
  /\ (0.5 - 0 == 0.5 /\ 1 - 0.5 == 0.5)
  /\ (0.5 - 0 == 0.5 /\ 0.66 - 0.5 == 0.16 /\ 1 - 0.66 == 0.34)
  /\ (forall k : N,
        (Qltb (Z.of_N k # 2 ^ 53) 0.5 = true <-> (k < 2 ^ 52)%N)
        /\ (Qltb (Z.of_N k # 2 ^ 53) 0.66 = true <-> (k < 5944751508129055)%N))
  /\ (Qabs ((5944751508129055 - 2 ^ 52) / 2 ^ 53 - 0.16) <= 1 / 2 ^ 53
      /\ Qabs ((2 ^ 53 - 5944751508129055) / 2 ^ 53 - 0.34) <= 1 / 2 ^ 53).
Proof.
  intros roll.
  destruct (roll_range w) as [H0 H1]. fold roll in H0, H1.
  assert (Hmate : Qltb roll 1.5 = true).
  { apply Qltb_lt. eapply Qlt_trans; [exact H1|reflexivity]. }
  assert (Hmut : Qltb roll 2.66 = true).
  { apply Qltb_lt. eapply Qlt_trans; [exact H1|reflexivity]. }
  assert (Emate : _random_mating_operator ind1 ind2 w
     = (if Qltb roll 0.5
        then r <- with_rng (cxOnePoint ind1 ind2) ;; ret (Some r)
        else r <- with_rng (cxOnePointLeafBiased ind1 ind2 0.5) ;; ret (Some r))
         (after_roll w)).
  { unfold _random_mating_operator, bind at 1. rewrite random_run. fold roll.
    rewrite Hmate. reflexivity. }
  assert (Emut : _random_mutation_operator pset individual w
     = (if Qltb roll 0.5
        then r <- with_rng (mutInsert individual pset) ;; ret (Some r)
        else if Qltb roll 0.66
             then r <- with_rng (mutShrink individual) ;; ret (Some r)
             else r <- with_rng (mutNodeReplacement individual pset) ;; ret (Some r))
         (after_roll w)).
  { unfold _random_mutation_operator, bind at 1. rewrite random_run. fold roll.
    rewrite Hmut. reflexivity. }
  split; [auto|]. split; [exact Emate|]. split; [exact Emut|].
  split.
  { rewrite Emate. unfold bind, with_rng, ret.
    destruct (Qltb roll 0.5).
    - destruct (cxOnePoint ind1 ind2 (rng (after_roll w))) as [[e|r] g]; simpl; congruence.
    - destruct (cxOnePointLeafBiased ind1 ind2 0.5 (rng (after_roll w))) as [[e|r] g];
        simpl; congruence. }
  split.
  { rewrite Emut. unfold bind, with_rng, ret.
    destruct (Qltb roll 0.5); [|destruct (Qltb roll 0.66)].
    - destruct (mutInsert individual pset (rng (after_roll w))) as [[e|r] g];
        simpl; congruence.
    - destruct (mutShrink individual (rng (after_roll w))) as [[e|r] g];
        simpl; congruence.
    - destruct (mutNodeReplacement individual pset (rng (after_roll w))) as [[e|r] g];
        simpl; congruence. }
  split; [split; reflexivity|].
  split; [repeat split; reflexivity|].
  split; [apply roll_counts|].
  split; apply Qle_bool_imp_le; reflexivity.
Qed.

End Operators.

Section OperatorRuns.

Import Toy.

(** A generator that outputs [2^52] makes the roll 0.5: the mating operator
    takes its second branch and the mutation operator shrinks; neither
    returns [None]. *)
Lemma random_operators_take_one_branch_witness :
  roll_of (world (2 ^ 52)) == 0.5
  /\ _random_mating_operator tree1 leaf (world (2 ^ 52))
     = (inr (Some (leaf, tree1)), after_roll (world (2 ^ 52)))
  /\ _random_mutation_operator (library 0 1 false "generalized") tree1 (world (2 ^ 52))
     = (inr (Some tree1), after_roll (world (2 ^ 52))).
Proof.
  destruct (random_operators_take_one_branch
              (library 0 1 false "generalized") tree1 leaf tree1 (world (2 ^ 52)))
    as (_ & Hmate & Hmut & _).
  split; [reflexivity|]. split.
  - rewrite Hmate. reflexivity.
  - rewrite Hmut. reflexivity.
Defined.

End OperatorRuns.

(** ** The renaming of the argument slots *)

Section RenameArgs.

Lemma ARG_inj (i j : nat) : ARG i = ARG j -> i = j.
Proof.
  unfold ARG. intros H. simpl in H. injection H as H.
  exact (pretty_nat_inj _ _ H).
Qed.

Lemma insert_loop_miss key val n : forall a d k,
  (forall i, (a <= i < a + n)%nat -> key i <> k) ->
  insert_loop key val d a n !! k = d !! k.
Proof.
  unfold insert_loop.
  induction n as [|n IH]; intros a d k Hk; simpl; [reflexivity|].
  rewrite IH by (intros i Hi; apply Hk; lia).
  apply lookup_insert_ne. apply Hk. lia.
Qed.

Lemma insert_loop_hit key val n : forall a d i,
  (forall i j, key i = key j -> i = j) ->
  (a <= i < a + n)%nat ->
  insert_loop key val d a n !! key i = Some (val i).
Proof.
  induction n as [|n IH]; intros a d i Hinj Hi; [lia|].
  destruct (decide (i = a)) as [->|Hne].
  - change (insert_loop key val d a (S n))
      with (insert_loop key val (<[key a := val a]> d) (S a) n).
    rewrite insert_loop_miss.
    + apply lookup_insert_eq.
    + intros j Hj E. apply Hinj in E. lia.
  - change (insert_loop key val d a (S n))
      with (insert_loop key val (<[key a := val a]> d) (S a) n).
    apply IH; [exact Hinj|lia].
Qed.

Lemma insert_loop_size key val n : forall a d,
  (forall i j, key i = key j -> i = j) ->
  (forall i, (a <= i < a + n)%nat -> d !! key i = None) ->
  size (insert_loop key val d a n) = (size d + n)%nat.
Proof.
  induction n as [|n IH]; intros a d Hinj Hfresh.
  - unfold insert_loop; simpl. lia.
  - change (insert_loop key val d a (S n))
      with (insert_loop key val (<[key a := val a]> d) (S a) n).
    rewrite IH.
    + rewrite map_size_insert_None by (apply Hfresh; lia). lia.
    + exact Hinj.
    + intros i Hi. rewrite lookup_insert_ne.
      * apply Hfresh. lia.
      * intros E. apply Hinj in E. lia.
Qed.

(** The dictionary before the time slot is added. *)
Lemma argnames_loops (nc dimensions : nat) (is_time_dependent : bool) :
  argnames nc dimensions is_time_dependent =
    let d := insert_loop (fun i => ARG (i + dimensions)) xname
               (insert_loop ARG xname ∅ 0 dimensions) 0 nc in
    if is_time_dependent then <[ARG (size d) := "t"]> d else d.
Proof. reflexivity. Qed.

Lemma argnames_size (nc dimensions : nat) :
  size (insert_loop (fun i => ARG (i + dimensions)) xname
          (insert_loop ARG xname ∅ 0 dimensions) 0 nc) = (dimensions + nc)%nat.
Proof.
  rewrite insert_loop_size.
  - rewrite insert_loop_size.
    + rewrite map_size_empty. lia.
    + exact ARG_inj.
    + intros i _. apply lookup_empty.
  - intros i j E. apply ARG_inj in E. lia.
  - intros i Hi. rewrite insert_loop_miss; [apply lookup_empty|].
    intros j Hj E. apply ARG_inj in E. lia.
Qed.

Lemma argnames_constant (nc dimensions : nat) (t : bool) (i : nat) :
  (i < nc)%nat ->
  argnames nc dimensions t !! ARG (dimensions + i) = Some (xname i).
Proof.
  intros Hi. rewrite argnames_loops. cbv zeta.
  assert (E : insert_loop (fun i => ARG (i + dimensions)) xname
                (insert_loop ARG xname ∅ 0 dimensions) 0 nc
              !! ARG (dimensions + i) = Some (xname i)).
  { replace (dimensions + i)%nat with (i + dimensions)%nat by lia.
    apply (insert_loop_hit (fun i => ARG (i + dimensions)) xname nc 0 _ i); [|lia].
    intros a b Eab. apply ARG_inj in Eab. lia. }
  destruct t; [|exact E].
  rewrite argnames_size, lookup_insert_ne; [exact E|].
  intros Eab. apply ARG_inj in Eab. lia.
Qed.

Lemma argnames_state (nc dimensions : nat) (t : bool) (i : nat) :
  (i < dimensions)%nat ->
  argnames nc dimensions t !! ARG i = Some (xname i).
Proof.
  intros Hi. rewrite argnames_loops. cbv zeta.
  assert (E : insert_loop (fun i => ARG (i + dimensions)) xname
                (insert_loop ARG xname ∅ 0 dimensions) 0 nc
              !! ARG i = Some (xname i)).
  { rewrite insert_loop_miss.
    - apply insert_loop_hit; [exact ARG_inj|lia].
    - intros j Hj Eab. apply ARG_inj in Eab. lia. }
  destruct t; [|exact E].
  rewrite argnames_size, lookup_insert_ne; [exact E|].
  intros Eab. apply ARG_inj in Eab. lia.
Qed.

(** C9. With at least one symbolic constant, [_rename_args] names the
    constant slots [ARG{dimensions}] .. [ARG{dimensions+nc-1}] as [x0] ..
    [x{nc-1}]; each of these names is also the name of the state-variable
    slot with the same index, a different slot. With at least one state
    variable the renaming is therefore not injective, and the renamed
    primitive set lists the name [x0] twice. *)
Theorem rename_args_reuses_state_names
    (nc dimensions : nat) (is_time_dependent : bool) (library_name : string) :
  (1 <= nc)%nat ->
  (forall i, (i < nc)%nat ->
     argnames nc dimensions is_time_dependent !! ARG (dimensions + i) = Some (xname i))
  /\ (forall i, (i < nc)%nat -> (i < dimensions)%nat ->
        argnames nc dimensions is_time_dependent !! ARG i = Some (xname i)
        /\ ARG i <> ARG (dimensions + i))
  /\ ((1 <= dimensions)%nat ->
        (exists slot1 slot2 name,
            slot1 <> slot2
            /\ argnames nc dimensions is_time_dependent !! slot1 = Some name
            /\ argnames nc dimensions is_time_dependent !! slot2 = Some name)
        /\ let pset := _rename_args
                         (library nc dimensions is_time_dependent library_name)
                         nc dimensions is_time_dependent in
           arguments pset !! 0%nat = Some "x0"
           /\ arguments pset !! dimensions = Some "x0").
Proof.
  intros Hnc. split; [|split].
  - intros i Hi. apply argnames_constant; exact Hi.
  - intros i Hi Hd. split; [apply argnames_state; exact Hd|].
    intros E. apply ARG_inj in E. lia.
  - intros Hd. split.
    + exists (ARG 0), (ARG (dimensions + 0)), (xname 0).
      split; [intros E; apply ARG_inj in E; lia|].
      split; [apply argnames_state; lia|apply argnames_constant; lia].
    + cbv zeta. unfold _rename_args, renameArguments, library. cbn [arguments].
      rewrite !list_lookup_fmap.
      rewrite !lookup_seq_lt by (destruct is_time_dependent; lia).
      cbn [fmap option_fmap option_map].
      fold (ARG (0 + 0)) (ARG (0 + dimensions)).
      replace (0 + dimensions)%nat with (dimensions + 0)%nat by lia.
      rewrite argnames_state by lia. rewrite argnames_constant by lia.
      split; reflexivity.
Qed.

Lemma rename_args_reuses_state_names_witness :
  argnames 1 2 false !! ARG 2 = Some "x0"
  /\ argnames 1 2 false !! ARG 0 = Some "x0"
  /\ arguments (_rename_args (library 1 2 false "generalized") 1 2 false)
     = ["x0"; "x1"; "x0"].
Proof.
  pose proof (rename_args_reuses_state_names 1 2 false "generalized" (le_n 1))
    as (Hc & Hs & _).
  split; [exact (Hc 0%nat (le_n 1))|].
  split; [exact (proj1 (Hs 0%nat (le_n 1) (le_S _ _ (le_n 1))))|].
  vm_compute. reflexivity.
Defined.

End RenameArgs.

(** ** The wrapper's score *)

Section Score.

Context {TE : TreeEngine} {FE : FittingEngine}.


End Score.

Section ScoreRuns.

Import Toy.



End ScoreRuns.

(** ** Running computations *)

Lemma bind_inl {S A B} (c : Eff S A) (k : A -> Eff S B) (s s' : S) (e : exn) :
  c s = (inl e, s') -> bind c k s = (inl e, s').
Proof. intros H. unfold bind. rewrite H. reflexivity. Qed.

Lemma bind_inr {S A B} (c : Eff S A) (k : A -> Eff S B) (s s' : S) (a : A) :
  c s = (inr a, s') -> bind c k s = k a s'.
Proof. intros H. unfold bind. rewrite H. reflexivity. Qed.

Lemma bind_inv {S A B} (c : Eff S A) (k : A -> Eff S B) (s s' : S) (r : exn + B) :
  bind c k s = (r, s') ->
  (exists e, c s = (inl e, s') /\ r = inl e)
  \/ (exists a s1, c s = (inr a, s1) /\ k a s1 = (r, s')).
Proof.
  unfold bind. destruct (c s) as [[e|a] s1]; intros H.
  - left. exists e. injection H as <- <-. split; reflexivity.
  - right. exists a, s1. split; [reflexivity|exact H].
Qed.

(** A step that did not raise: the computation goes on with its value. *)
Tactic Notation "proceed" ident(H) "as" simple_intropattern(a) simple_intropattern(w)
    simple_intropattern(Ha) :=
  apply bind_inv in H as [(? & _ & ?)|(a & w & Ha & H)]; [discriminate|].

Lemma for_fold_inl {S A B} (f : B -> A -> Eff S B) (a : A) (l : list A) (acc : B)
    (s s' : S) (e : exn) :
  f acc a s = (inl e, s') -> for_fold f (a :: l) acc s = (inl e, s').
Proof. intros H. simpl. apply bind_inl. exact H. Qed.

Lemma after_events_nil (w : World) : after_events w [] = w.
Proof. destruct w as [g t]. unfold after_events. simpl. rewrite app_nil_r. reflexivity. Qed.

Lemma after_events_app (w : World) (evs1 evs2 : list Event) :
  after_events (after_events w evs1) evs2 = after_events w (evs1 ++ evs2).
Proof. unfold after_events. simpl. rewrite app_assoc. reflexivity. Qed.

Lemma emit_run (ev : Event) (w : World) : emit ev w = (inr tt, after_events w [ev]).
Proof. reflexivity. Qed.

(** ** Input validation *)

Section Validation.

Context {TE : TreeEngine} {FE : FittingEngine}.

Lemma evalSymbReg_too_short
    (individual : Individual) (ntrees : nat) (max_depth : Z) (toolbox : Toolbox)
    (x_train : Array2) (x_dot_train : option Array2) (time_rec_obs : option TimeSpec)
    (sindy_kwargs : option Kwargs) (score_metrics : option Metric)
    (score_metrics_kwargs : option Kwargs) (flag_solution : bool)
    (tr_te_ratio : option Q) (sparsity : string) (w : World) :
  (length x_train < 3)%nat ->
  evalSymbReg individual ntrees max_depth toolbox x_train x_dot_train time_rec_obs
              sindy_kwargs score_metrics score_metrics_kwargs flag_solution
              tr_te_ratio sparsity w
  = (inl validation_error,
     after_events w [EvEvaluate (trees individual) flag_solution tr_te_ratio]).
Proof.
  intros Hlen. unfold evalSymbReg.
  rewrite (bind_inr _ _ _ _ _ (emit_run _ w)).
  apply bind_inl. unfold validate_input.
  apply Nat.ltb_lt in Hlen. rewrite Hlen. reflexivity.
Qed.

(** A fresh population: every individual has the invalid fitness it was
    created with, and creating it calls neither the evaluator nor the
    fitting engine. *)
Lemma initRepeat_trees (func : M Tree) :
  (forall w r w', func w = (r, w') -> trace w' = trace w) ->
  forall n w r w', initRepeat func n w = (r, w') -> trace w' = trace w.
Proof.
  intros Hf. induction n as [|n IH]; intros w r w' H; simpl in H.
  - injection H as _ <-. reflexivity.
  - apply bind_inv in H as [(e & H & _)|(a & w1 & H & H')]; [eauto|].
    apply Hf in H.
    apply bind_inv in H' as [(e & H' & _)|(rest & w2 & H' & H'')].
    + apply IH in H'. congruence.
    + apply IH in H'. injection H'' as _ <-. congruence.
Qed.

Lemma with_rng_trace {A} (c : Eff Rng A) (w : World) r w' :
  with_rng c w = (r, w') -> trace w' = trace w.
Proof.
  unfold with_rng. destruct (c (rng w)) as [r0 g]. intros H.
  injection H as _ <-. reflexivity.
Qed.

Lemma population_fresh (pset : PrimitiveSet) (ntrees : nat) (max_depth : Z) :
  forall n w pop w',
    tb_population (_create_toolbox pset ntrees max_depth) n w = (inr pop, w') ->
    length pop = n
    /\ Forall (fun ind => fitness ind = FitnessMax) pop
    /\ trace w' = trace w.
Proof.
  cbn [tb_population _create_toolbox].
  induction n as [|n IH]; intros w pop w' H; simpl in H.
  - injection H as <- <-. repeat split. constructor.
  - apply bind_inv in H as [(e & _ & ?)|(a & w1 & H & H')]; [discriminate|].
    apply bind_inv in H' as [(e & _ & ?)|(rest & w2 & H' & H'')]; [discriminate|].
    injection H'' as <- <-.
    apply IH in H' as (Hlen & Hall & Htr).
    apply bind_inv in H as [(e & _ & ?)|(ts & w3 & H & H3)]; [discriminate|].
    injection H3 as <- <-.
    apply initRepeat_trees in H; [|intros ? ? ?; apply with_rng_trace].
    repeat split.
    + simpl. congruence.
    + constructor; [reflexivity|exact Hall].
    + congruence.
Qed.

Lemma invalid_ind_head (ind : Individual) (rest : list Individual) :
  valid (fitness ind) = false ->
  exists others, invalid_ind (ind :: rest) = (0%nat, ind) :: others.
Proof.
  intros Hv. unfold invalid_ind. simpl. rewrite Hv. simpl. eauto.
Qed.

(** C3. With fewer than three samples in [x_train] the evaluator raises
    the [ValueError] that names the requirement, before it calls the tree
    compiler or the fitting engine: the only event of the call is the call
    itself. The driver does not catch it: [fit], whose first population of
    at least one individual was created, ends with this error at the first
    evaluation, and nothing has been fitted. *)
Theorem short_input_aborts_before_fitting
    (self : Config) (x_train : Array2) (x_dot_train : option Array2)
    (time_rec_obs : option TimeSpec) :
  (length x_train < 3)%nat ->
  (forall individual ntrees max_depth toolbox sindy_kwargs score_metrics
          score_metrics_kwargs flag_solution tr_te_ratio sparsity w,
      evalSymbReg individual ntrees max_depth toolbox x_train x_dot_train
                  time_rec_obs sindy_kwargs score_metrics score_metrics_kwargs
                  flag_solution tr_te_ratio sparsity w
      = (inl validation_error,
         after_events w [EvEvaluate (trees individual) flag_solution tr_te_ratio]))
  /\ (forall w pop w1,
        (1 <= n_individuals self)%nat ->
        tb_population
          (configure_DEAP self (ntrees self) (nc self) (dims self) 2 false).1.1
          (n_individuals self) w = (inr pop, w1) ->
        exists first,
          pop !! 0%nat = Some first
          /\ fit self x_train x_dot_train time_rec_obs w
             = (inl validation_error,
                after_events w1 [EvEvaluate (trees first) false (Some 0.8)])
          /\ trace w1 = trace w).
Proof.
  intros Hlen. split.
  - intros. apply evalSymbReg_too_short. exact Hlen.
  - intros w pop w1 Hn Hpop.
    cbn [configure_DEAP fst snd] in Hpop.
    pose proof (population_fresh _ _ _ _ _ _ _ Hpop) as (Hl & Hall & Htr).
    destruct pop as [|first rest]; [simpl in Hl; lia|].
    exists first. split; [reflexivity|]. split; [|exact Htr].
    unfold fit. cbn [configure_DEAP].
    cbn [tb_population register_retrieve_model register_evaluate].
    cbn [tb_population _create_toolbox] in Hpop.
    rewrite (bind_inr _ _ _ _ _ Hpop).
    apply bind_inl. unfold my_eaSimple. apply bind_inl.
    unfold evaluate_invalid. apply bind_inl.
    apply Forall_cons in Hall as [Hfit _].
    destruct (invalid_ind_head first rest) as [others ->];
      [rewrite Hfit; reflexivity|].
    apply for_fold_inl. apply bind_inl.
    cbn [call_registered tb_evaluate register_retrieve_model register_evaluate snd].
    unfold evaluate_of. apply evalSymbReg_too_short. exact Hlen.
Qed.

End Validation.

Section ValidationRuns.

Import Toy.

(** Two samples: the run of [fit] ends with the validation error at the
    first evaluation, and the trace holds that call only. *)
Lemma short_input_aborts_before_fitting_witness :
  fit config [[0]; [1]] None None (world 0)
  = (inl validation_error,
     after_events (world 0) [EvEvaluate [leaf; leaf] false (Some 0.8)]).
Proof.
  destruct (short_input_aborts_before_fitting config [[0]; [1]] None None
              ltac:(simpl; lia)) as [_ H].
  destruct (H (world 0)
              [ {| trees := [leaf; leaf]; fitness := FitnessMax |};
                {| trees := [leaf; leaf]; fitness := FitnessMax |} ]
              (world 0) ltac:(simpl; lia) eq_refl) as (first & Hfirst & Hfit & _).
  injection Hfirst as <-. exact Hfit.
Defined.

End ValidationRuns.

(** ** The train/test split *)

Lemma int_floor (q : Q) : 0 <= q -> int q = Qfloor q.
Proof.
  destruct q as [n d]. unfold Qle, int, Qfloor. simpl. intros Hn.
  apply Z.quot_div_nonneg; lia.
Qed.

Lemma slice_to_take {A} (x : list A) (k : Z) :
  (0 <= k)%Z -> slice_to x k = take (Z.to_nat k) x.
Proof.
  intros Hk. unfold slice_to, slice_index.
  destruct (Z.ltb_spec k 0); [lia|].
  destruct (Nat.le_ge_cases (Z.to_nat k) (length x)) as [Hle|Hge].
  - rewrite Nat.min_l by exact Hle. reflexivity.
  - rewrite Nat.min_r by exact Hge. rewrite !take_ge by lia. reflexivity.
Qed.

Lemma slice_from_drop {A} (x : list A) (k : Z) :
  (0 <= k)%Z -> slice_from x k = drop (Z.to_nat k) x.
Proof.
  intros Hk. unfold slice_from, slice_index.
  destruct (Z.ltb_spec k 0); [lia|].
  destruct (Nat.le_ge_cases (Z.to_nat k) (length x)) as [Hle|Hge].
  - rewrite Nat.min_l by exact Hle. reflexivity.
  - rewrite Nat.min_r by exact Hge. rewrite !drop_ge by lia. reflexivity.
Qed.

Lemma ratio_len_nonneg (ratio : Q) (n : nat) :
  0 <= ratio -> 0 <= ratio * inject_Z (Z.of_nat n).
Proof.
  intros Hr. apply Qmult_le_0_compat; [exact Hr|].
  unfold Qle. simpl. lia.
Qed.

Section Split.

Context {TE : TreeEngine} {FE : FittingEngine}.

Lemma split_list {A} (x : option (list A)) (ratio : Q) :
  0 <= ratio ->
  split x ratio = inr (train_of ratio <$> x, test_of ratio <$> x).
Proof.
  intros Hr. destruct x as [x|]; [|reflexivity].
  unfold split. cbn [py_len Sliceable_list py_slice_to py_slice_from].
  pose proof (ratio_len_nonneg ratio (length x) Hr) as Hq.
  rewrite int_floor by exact Hq.
  assert (0 <= Qfloor (ratio * inject_Z (Z.of_nat (length x))))%Z as Hf.
  { change 0%Z with (Qfloor 0). apply Qfloor_resp_le. exact Hq. }
  rewrite slice_to_take, slice_from_drop by exact Hf. reflexivity.
Qed.

Lemma split_time (t : option (list Q)) (ratio : Q) :
  0 <= ratio ->
  split (TimeArray <$> t) ratio
  = inr (TimeArray <$> (train_of ratio <$> t), TimeArray <$> (test_of ratio <$> t)).
Proof.
  intros Hr. destruct t as [t|]; [|reflexivity].
  unfold split. cbn [fmap option_fmap option_map py_len Sliceable_TimeSpec
                      py_slice_to py_slice_from].
  pose proof (ratio_len_nonneg ratio (length t) Hr) as Hq.
  rewrite int_floor by exact Hq.
  assert (0 <= Qfloor (ratio * inject_Z (Z.of_nat (length t))))%Z as Hf.
  { change 0%Z with (Qfloor 0). apply Qfloor_resp_le. exact Hq. }
  rewrite slice_to_take, slice_from_drop by exact Hf. reflexivity.
Qed.

(** A float time step cannot be split: the lambda asks for its length. *)
Lemma split_time_step (dt ratio : Q) :
  split (Some (TimeStep dt)) ratio
  = inl (TypeError "object of type 'float' has no len()").
Proof. reflexivity. Qed.

Lemma evalSymbReg_parts
    (individual : Individual) (ntrees : nat) (max_depth : Z) (toolbox : Toolbox)
    (x_train : Array2) (x_dot_train : option Array2) (time_rec_obs : option TimeSpec)
    (sindy_kwargs : option Kwargs) (score_metrics : option Metric)
    (score_metrics_kwargs : option Kwargs) (flag_solution : bool)
    (tr_te_ratio : option Q) (sparsity : string) :
  evalSymbReg individual ntrees max_depth toolbox x_train x_dot_train time_rec_obs
              sindy_kwargs score_metrics score_metrics_kwargs flag_solution
              tr_te_ratio sparsity
  = (emit (EvEvaluate (trees individual) flag_solution tr_te_ratio) ;;;
     validate_input x_train ;;;
     model <- create_sindy_model ntrees individual toolbox
                                 (default no_kwargs sindy_kwargs) ;;
     let* (model, fitness) :=
       fit_and_score model x_train x_dot_train time_rec_obs
                     (default r2_score score_metrics)
                     (default no_kwargs score_metrics_kwargs) tr_te_ratio in
     fitness <- penalized individual ntrees max_depth sparsity model fitness ;;
     if negb flag_solution then ret (FitnessList [fitness])
     else ret (FittedModel model)).
Proof. reflexivity. Qed.

Lemma lift_run {A} (r : exn + A) (w : World) : lift r w = (r, w).
Proof. reflexivity. Qed.

(** Building the model only compiles and constructs. *)
Lemma create_sindy_model_run (ntrees : nat) (individual : Individual)
    (toolbox : Toolbox) (sindy_kwargs : Kwargs) (w : World) r w' :
  create_sindy_model ntrees individual toolbox sindy_kwargs w = (r, w') ->
  exists evs, w' = after_events w evs /\ Forall is_build_event evs.
Proof.
  unfold create_sindy_model. intros H.
  assert (Hloop : forall l w r w',
    for_each (fun i : nat =>
                expr <- subtree individual i ;;
                emit (EvCompile expr) ;;;
                lift (tb_compile toolbox expr)) l w = (r, w') ->
    exists evs, w' = after_events w evs /\ Forall is_build_event evs).
  { clear. induction l as [|i l IH]; intros w r w' H; simpl in H.
    - injection H as _ <-. exists []. rewrite after_events_nil. split; [reflexivity|constructor].
    - apply bind_inv in H as [(e & H & _)|(b & w1 & H & H')].
      + apply bind_inv in H as [(e' & H & _)|(expr & w2 & H & H2)].
        * unfold subtree in H. destruct (trees individual !! i); [discriminate|].
          injection H as _ <-. exists []. rewrite after_events_nil.
          split; [reflexivity|constructor].
        * unfold subtree in H. destruct (trees individual !! i); [|discriminate].
          injection H as <- <-.
          rewrite (bind_inr _ _ _ _ _ (emit_run _ w)), lift_run in H2.
          injection H2 as _ <-. exists [EvCompile t].
          split; [reflexivity|]. repeat constructor.
      + apply bind_inv in H as [(e' & _ & ?)|(expr & w2 & H & H2)]; [discriminate|].
        unfold subtree in H. destruct (trees individual !! i); [|discriminate].
        injection H as <- <-.
        rewrite (bind_inr _ _ _ _ _ (emit_run _ w)), lift_run in H2.
        injection H2 as _ <-.
        apply bind_inv in H' as [(e & H' & _)|(bs & w3 & H' & H3)].
        * apply IH in H' as (evs & -> & Hall). exists (EvCompile t :: evs).
          rewrite after_events_app. split; [reflexivity|].
          constructor; [exact I|exact Hall].
        * apply IH in H' as (evs & -> & Hall). injection H3 as _ <-.
          exists (EvCompile t :: evs).
          rewrite after_events_app. split; [reflexivity|].
          constructor; [exact I|exact Hall]. }
  apply bind_inv in H as [(e & H & _)|(fs & w1 & H & H')].
  - eapply Hloop; exact H.
  - apply Hloop in H as (evs & -> & Hall).
    rewrite (bind_inr _ _ _ _ _ (emit_run _ _)), lift_run in H'.
    injection H' as _ <-. rewrite after_events_app.
    exists (evs ++ [EvSINDy]). split; [reflexivity|].
    apply Forall_app. split; [exact Hall|repeat constructor].
Qed.

End Split.

(** ** The runs of the evaluator *)

Lemma fits_of_app (a b : list Event) : fits_of (a ++ b) = fits_of a ++ fits_of b.
Proof. apply omap_app. Qed.

Lemma scores_of_app (a b : list Event) : scores_of (a ++ b) = scores_of a ++ scores_of b.
Proof. apply omap_app. Qed.

Lemma evaluations_of_app (a b : list Event) :
  evaluations_of (a ++ b) = evaluations_of a ++ evaluations_of b.
Proof. apply omap_app. Qed.

Lemma build_events_silent (evs : list Event) :
  Forall is_build_event evs ->
  fits_of evs = [] /\ scores_of evs = [] /\ evaluations_of evs = [].
Proof.
  induction 1 as [|ev evs Hev _ (IH1 & IH2 & IH3)]; [repeat split|].
  destruct ev; try contradiction; repeat split; simpl; assumption.
Qed.

Section EvaluatorRuns.

Context {TE : TreeEngine} {FE : FittingEngine}.

(** Fitting on one data set and scoring on another: the fit is attempted,
    and the score only after the fit succeeded. *)
Lemma fit_then_score_run (model : Model)
    (x_tr : Array2) (xd_tr : option Array2) (t_tr : option TimeSpec)
    (x_te : Array2) (xd_te : option Array2) (t_te : option TimeSpec)
    (score_metrics : Metric) (score_metrics_kwargs : Kwargs) (w : World) :
  (model <- fit_sindy_model model x_tr xd_tr t_tr ;;
   score_sindy_model model x_te t_te xd_te score_metrics score_metrics_kwargs) w
  = match SINDy_fit model x_tr t_tr xd_tr with
    | inl e => (inl e, after_events w [EvFit x_tr t_tr xd_tr])
    | inr m =>
        (match SINDy_score m x_te t_te xd_te score_metrics score_metrics_kwargs with
         | inl e => inl e
         | inr s => inr (m, s)
         end,
         after_events w [EvFit x_tr t_tr xd_tr; EvScore x_te t_te xd_te])
    end.
Proof.
  unfold fit_sindy_model, score_sindy_model, bind, emit, lift, ret, after_events.
  simpl. destruct (SINDy_fit model x_tr t_tr xd_tr) as [e|m]; [reflexivity|].
  simpl. rewrite <- app_assoc. simpl.
  destruct (SINDy_score m x_te t_te xd_te score_metrics score_metrics_kwargs);
    reflexivity.
Qed.

Lemma fit_and_score_split (model : Model) (x_train : Array2)
    (x_dot_train : option Array2) (t : option (list Q))
    (score_metrics : Metric) (score_metrics_kwargs : Kwargs) (ratio : Q) :
  0 <= ratio ->
  fit_and_score model x_train x_dot_train (TimeArray <$> t)
                score_metrics score_metrics_kwargs (Some ratio)
  = (model <- fit_sindy_model model (train_of ratio x_train)
                              (train_of ratio <$> x_dot_train)
                              (TimeArray <$> (train_of ratio <$> t)) ;;
     score_sindy_model model (test_of ratio x_train)
                       (TimeArray <$> (test_of ratio <$> t))
                       (test_of ratio <$> x_dot_train)
                       score_metrics score_metrics_kwargs).
Proof.
  intros Hr. unfold fit_and_score.
  rewrite (split_list (Some x_train)), (split_list x_dot_train), split_time
    by exact Hr.
  reflexivity.
Qed.

Lemma count_nodes_pure (ntrees : nat) (individual : Individual)
    (ind_coefs_list : list (list Q)) (w : World) r w' :
  count_nodes ntrees individual ind_coefs_list w = (r, w') -> w' = w.
Proof.
  unfold count_nodes. generalize (seq 0 ntrees) as l. generalize 0%nat as acc.
  intros acc l. revert w r w' acc.
  induction l as [|i l IH]; intros w r w' acc H; simpl in H.
  - injection H as _ <-. reflexivity.
  - assert (Hstep : forall r1 w1,
              (match ind_coefs_list !! i with
               | Some coefs =>
                   if np.all_zero coefs then ret acc
                   else t <- subtree individual i ;; ret (acc + length t)%nat
               | None => raise (IndexError "list index out of range")
               end) w = (r1, w1) -> w1 = w).
    { intros r1 w1. destruct (ind_coefs_list !! i) as [c|].
      - destruct (np.all_zero c).
        + intros E. injection E as _ <-. reflexivity.
        + unfold subtree, bind, ret, raise.
          destruct (trees individual !! i); intros E; injection E as _ <-; reflexivity.
      - intros E. injection E as _ <-. reflexivity. }
    apply bind_inv in H as [(e & H & _)|(a & w1 & H & H')].
    + apply Hstep in H. exact H.
    + apply Hstep in H. subst w1. apply IH in H'. exact H'.
Qed.

(** The penalty reads the coefficients of the model and nothing else. *)
Lemma penalized_run (individual : Individual) (ntrees : nat) (max_depth : Z)
    (sparsity : string) (model : Model) (fitness : Q) (w : World) r w' :
  penalized individual ntrees max_depth sparsity model fitness w = (r, w') ->
  w' = after_events w (if String.eqb sparsity "n_zero_nodes"
                       then [EvCoefficients] else []).
Proof.
  unfold penalized. destruct (String.eqb sparsity "n_zero_nodes").
  - rewrite (bind_inr _ _ _ _ _ (emit_run _ _)). intros H.
    apply bind_inv in H as [(e & H & _)|(c & w1 & H & H')];
      rewrite lift_run in H; injection H as _ <-; [reflexivity|].
    apply bind_inv in H' as [(e & H & _)|(l & w1 & H & H')];
      rewrite lift_run in H; injection H as _ <-; [reflexivity|].
    apply bind_inv in H' as [(e & H & _)|(n & w1 & H & H')];
      apply count_nodes_pure in H; subst; [reflexivity|].
    destruct (Qeq_bool _ _); injection H' as _ <-; reflexivity.
  - intros H. injection H as _ <-. rewrite after_events_nil. reflexivity.
Qed.

(** A call of the evaluator, step by step. *)
Lemma evalSymbReg_run
    (individual : Individual) (ntrees : nat) (max_depth : Z) (toolbox : Toolbox)
    (x_train : Array2) (x_dot_train : option Array2) (time_rec_obs : option TimeSpec)
    (sindy_kwargs : option Kwargs) (score_metrics : option Metric)
    (score_metrics_kwargs : option Kwargs) (flag_solution : bool)
    (tr_te_ratio : option Q) (sparsity : string) (w : World) r w' :
  evalSymbReg individual ntrees max_depth toolbox x_train x_dot_train time_rec_obs
              sindy_kwargs score_metrics score_metrics_kwargs flag_solution
              tr_te_ratio sparsity w = (r, w') ->
  let w0 := after_events w [EvEvaluate (trees individual) flag_solution tr_te_ratio] in
  ((length x_train < 3)%nat /\ r = inl validation_error /\ w' = w0)
  \/ ((3 <= length x_train)%nat
      /\ exists rc cevs,
          create_sindy_model ntrees individual toolbox
                             (default no_kwargs sindy_kwargs) w0
          = (rc, after_events w0 cevs)
          /\ Forall is_build_event cevs
          /\ match rc with
             | inl e => r = inl e /\ w' = after_events w0 cevs
             | inr model =>
                 exists rf w2,
                   fit_and_score model x_train x_dot_train time_rec_obs
                                 (default r2_score score_metrics)
                                 (default no_kwargs score_metrics_kwargs)
                                 tr_te_ratio (after_events w0 cevs) = (rf, w2)
                   /\ match rf with
                      | inl e => r = inl e /\ w' = w2
                      | inr (m, s) =>
                          exists rp,
                            penalized individual ntrees max_depth sparsity m s w2
                            = (rp, w')
                            /\ r = match rp with
                                   | inl e => inl e
                                   | inr f => inr (if negb flag_solution
                                                   then FitnessList [f]
                                                   else FittedModel m)
                                   end
                      end
             end).
Proof.
  intros H w0. destruct (Nat.lt_ge_cases (length x_train) 3) as [Hlt|Hge].
  - left. rewrite evalSymbReg_too_short in H by exact Hlt.
    injection H as <- <-. repeat split. exact Hlt.
  - right. split; [exact Hge|].
    rewrite evalSymbReg_parts in H.
    rewrite (bind_inr _ _ _ _ _ (emit_run _ w)) in H. fold w0 in H.
    assert (Hv : validate_input x_train w0 = (inr tt, w0)).
    { unfold validate_input. apply Nat.ltb_ge in Hge. rewrite Hge. reflexivity. }
    rewrite (bind_inr _ _ _ _ _ Hv) in H.
    destruct (create_sindy_model ntrees individual toolbox
                (default no_kwargs sindy_kwargs) w0) as [rc w1] eqn:Hc.
    destruct (create_sindy_model_run _ _ _ _ _ _ _ Hc) as (cevs & -> & Hall).
    exists rc, cevs. split; [reflexivity|]. split; [exact Hall|].
    destruct rc as [e|model].
    + rewrite (bind_inl _ _ _ _ _ Hc) in H. injection H as <- <-. split; reflexivity.
    + rewrite (bind_inr _ _ _ _ _ Hc) in H.
      destruct (fit_and_score model x_train x_dot_train time_rec_obs
                  (default r2_score score_metrics)
                  (default no_kwargs score_metrics_kwargs) tr_te_ratio
                  (after_events w0 cevs)) as [rf w2] eqn:Hf.
      exists rf, w2. split; [reflexivity|].
      destruct rf as [e|[m s]].
      * rewrite (bind_inl _ _ _ _ _ Hf) in H. injection H as <- <-. split; reflexivity.
      * rewrite (bind_inr _ _ _ _ _ Hf) in H.
        destruct (penalized individual ntrees max_depth sparsity m s w2)
          as [rp w3] eqn:Hp.
        exists rp. destruct rp as [e|f].
        -- rewrite (bind_inl _ _ _ _ _ Hp) in H. injection H as <- <-.
           split; reflexivity.
        -- rewrite (bind_inr _ _ _ _ _ Hp) in H.
           destruct flag_solution; injection H as <- <-; split; reflexivity.
Qed.

End EvaluatorRuns.

Section SplitClaim.

Context {TE : TreeEngine} {FE : FittingEngine}.

Lemma penalty_events_silent (sparsity : string) :
  let pevs := if String.eqb sparsity "n_zero_nodes" then [EvCoefficients] else [] in
  fits_of pevs = [] /\ scores_of pevs = [] /\ evaluations_of pevs = [].
Proof. destruct (String.eqb sparsity "n_zero_nodes"); repeat split. Qed.


End SplitClaim.

Section SplitRuns.

Import Toy.


End SplitRuns.

(** ** The sparsity penalty *)

Lemma chunks_concat {A} (d : nat) (ls : list (list A)) :
  Forall (fun l => length l = d) ls ->
  np.chunks d (concat ls) (length ls) = ls.
Proof.
  induction 1 as [|l ls Hl _ IH]; [reflexivity|].
  simpl. rewrite take_app_length' by (symmetry; exact Hl).
  rewrite drop_app_length' by (symmetry; exact Hl). rewrite IH. reflexivity.
Qed.

Lemma length_concat_uniform {A} (d : nat) (ls : list (list A)) :
  Forall (fun l => length l = d) ls ->
  length (concat ls) = (length ls * d)%nat.
Proof.
  induction 1 as [|l ls Hl _ IH]; [reflexivity|].
  simpl. rewrite length_app, IH, Hl. reflexivity.
Qed.

Lemma split_columns (coefficients : Array2) (ntrees : nat) :
  (1 <= ntrees)%nat ->
  Forall (fun row => length row = ntrees) coefficients ->
  np.split (np.T_reshape_flat coefficients) ntrees
  = inr (subtree_coefficients coefficients <$> seq 0 ntrees).
Proof.
  intros Hn Hshape.
  set (cols := subtree_coefficients coefficients <$> seq 0 ntrees).
  assert (Hcols : Forall (fun l => length l = length coefficients) cols).
  { apply Forall_fmap, Forall_forall. intros i _. simpl.
    unfold subtree_coefficients. apply length_fmap. }
  assert (Hlen : length cols = ntrees).
  { unfold cols. rewrite length_fmap, length_seq. reflexivity. }
  destruct coefficients as [|row rest].
  - unfold np.T_reshape_flat, np.split. simpl.
    destruct ntrees as [|n]; [lia|].
    rewrite Nat.Div0.mod_0_l, Nat.Div0.div_0_l. simpl Nat.eqb. cbv iota.
    f_equal.
    assert (E : concat cols = []).
    { clear -Hcols. induction Hcols as [|l ls Hl _ IH]; [reflexivity|].
      simpl. destruct l; [exact IH|discriminate]. }
    transitivity (np.chunks 0 (concat cols) (length cols)).
    + rewrite E, Hlen. reflexivity.
    + apply (chunks_concat 0). exact Hcols.
  - assert (Hflat : np.T_reshape_flat (row :: rest) = concat cols).
    { unfold np.T_reshape_flat. rewrite flat_map_concat_map.
      apply Forall_cons in Hshape as [Hrow _]. simpl hd. rewrite Hrow.
      reflexivity. }
    rewrite Hflat. unfold np.split.
    destruct ntrees as [|n]; [lia|].
    rewrite (length_concat_uniform _ _ Hcols), Hlen.
    rewrite Nat.mul_comm, Nat.Div0.mod_mul, Nat.div_mul by lia.
    simpl Nat.eqb. cbv iota. f_equal.
    transitivity (np.chunks (length (row :: rest)) (concat cols) (length cols)).
    + rewrite Hlen. reflexivity.
    + apply chunks_concat. exact Hcols.
Qed.

Lemma max_nnodes_pos (ntrees : nat) (max_depth : Z) :
  (1 <= ntrees)%nat -> 0 < 2 ^ (1 + max_depth) * inject_Z (Z.of_nat ntrees).
Proof.
  intros Hn. apply Qmult_lt_0_compat.
  - apply Qpower_0_lt. reflexivity.
  - unfold Qlt. simpl. lia.
Qed.

Section Penalty.

Context {TE : TreeEngine} {FE : FittingEngine}.

Lemma count_nodes_retained (ntrees : nat) (individual : Individual)
    (coefficients : Array2) (w : World) :
  (ntrees <= length (trees individual))%nat ->
  count_nodes ntrees individual
              (subtree_coefficients coefficients <$> seq 0 ntrees) w
  = (inr (retained_nodes individual coefficients ntrees), w).
Proof.
  intros Hlen. unfold count_nodes, retained_nodes.
  assert (Hgen : forall l acc,
    Forall (fun i => (i < ntrees)%nat) l ->
    for_fold (fun (n_nodes i : nat) =>
                match (subtree_coefficients coefficients <$> seq 0 ntrees) !! i with
                | None => raise (IndexError "list index out of range")
                | Some coefs =>
                    if np.all_zero coefs then ret n_nodes
                    else t <- subtree individual i ;; ret (n_nodes + length t)%nat
                end) l acc w
    = (inr (acc + sum_list
                    ((fun i : nat =>
                        if np.all_zero (subtree_coefficients coefficients i) then 0%nat
                        else length (default [] (trees individual !! i))) <$> l))%nat,
       w)).
  { induction l as [|i l IH]; intros acc Hl.
    - simpl. rewrite Nat.add_0_r. reflexivity.
    - apply Forall_cons in Hl as [Hi Hl]. cbn [for_fold].
      destruct (lookup_lt_is_Some_2 (trees individual) i ltac:(lia)) as [t Ht].
      assert (Hstep :
        (match (subtree_coefficients coefficients <$> seq 0 ntrees) !! i with
         | None => raise (IndexError "list index out of range")
         | Some coefs =>
             if np.all_zero coefs then ret acc
             else t <- subtree individual i ;; ret (acc + length t)%nat
         end) w
        = (inr (acc + (if np.all_zero (subtree_coefficients coefficients i) then 0
                       else length (default [] (trees individual !! i))))%nat, w)).
      { rewrite list_lookup_fmap, lookup_seq_lt by exact Hi.
        cbn [fmap option_fmap option_map]. change (0 + i)%nat with i.
        destruct (np.all_zero (subtree_coefficients coefficients i)).
        - rewrite Nat.add_0_r. reflexivity.
        - assert (Hd : default [] (trees individual !! i) = t).
          { transitivity (default [] (Some t)); [f_equal; exact Ht|reflexivity]. }
          rewrite Hd. unfold subtree. rewrite Ht. reflexivity. }
      rewrite (bind_inr _ _ _ _ _ Hstep), IH by exact Hl.
      rewrite fmap_cons. simpl sum_list. do 2 f_equal. lia. }
  rewrite Hgen; [reflexivity|].
  apply Forall_forall. intros i Hi. apply elem_of_seq in Hi. lia.
Qed.

(** The penalty step of the evaluator, in mode ["n_zero_nodes"]. *)
Lemma penalized_value (individual : Individual) (ntrees : nat) (max_depth : Z)
    (model : Model) (fitness : Q) (coefficients : Array2) (w : World) :
  (1 <= ntrees)%nat ->
  (ntrees <= length (trees individual))%nat ->
  SINDy_coefficients model = inr coefficients ->
  Forall (fun row => length row = ntrees) coefficients ->
  penalized individual ntrees max_depth "n_zero_nodes" model fitness w
  = (inr (fitness - sparsity_penalty individual coefficients ntrees max_depth),
     after_events w [EvCoefficients]).
Proof.
  intros Hn Hlen Hcoef Hshape. unfold penalized. rewrite String.eqb_refl.
  rewrite (bind_inr _ _ _ _ _ (emit_run _ _)).
  rewrite Hcoef. rewrite (bind_inr _ _ _ _ _ (lift_run _ _)).
  rewrite split_columns by assumption.
  rewrite (bind_inr _ _ _ _ _ (lift_run _ _)).
  rewrite (bind_inr _ _ _ _ _ (count_nodes_retained _ _ _ _ Hlen)).
  destruct (Qeq_bool (2 ^ (1 + max_depth) * inject_Z (Z.of_nat ntrees)) 0) eqn:E.
  - apply Qeq_bool_eq in E. pose proof (max_nnodes_pos ntrees max_depth Hn) as Hpos.
    rewrite E in Hpos. exfalso. exact (Qlt_irrefl 0 Hpos).
  - reflexivity.
Qed.

End Penalty.

Lemma sparsity_penalty_nonneg (individual : Individual) (coefficients : Array2)
    (ntrees : nat) (max_depth : Z) :
  (1 <= ntrees)%nat -> 0 <= sparsity_penalty individual coefficients ntrees max_depth.
Proof.
  intros Hn. unfold sparsity_penalty. apply Qle_shift_div_l.
  - apply max_nnodes_pos. exact Hn.
  - rewrite Qmult_0_l. unfold Qle. simpl. lia.
Qed.

Lemma retained_nodes_all_zero (individual : Individual) (coefficients : Array2)
    (ntrees : nat) :
  (forall i, (i < ntrees)%nat ->
     np.all_zero (subtree_coefficients coefficients i) = true) ->
  retained_nodes individual coefficients ntrees = 0%nat.
Proof.
  intros Hz. unfold retained_nodes.
  assert (Hgen : forall l, Forall (fun i => (i < ntrees)%nat) l ->
    sum_list ((fun i : nat =>
                 if np.all_zero (subtree_coefficients coefficients i) then 0%nat
                 else length (default [] (trees individual !! i))) <$> l) = 0%nat).
  { induction 1 as [|i l Hi _ IH]; [reflexivity|].
    rewrite fmap_cons. simpl sum_list. rewrite (Hz i Hi), IH. reflexivity. }
  apply Hgen. apply Forall_forall. intros i Hi. apply elem_of_seq in Hi. lia.
Qed.

Section PenaltyClaim.

Context {TE : TreeEngine} {FE : FittingEngine}.

(** A fitness the evaluator returns is the score the engine gave to the
    fitted model, less a non-negative penalty. *)
Lemma fit_and_score_scored (model : Model) (x_train : Array2)
    (x_dot_train : option Array2) (time_rec_obs : option TimeSpec)
    (score_metrics : Metric) (score_metrics_kwargs : Kwargs)
    (tr_te_ratio : option Q) (w : World) m s w' :
  fit_and_score model x_train x_dot_train time_rec_obs score_metrics
                score_metrics_kwargs tr_te_ratio w = (inr (m, s), w') ->
  exists x t xd,
    SINDy_score m x t xd score_metrics score_metrics_kwargs = inr s
    /\ exists x' t' xd', SINDy_fit model x' t' xd' = inr m.
Proof.
  assert (Hgen : forall x_tr xd_tr t_tr x_te xd_te t_te w,
    (model <- fit_sindy_model model x_tr xd_tr t_tr ;;
     score_sindy_model model x_te t_te xd_te score_metrics score_metrics_kwargs) w
    = (inr (m, s), w') ->
    exists x t xd,
      SINDy_score m x t xd score_metrics score_metrics_kwargs = inr s
      /\ exists x' t' xd', SINDy_fit model x' t' xd' = inr m).
  { intros x_tr xd_tr t_tr x_te xd_te t_te w0 H. rewrite fit_then_score_run in H.
    destruct (SINDy_fit model x_tr t_tr xd_tr) as [e|m'] eqn:Ef; [discriminate|].
    destruct (SINDy_score m' x_te t_te xd_te score_metrics score_metrics_kwargs)
      as [e|s'] eqn:Es; [discriminate|].
    injection H as -> -> _. eauto 10. }
  unfold fit_and_score. destruct tr_te_ratio as [ratio|]; [|apply Hgen].
  intros H.
  proceed H as [a b] w1 _.
  proceed H as [c d] w2 _.
  proceed H as [f g] w3 _.
  destruct a as [a|]; [|discriminate]. destruct b as [b|]; [|discriminate].
  eapply Hgen. exact H.
Qed.

Lemma penalized_shape (individual : Individual) (ntrees : nat) (max_depth : Z)
    (sparsity : string) (model : Model) (fitness : Q) (w : World) f w' :
  penalized individual ntrees max_depth sparsity model fitness w = (inr f, w') ->
  (String.eqb sparsity "n_zero_nodes" = false /\ f = fitness)
  \/ (String.eqb sparsity "n_zero_nodes" = true
      /\ exists n_nodes : nat,
           f = fitness - inject_Z (Z.of_nat n_nodes)
                         / (2 ^ (1 + max_depth) * inject_Z (Z.of_nat ntrees))
           /\ ~ 2 ^ (1 + max_depth) * inject_Z (Z.of_nat ntrees) == 0).
Proof.
  unfold penalized. destruct (String.eqb sparsity "n_zero_nodes").
  - intros H. right. split; [reflexivity|].
    rewrite (bind_inr _ _ _ _ _ (emit_run _ _)) in H.
    proceed H as c w1 _.
    proceed H as l w2 _.
    proceed H as n w3 _.
    destruct (Qeq_bool _ _) eqn:E; [discriminate|].
    injection H as <- _. exists n. split; [reflexivity|].
    apply Qeq_bool_neq. exact E.
  - intros H. injection H as <- _. left. split; reflexivity.
Qed.

(** C5. In mode ["n_zero_nodes"], for an individual of [ntrees] subtrees
    and a coefficient matrix with one column per subtree, the evaluator
    subtracts from the score the node count of the subtrees whose
    coefficients are not all exactly zero, divided by
    [2^(1+max_depth) * ntrees]. The penalty is zero when all coefficients of
    every subtree are zero, and with the score fixed the fitness is strictly
    smaller for a strictly larger retained node count. *)
Theorem sparsity_penalty_counts_retained_nodes
    (individual : Individual) (ntrees : nat) (max_depth : Z) (toolbox : Toolbox)
    (x_train : Array2) (x_dot_train : option Array2) (time_rec_obs : option TimeSpec)
    (sindy_kwargs : option Kwargs) (score_metrics : option Metric)
    (score_metrics_kwargs : option Kwargs) (tr_te_ratio : option Q) :
  (1 <= ntrees)%nat ->
  length (trees individual) = ntrees ->
  (forall model score coefficients w,
      SINDy_coefficients model = inr coefficients ->
      Forall (fun row => length row = ntrees) coefficients ->
      penalized individual ntrees max_depth "n_zero_nodes" model score w
      = (inr (score - inject_Z (Z.of_nat (retained_nodes individual coefficients ntrees))
                      / (2 ^ (1 + max_depth) * inject_Z (Z.of_nat ntrees))),
         after_events w [EvCoefficients]))
  /\ (forall w v w',
        evalSymbReg individual ntrees max_depth toolbox x_train x_dot_train
                    time_rec_obs sindy_kwargs score_metrics score_metrics_kwargs
                    false tr_te_ratio "n_zero_nodes" w
        = (inr (FitnessList v), w') ->
        exists model score coefficients x t xd,
          SINDy_score model x t xd (default r2_score score_metrics)
                      (default no_kwargs score_metrics_kwargs) = inr score
          /\ SINDy_coefficients model = inr coefficients
          /\ (Forall (fun row => length row = ntrees) coefficients ->
              v = [score - sparsity_penalty individual coefficients ntrees max_depth]))
  /\ (forall coefficients,
        (forall i, (i < ntrees)%nat ->
           np.all_zero (subtree_coefficients coefficients i) = true) ->
        sparsity_penalty individual coefficients ntrees max_depth == 0)
  /\ (forall (other : Individual) coefficients coefficients' score,
        (retained_nodes individual coefficients ntrees
         < retained_nodes other coefficients' ntrees)%nat ->
        score - sparsity_penalty other coefficients' ntrees max_depth
        < score - sparsity_penalty individual coefficients ntrees max_depth).
Proof.
  intros Hn Hlen. split; [|split; [|split]].
  - intros model score coefficients w Hcoef Hshape.
    apply penalized_value; [exact Hn|lia|exact Hcoef|exact Hshape].
  - intros w v w' H.
    apply evalSymbReg_run in H
      as [(_ & ? & _)|(_ & rc & cevs & _ & _ & Hrest)]; [discriminate|].
    destruct rc as [e|model0]; [destruct Hrest; discriminate|].
    destruct Hrest as (rf & w2 & Hf & Hrest).
    destruct rf as [e|[m s]]; [destruct Hrest; discriminate|].
    destruct Hrest as (rp & Hp & Hr).
    destruct rp as [e|f]; [discriminate|].
    simpl in Hr. injection Hr as ->.
    destruct (fit_and_score_scored _ _ _ _ _ _ _ _ _ _ _ Hf) as (x & t & xd & Hs & _).
    destruct (SINDy_coefficients m) as [e|coefficients] eqn:Hcoef.
    + exfalso. unfold penalized in Hp. rewrite String.eqb_refl in Hp.
      rewrite (bind_inr _ _ _ _ _ (emit_run _ _)), Hcoef in Hp.
      rewrite (bind_inl _ _ _ _ _ (lift_run _ _)) in Hp. discriminate.
    + exists m, s, coefficients, x, t, xd.
      split; [exact Hs|]. split; [exact Hcoef|].
      intros Hshape.
      rewrite (penalized_value individual ntrees max_depth m s coefficients w2)
        in Hp; [|exact Hn|lia|exact Hcoef|exact Hshape].
      injection Hp as <- _. reflexivity.
  - intros coefficients Hz. unfold sparsity_penalty.
    rewrite retained_nodes_all_zero by exact Hz. reflexivity.
  - intros other coefficients coefficients' score Hlt.
    unfold sparsity_penalty.
    set (D := 2 ^ (1 + max_depth) * inject_Z (Z.of_nat ntrees)).
    assert (HD : 0 < D) by (apply max_nnodes_pos; exact Hn).
    apply Qplus_lt_r. apply Qopp_lt_compat.
    unfold Qdiv. apply Qmult_lt_compat_r; [apply Qinv_lt_0_compat; exact HD|].
    rewrite <- Zlt_Qlt. lia.
Qed.

End PenaltyClaim.

Section PenaltyRuns.

Import Toy.

(** Two subtrees, the first of two nodes with coefficient 1, the second a
    leaf with coefficient 0: two nodes are retained, the bound is
    [2^3 * 2 = 16], and the score 2 becomes the fitness [2 - 2/16]. *)
Lemma sparsity_penalty_counts_retained_nodes_witness :
  exists w',
    evalSymbReg {| trees := [tree1; leaf]; fitness := FitnessMax |} 2 2
                (_create_toolbox (library 0 1 false "generalized") 2 2)
                x10 None None None None None false (Some 0.8) "n_zero_nodes"
                (world 0)
    = (inr (FitnessList [2 - 2 / (2 ^ 3 * 2)]), w')
    /\ sparsity_penalty {| trees := [leaf; leaf]; fitness := FitnessMax |}
                        [[0; 0]] 2 2 == 0.
Proof.
  pose proof (sparsity_penalty_counts_retained_nodes
                {| trees := [tree1; leaf]; fitness := FitnessMax |} 2 2
                (_create_toolbox (library 0 1 false "generalized") 2 2)
                x10 None None None None None (Some 0.8)
                ltac:(simpl; lia) eq_refl) as (_ & Hrun & _ & _).
  pose proof (sparsity_penalty_counts_retained_nodes
                {| trees := [leaf; leaf]; fitness := FitnessMax |} 2 2
                (_create_toolbox (library 0 1 false "generalized") 2 2)
                x10 None None None None None (Some 0.8)
                ltac:(simpl; lia) eq_refl) as (_ & _ & Hzero & _).
  destruct (evalSymbReg {| trees := [tree1; leaf]; fitness := FitnessMax |} 2 2
              (_create_toolbox (library 0 1 false "generalized") 2 2)
              x10 None None None None None false (Some 0.8) "n_zero_nodes"
              (world 0)) as [r w'] eqn:E.
  exists w'. split.
  - assert (Er : r = inr (FitnessList [2 - 2 / (2 ^ 3 * 2)])).
    { vm_compute in E. injection E as <- _. reflexivity. }
    subst r. reflexivity.
  - apply Hzero. intros i Hi.
    destruct i as [|[|i]]; [reflexivity|reflexivity|lia].
Defined.

End PenaltyRuns.

(** ** Fitness is maximized *)

Lemma tuple_le_single (x y : Q) : tuple_le [x] [y] = true <-> x <= y.
Proof.
  simpl. destruct (Qeq_bool x y) eqn:E.
  - apply Qeq_bool_eq in E. split; [intros _; rewrite E; apply Qle_refl|reflexivity].
  - apply Qle_bool_iff.
Qed.

Lemma fitness_le_scored (a b : Individual) :
  scored a -> scored b ->
  (fitness_le (fitness a) (fitness b) = true <-> wvalue a <= wvalue b).
Proof.
  unfold scored, wvalue, fitness_le. intros Ha Hb.
  destruct (wvalues (fitness a)) as [|x [|? ?]]; try discriminate.
  destruct (wvalues (fitness b)) as [|y [|? ?]]; try discriminate.
  apply tuple_le_single.
Qed.

Lemma fitness_gt_scored (a b : Individual) :
  scored a -> scored b ->
  (fitness_gt (fitness a) (fitness b) = true <-> wvalue b < wvalue a).
Proof.
  intros Ha Hb. unfold fitness_gt. rewrite negb_true_iff.
  pose proof (fitness_le_scored a b Ha Hb) as Hle. split.
  - intros Hf. apply Qnot_le_lt. intros Hab. apply Hle in Hab. congruence.
  - intros Hlt. destruct (fitness_le (fitness a) (fitness b)) eqn:E; [|reflexivity].
    exfalso. apply (Qlt_not_le _ _ Hlt). apply Hle. reflexivity.
Qed.

Lemma max_by_fitness_maximal (rest : list Individual) : forall best,
  Forall scored (best :: rest) ->
  max_by_fitness best rest ∈ best :: rest
  /\ forall x, x ∈ best :: rest -> wvalue x <= wvalue (max_by_fitness best rest).
Proof.
  induction rest as [|y rest IH]; intros best Hall.
  - simpl. split; [left|]. intros x Hx. apply list_elem_of_singleton in Hx.
    subst x. apply Qle_refl.
  - apply Forall_cons in Hall as [Hb Hall].
    pose proof Hall as Hall'. apply Forall_cons in Hall' as [Hy Hrest].
    simpl. destruct (fitness_gt (fitness y) (fitness best)) eqn:E.
    + destruct (IH y Hall) as [Hin Hmax]. split; [right; exact Hin|].
      intros x Hx. apply elem_of_cons in Hx as [->|Hx]; [|apply Hmax; exact Hx].
      apply fitness_gt_scored in E; [|exact Hy|exact Hb].
      eapply Qle_trans; [apply Qlt_le_weak; exact E|]. apply Hmax. left.
    + destruct (IH best (Forall_cons_2 _ _ _ Hb Hrest)) as [Hin Hmax].
      split.
      * apply elem_of_cons in Hin as [Hin|Hin]; [rewrite Hin; left|right; right; exact Hin].
      * intros x Hx. apply elem_of_cons in Hx as [->|Hx]; [apply Hmax; left|].
        apply elem_of_cons in Hx as [->|Hx]; [|apply Hmax; right; exact Hx].
        eapply Qle_trans; [|apply Hmax; left].
        apply fitness_le_scored; [exact Hy|exact Hb|].
        unfold fitness_gt in E. apply negb_false_iff in E. exact E.
Qed.

Lemma choice_elem {A} (seq : list A) (w : World) a w' :
  random.choice seq w = (inr a, w') -> a ∈ seq.
Proof.
  unfold random.choice. destruct seq as [|x l]; [discriminate|].
  intros H. proceed H as k w1 _.
  destruct ((x :: l) !! (N.to_nat k mod length (x :: l))%nat) as [b|] eqn:E;
    [|discriminate].
  injection H as <- _. eapply list_elem_of_lookup_2. exact E.
Qed.

Lemma selRandom_elems (individuals : list Individual) : forall k w aspirants w',
  selRandom individuals k w = (inr aspirants, w') ->
  Forall (fun a => a ∈ individuals) aspirants.
Proof.
  induction k as [|k IH]; intros w aspirants w' H; simpl in H.
  - injection H as <- _. constructor.
  - proceed H as a w1 Ha.
    proceed H as rest w2 Hr.
    injection H as <- _. constructor; [eapply choice_elem; exact Ha|].
    eapply IH. exact Hr.
Qed.

Lemma tournament_maximal (individuals : list Individual) (tournsize : nat)
    (w : World) c w' :
  Forall scored individuals ->
  tournament individuals tournsize w = (inr c, w') ->
  exists aspirants,
    selRandom individuals tournsize w = (inr aspirants, w')
    /\ Forall (fun a => a ∈ individuals) aspirants
    /\ c ∈ aspirants
    /\ forall x, x ∈ aspirants -> wvalue x <= wvalue c.
Proof.
  intros Hall H. unfold tournament in H.
  proceed H as aspirants w1 Hs.
  destruct aspirants as [|a rest]; [discriminate|].
  injection H as <- <-. exists (a :: rest).
  pose proof (selRandom_elems _ _ _ _ _ Hs) as Hin.
  split; [exact Hs|]. split; [exact Hin|].
  apply max_by_fitness_maximal.
  rewrite Forall_forall in Hall. apply Forall_forall. intros x Hx.
  apply Hall. rewrite Forall_forall in Hin. apply Hin. exact Hx.
Qed.

(** The hall of fame of capacity one. *)
Lemma hof_update_one_single (first h ind : Individual) :
  hof_update_one first {| maxsize := 1; items := [h] |} ind
  = {| maxsize := 1;
       items := [if fitness_gt (fitness ind) (fitness h) && negb (similar ind h)
                 then ind else h] |}.
Proof.
  unfold hof_update_one. simpl.
  destruct (fitness_gt (fitness ind) (fitness h)); simpl; [|reflexivity].
  destruct (similar ind h); reflexivity.
Qed.

Lemma hof_update_single (population : list Individual) : forall first h,
  Forall scored population -> scored h ->
  exists h',
    fold_left (hof_update_one first) population {| maxsize := 1; items := [h] |}
    = {| maxsize := 1; items := [h'] |}
    /\ scored h'
    /\ (h' = h \/ (h' ∈ population /\ wvalue h < wvalue h')).
Proof.
  induction population as [|ind pop IH]; intros first h Hall Hh.
  - exists h. simpl. auto.
  - apply Forall_cons in Hall as [Hi Hall]. simpl.
    rewrite hof_update_one_single.
    destruct (fitness_gt (fitness ind) (fitness h) && negb (similar ind h)) eqn:E.
    + apply andb_true_iff in E as [E _].
      apply fitness_gt_scored in E; [|exact Hi|exact Hh].
      destruct (IH first ind Hall Hi) as (h' & -> & Hs & Hcase).
      exists h'. split; [reflexivity|]. split; [exact Hs|]. right.
      destruct Hcase as [->|[Hin Hlt]].
      * split; [left|exact E].
      * split; [right; exact Hin|]. eapply Qlt_trans; eassumption.
    + destruct (IH first h Hall Hh) as (h' & -> & Hs & Hcase).
      exists h'. split; [reflexivity|]. split; [exact Hs|].
      destruct Hcase as [->|[Hin Hlt]]; [left; reflexivity|].
      right. split; [right; exact Hin|exact Hlt].
Qed.

Section Maximized.

Context {TE : TreeEngine} {FE : FittingEngine}.

(** C2. The fitness the evaluator returns is the score the engine gave to
    the fitted model, less a non-negative sparsity penalty (none outside mode
    ["n_zero_nodes"]): the score is not negated. The fitness weight is the
    positive [1.0], so the weighted value the comparisons use equals the
    fitness; a tournament keeps an aspirant of largest fitness, and the hall
    of fame of capacity one replaces its member only by a strictly fitter
    individual. *)
Theorem fitness_is_score_and_is_maximized :
  (forall individual ntrees max_depth toolbox x_train x_dot_train time_rec_obs
          sindy_kwargs score_metrics score_metrics_kwargs tr_te_ratio sparsity
          w v w',
      evalSymbReg individual ntrees max_depth toolbox x_train x_dot_train
                  time_rec_obs sindy_kwargs score_metrics score_metrics_kwargs
                  false tr_te_ratio sparsity w
      = (inr (FitnessList v), w') ->
      exists model score x t xd penalty,
        SINDy_score model x t xd (default r2_score score_metrics)
                    (default no_kwargs score_metrics_kwargs) = inr score
        /\ 0 <= penalty
        /\ (String.eqb sparsity "n_zero_nodes" = false -> penalty = 0)
        /\ exists f, v = [f] /\ f == score - penalty)
  /\ (weights FitnessMax = [1.0] /\ 0 < 1.0)
  /\ (forall ind f w,
        weights (fitness ind) = [1.0] ->
        exists ind',
          assign_fitness ind (FitnessList [f]) w = (inr ind', w)
          /\ trees ind' = trees ind /\ scored ind' /\ wvalue ind' == f)
  /\ (forall individuals w c w',
        Forall scored individuals ->
        tournament individuals 2 w = (inr c, w') ->
        exists aspirants,
          selRandom individuals 2 w = (inr aspirants, w')
          /\ Forall (fun a => a ∈ individuals) aspirants
          /\ c ∈ aspirants
          /\ forall x, x ∈ aspirants -> wvalue x <= wvalue c)
  /\ (forall population h,
        Forall scored population -> scored h ->
        exists h',
          hof_update {| maxsize := 1; items := [h] |} population
          = {| maxsize := 1; items := [h'] |}
          /\ (h' = h \/ (h' ∈ population /\ wvalue h < wvalue h'))).
Proof.
  split; [|split; [|split; [|split]]].
  - intros individual ntrees max_depth toolbox x_train x_dot_train time_rec_obs
           sindy_kwargs score_metrics score_metrics_kwargs tr_te_ratio sparsity
           w v w' H.
    apply evalSymbReg_run in H
      as [(_ & ? & _)|(_ & rc & cevs & _ & _ & Hrest)]; [discriminate|].
    destruct rc as [e|model0]; [destruct Hrest; discriminate|].
    destruct Hrest as (rf & w2 & Hf & Hrest).
    destruct rf as [e|[m s]]; [destruct Hrest; discriminate|].
    destruct Hrest as (rp & Hp & Hr).
    destruct rp as [e|f]; [discriminate|].
    simpl in Hr. injection Hr as ->.
    destruct (fit_and_score_scored _ _ _ _ _ _ _ _ _ _ _ Hf) as (x & t & xd & Hs & _).
    apply penalized_shape in Hp as [(Hmode & ->)|(Hmode & n & -> & Hne)].
    + exists m, s, x, t, xd, 0. split; [exact Hs|]. split; [apply Qle_refl|].
      split; [reflexivity|]. exists s. split; [reflexivity|]. ring.
    + exists m, s, x, t, xd,
             (inject_Z (Z.of_nat n) / (2 ^ (1 + max_depth) * inject_Z (Z.of_nat ntrees))).
      split; [exact Hs|]. split.
      * apply Qle_shift_div_l.
        -- destruct ntrees as [|k].
           ++ exfalso. apply Hne. simpl. ring.
           ++ apply max_nnodes_pos. lia.
        -- rewrite Qmult_0_l. unfold Qle. simpl. lia.
      * split; [congruence|]. eexists. split; [reflexivity|]. reflexivity.
  - split; reflexivity.
  - intros ind f w Hw. eexists. split; [reflexivity|].
    split; [reflexivity|]. unfold scored, wvalue. simpl. rewrite Hw. simpl.
    split; [reflexivity|]. ring.
  - intros individuals w c w' Hall H. eapply tournament_maximal; eassumption.
  - intros population h Hall Hh. unfold hof_update.
    destruct population as [|first rest].
    + exists h. split; [reflexivity|]. left. reflexivity.
    + destruct (hof_update_single (first :: rest) first h Hall Hh)
        as (h' & E & _ & Hcase).
      exists h'. split; [exact E|exact Hcase].
Qed.

End Maximized.

Section MaximizedRuns.

Import Toy.

(** A run of the evaluator: the fitness [2 - 2/16] is a score of the engine
    less a non-negative penalty. Of two aspirants with fitness 1 and 3 the
    tournament keeps the one with fitness 3. *)
Lemma fitness_is_score_and_is_maximized_witness :
  (exists w' model score x t xd penalty,
      evalSymbReg {| trees := [tree1; leaf]; fitness := FitnessMax |} 2 2
                  (_create_toolbox (library 0 1 false "generalized") 2 2)
                  x10 None None None None None false (Some 0.8) "n_zero_nodes"
                  (world 0) = (inr (FitnessList [2 - 2 / (2 ^ 3 * 2)]), w')
      /\ SINDy_score model x t xd r2_score no_kwargs = inr score
      /\ 0 <= penalty
      /\ 2 - 2 / (2 ^ 3 * 2) == score - penalty)
  /\ exists w' aspirants,
       tournament
         [ {| trees := [leaf]; fitness := {| weights := [1.0]; wvalues := [1] |} |};
           {| trees := [tree1]; fitness := {| weights := [1.0]; wvalues := [3] |} |} ]
         2 {| rng := {| outputs := N.of_nat; cursor := 0 |}; trace := [] |}
       = (inr {| trees := [tree1];
                 fitness := {| weights := [1.0]; wvalues := [3] |} |}, w')
       /\ length aspirants = 2%nat
       /\ forall x, x ∈ aspirants -> wvalue x <= 3.
Proof.
  destruct fitness_is_score_and_is_maximized as (Heval & _ & _ & Htour & _).
  split.
  - destruct (evalSymbReg {| trees := [tree1; leaf]; fitness := FitnessMax |} 2 2
                (_create_toolbox (library 0 1 false "generalized") 2 2)
                x10 None None None None None false (Some 0.8) "n_zero_nodes"
                (world 0)) as [r w'] eqn:E.
    assert (Er : r = inr (FitnessList [2 - 2 / (2 ^ 3 * 2)])).
    { vm_compute in E. injection E as <- _. reflexivity. }
    subst r.
    destruct (Heval _ _ _ _ _ _ _ _ _ _ _ _ _ _ _ E)
      as (model & score & x & t & xd & penalty & Hs & Hp & _ & f & Hf & Hfs).
    injection Hf as <-.
    exists w', model, score, x, t, xd, penalty. auto.
  - destruct (tournament
         [ {| trees := [leaf]; fitness := {| weights := [1.0]; wvalues := [1] |} |};
           {| trees := [tree1]; fitness := {| weights := [1.0]; wvalues := [3] |} |} ]
         2 {| rng := {| outputs := N.of_nat; cursor := 0 |}; trace := [] |})
      as [r w'] eqn:E.
    assert (Er : r = inr {| trees := [tree1];
                            fitness := {| weights := [1.0]; wvalues := [3] |} |}).
    { vm_compute in E. injection E as <- _. reflexivity. }
    subst r.
    destruct (fun Hscored => Htour _ _ _ _ Hscored E)
      as (aspirants & Hsel & _ & _ & Hmax); [repeat constructor|].
    exists w', aspirants. split; [reflexivity|]. split; [|exact Hmax].
    vm_compute in Hsel. injection Hsel as <- _. reflexivity.
Defined.

End MaximizedRuns.

(** ** The height limit *)

Lemma for_fold_invariant {S A B} (f : B -> A -> Eff S B) (P : B -> Prop) (l : list A) :
  (forall acc a s acc' s', a ∈ l -> f acc a s = (inr acc', s') -> P acc -> P acc') ->
  forall acc s res s',
    for_fold f l acc s = (inr res, s') -> P acc -> P res.
Proof.
  induction l as [|a l IH]; intros Hstep acc s res s' H Hacc; simpl in H.
  - injection H as <- _. exact Hacc.
  - proceed H as acc1 s1 H1.
    eapply IH; [|exact H|].
    + intros. eapply Hstep; [right| |]; eassumption.
    + eapply Hstep; [left| |]; eassumption.
Qed.











Section HeightLimit.

Context {TE : TreeEngine} {FE : FittingEngine}.










End HeightLimit.

Section HeightLimitRuns.

Import Toy.


End HeightLimitRuns.

(** ** Variation invalidates, evaluation revalidates *)

Lemma silent_ret {A} (a : A) : silent (ret a).
Proof. intros w r w' H. injection H as _ <-. reflexivity. Qed.

Lemma silent_raise {A} (e : exn) : silent (@raise World A e).
Proof. intros w r w' H. injection H as _ <-. reflexivity. Qed.

Lemma silent_bind {A B} (c : M A) (k : A -> M B) :
  silent c -> (forall a, silent (k a)) -> silent (bind c k).
Proof.
  intros Hc Hk w r w' H.
  apply bind_inv in H as [(e & H & _)|(a & w1 & H & H')].
  - eapply Hc. exact H.
  - apply Hc in H. apply Hk in H'. congruence.
Qed.

Lemma silent_genrand : silent random.genrand.
Proof. intros w r w' H. injection H as _ <-. reflexivity. Qed.

Lemma silent_random : silent random.random.
Proof.
  apply silent_bind; [exact silent_genrand|]. intros k. apply silent_ret.
Qed.

Lemma silent_randint (a b : Z) : silent (random.randint a b).
Proof.
  unfold random.randint. destruct (b <? a)%Z; [apply silent_raise|].
  apply silent_bind; [exact silent_genrand|]. intros k. apply silent_ret.
Qed.

Lemma silent_choice {A} (seq : list A) : silent (random.choice seq).
Proof.
  unfold random.choice. destruct seq as [|x l]; [apply silent_raise|].
  apply silent_bind; [exact silent_genrand|]. intros k.
  destruct (_ !! _); [apply silent_ret|apply silent_raise].
Qed.

Lemma silent_with_rng {A} (c : Eff Rng A) : silent (with_rng c).
Proof. intros w r w' H. eapply with_rng_trace. exact H. Qed.

Lemma silent_for_each {A B} (f : A -> M B) (l : list A) :
  (forall a, silent (f a)) -> silent (for_each f l).
Proof.
  intros Hf. induction l as [|a l IH]; simpl; [apply silent_ret|].
  apply silent_bind; [apply Hf|]. intros b.
  apply silent_bind; [exact IH|]. intros bs. apply silent_ret.
Qed.

Lemma silent_staticLimit (func : list Tree -> M (list Tree)) (args : list Tree) :
  silent (func args) -> silent (staticLimit height 2 func args).
Proof.
  intros Hf. unfold staticLimit. apply silent_bind; [exact Hf|]. intros new_inds.
  apply silent_for_each. intros ind.
  destruct (2 <? height ind)%nat; [apply silent_choice|apply silent_ret].
Qed.

Lemma silent_history_decorator (func : list Tree -> M (option (list Tree)))
    (args : list Tree) :
  silent (func args) -> silent (history_decorator func args).
Proof.
  intros Hf. unfold history_decorator. apply silent_bind; [exact Hf|].
  intros [inds|]; [apply silent_ret|apply silent_raise].
Qed.

Lemma touched_app (evs1 evs2 : list Event) (k : nat) :
  touched (evs1 ++ evs2) k <-> touched evs1 k \/ touched evs2 k.
Proof.
  unfold touched. split.
  - intros (j & h & H). rewrite !elem_of_app in H.
    destruct H as [[H|H]|[[H|H]|[H|H]]]; [left|right|left|right|left|right];
      exists j, h; auto.
  - intros [(j & h & H)|(j & h & H)]; exists j, h; rewrite !elem_of_app; tauto.
Qed.

Lemma touched_nil (k : nat) : ~ touched [] k.
Proof.
  intros (j & h & [H|[H|H]]); inversion H.
Qed.

Lemma varies_refl (off : list Individual) (w : World) : varies (off, w) (off, w).
Proof.
  exists []. simpl. rewrite app_nil_r. split; [reflexivity|].
  split; [constructor|]. split; [intros k Hk; destruct (touched_nil k Hk)|].
  split; auto.
Qed.

Lemma varies_trans (a b c : list Individual * World) :
  varies a b -> varies b c -> varies a c.
Proof.
  intros (evs1 & Ht1 & Hv1 & Hi1 & Hp1 & Hu1) (evs2 & Ht2 & Hv2 & Hi2 & Hp2 & Hu2).
  exists (evs1 ++ evs2). split; [rewrite Ht2, Ht1, app_assoc; reflexivity|].
  split; [apply Forall_app; split; assumption|].
  split; [|split].
  - intros k Hk. apply touched_app in Hk as [Hk|Hk]; [apply Hp2, Hi1, Hk|apply Hi2, Hk].
  - intros k Hk. apply Hp2, Hp1, Hk.
  - intros k Hk. rewrite Hu2, Hu1; [reflexivity| |];
      intros H; apply Hk; apply touched_app; auto.
Qed.

Lemma for_fold_varies {A} (f : list Individual -> A -> M (list Individual))
    (l : list A) :
  (forall acc a w acc' w', a ∈ l -> f acc a w = (inr acc', w') ->
                           varies (acc, w) (acc', w')) ->
  forall acc w res w',
    for_fold f l acc w = (inr res, w') -> varies (acc, w) (res, w').
Proof.
  induction l as [|a l IH]; intros Hstep acc w res w' H; simpl in H.
  - injection H as <- <-. apply varies_refl.
  - proceed H as acc1 w1 H1.
    eapply varies_trans.
    + eapply Hstep; [left|exact H1].
    + eapply IH; [|exact H]. intros. eapply Hstep; [right|]; eassumption.
Qed.

(** Assignments into the offspring. *)
Lemma lookup_set_subtree_ne (off : list Individual) (i h k : nat) (t : Tree) :
  k <> i -> set_subtree off i h t !! k = off !! k.
Proof.
  intros Hne. unfold set_subtree. destruct (off !! i); [|reflexivity].
  apply list_lookup_insert_ne. congruence.
Qed.

Lemma lookup_del_fitness_ne (off : list Individual) (i k : nat) :
  k <> i -> del_fitness off i !! k = off !! k.
Proof.
  intros Hne. unfold del_fitness. destruct (off !! i); [|reflexivity].
  apply list_lookup_insert_ne. congruence.
Qed.

Lemma lookup_set_subtree_eq (off : list Individual) (i h : nat) (t : Tree) ind :
  off !! i = Some ind ->
  set_subtree off i h t !! i
  = Some {| trees := <[h := t]> (trees ind); fitness := fitness ind |}.
Proof.
  intros E. unfold set_subtree. rewrite E.
  apply list_lookup_insert_eq. eapply lookup_lt_Some. exact E.
Qed.

Lemma lookup_del_fitness_eq (off : list Individual) (i : nat) ind :
  off !! i = Some ind ->
  del_fitness off i !! i
  = Some {| trees := trees ind; fitness := del_values (fitness ind) |}.
Proof.
  intros E. unfold del_fitness. rewrite E.
  apply list_lookup_insert_eq. eapply lookup_lt_Some. exact E.
Qed.

Lemma invalid_at_set_subtree (off : list Individual) (i h k : nat) (t : Tree) :
  invalid_at off k -> invalid_at (set_subtree off i h t) k.
Proof.
  intros (ind & E & Hv). destruct (decide (k = i)) as [->|Hne].
  - eexists. split; [apply lookup_set_subtree_eq; exact E|exact Hv].
  - exists ind. rewrite lookup_set_subtree_ne by exact Hne. auto.
Qed.

Lemma invalid_at_del_fitness (off : list Individual) (i k : nat) :
  invalid_at off k -> invalid_at (del_fitness off i) k.
Proof.
  intros (ind & E & Hv). destruct (decide (k = i)) as [->|Hne].
  - eexists. split; [apply lookup_del_fitness_eq; exact E|reflexivity].
  - exists ind. rewrite lookup_del_fitness_ne by exact Hne. auto.
Qed.

Lemma del_fitness_invalidates (off : list Individual) (i : nat) :
  is_Some (off !! i) -> invalid_at (del_fitness off i) i.
Proof.
  intros [ind E]. eexists. split; [apply lookup_del_fitness_eq; exact E|reflexivity].
Qed.

Lemma is_Some_set_subtree (off : list Individual) (i h k : nat) (t : Tree) :
  is_Some (off !! k) -> is_Some (set_subtree off i h t !! k).
Proof.
  intros [ind E]. destruct (decide (k = i)) as [->|Hne].
  - erewrite lookup_set_subtree_eq by exact E. eauto.
  - rewrite lookup_set_subtree_ne by exact Hne. eauto.
Qed.

Lemma is_Some_del_fitness (off : list Individual) (i k : nat) :
  is_Some (off !! k) -> is_Some (del_fitness off i !! k).
Proof.
  intros [ind E]. destruct (decide (k = i)) as [->|Hne].
  - erewrite lookup_del_fitness_eq by exact E. eauto.
  - rewrite lookup_del_fitness_ne by exact Hne. eauto.
Qed.

Section Variation.

Context {TE : TreeEngine} {FE : FittingEngine}.

Lemma get_subtree_run (off : list Individual) (i h : nat) (w : World) t w' :
  get_subtree off i h w = (inr t, w') -> w' = w /\ is_Some (off !! i).
Proof.
  unfold get_subtree, subtree. destruct (off !! i) as [ind|]; [|discriminate].
  destruct (trees ind !! h); [|discriminate].
  intros H. injection H as _ <-. eauto.
Qed.

Lemma silent_mate_args (args : list Tree) : silent (mate_args args).
Proof.
  unfold mate_args. destruct args as [|a [|b [|? ?]]]; try apply silent_raise.
  apply silent_bind; [|intros r; apply silent_ret].
  unfold _random_mating_operator. apply silent_bind; [exact silent_random|].
  intros roll. destruct (Qltb roll 0.5); [|destruct (Qltb roll 1.5)].
  - apply silent_bind; [apply silent_with_rng|intros r; apply silent_ret].
  - apply silent_bind; [apply silent_with_rng|intros r; apply silent_ret].
  - apply silent_ret.
Qed.

Lemma silent_mutate_args (pset : PrimitiveSet) (args : list Tree) :
  silent (mutate_args pset args).
Proof.
  unfold mutate_args. destruct args as [|a [|? ?]]; try apply silent_raise.
  apply silent_bind; [|intros r; apply silent_ret].
  unfold _random_mutation_operator. apply silent_bind; [exact silent_random|].
  intros roll.
  destruct (Qltb roll 0.5); [|destruct (Qltb roll 0.66); [|destruct (Qltb roll 2.66)]].
  - apply silent_bind; [apply silent_with_rng|intros r; apply silent_ret].
  - apply silent_bind; [apply silent_with_rng|intros r; apply silent_ret].
  - apply silent_bind; [apply silent_with_rng|intros r; apply silent_ret].
  - apply silent_ret.
Qed.

Lemma varAnd_mate_varies (toolbox : Toolbox) (cxpb : Q) (ntrees : nat)
    (off : list Individual) (i : nat) (w : World) off' w' :
  (forall args, silent (tb_mate toolbox args)) ->
  (1 <= i)%nat ->
  varAnd_mate toolbox cxpb ntrees off i w = (inr off', w') ->
  varies (off, w) (off', w').
Proof.
  intros Hsilent Hi H. unfold varAnd_mate in H.
  proceed H as roll w1 Hr.
  apply silent_random in Hr.
  destruct (Qltb roll cxpb).
  2:{ injection H as <- <-. exists []. simpl. rewrite app_nil_r.
      split; [congruence|]. split; [constructor|].
      split; [intros k Hk; destruct (touched_nil k Hk)|]. split; auto. }
  proceed H as h w2 Hh.
  apply silent_randint in Hh.
  proceed H as ind1 w3 H1.
  apply get_subtree_run in H1 as [-> Hs1].
  proceed H as ind2 w4 H2.
  apply get_subtree_run in H2 as [-> Hs2].
  rewrite (bind_inr _ _ _ _ _ (emit_run _ _)) in H.
  proceed H as children w6 Hm.
  apply Hsilent in Hm. simpl in Hm.
  destruct children as [|c1 [|c2 [|? ?]]]; try discriminate.
  injection H as <- <-.
  exists [EvMate (i - 1) i (Z.to_nat h)]. simpl.
  split; [congruence|]. split; [repeat constructor|].
  assert (Htouched : forall k, touched [EvMate (i - 1) i (Z.to_nat h)] k
                               <-> k = (i - 1)%nat \/ k = i).
  { intros k. split.
    - intros (j & hh & [Hk|[Hk|Hk]]); apply list_elem_of_singleton in Hk;
        try discriminate; injection Hk; intros; subst; auto.
    - intros [->| ->]; [exists i|exists (i - 1)%nat]; exists (Z.to_nat h).
      + left. left.
      + right. left. left. }
  split; [|split].
  - intros k Hk. apply Htouched in Hk as [->| ->].
    + apply invalid_at_del_fitness. apply del_fitness_invalidates.
      do 2 apply is_Some_set_subtree. exact Hs1.
    + apply del_fitness_invalidates.
      apply is_Some_del_fitness. do 2 apply is_Some_set_subtree. exact Hs2.
  - intros k Hk. do 2 apply invalid_at_del_fitness.
    do 2 apply invalid_at_set_subtree. exact Hk.
  - intros k Hk.
    assert (k <> (i - 1)%nat /\ k <> i) as [Hk1 Hk2].
    { split; intros ->; apply Hk, Htouched; auto. }
    rewrite !lookup_del_fitness_ne, !lookup_set_subtree_ne by assumption.
    reflexivity.
Qed.

Lemma varAnd_mutate_varies (toolbox : Toolbox) (mutpb : Q)
    (off : list Individual) (ih : nat * nat) (w : World) off' w' :
  (forall args, silent (tb_mutate toolbox args)) ->
  varAnd_mutate toolbox mutpb off ih w = (inr off', w') ->
  varies (off, w) (off', w').
Proof.
  intros Hsilent H. unfold varAnd_mutate in H. destruct ih as [i h]. simpl in H.
  proceed H as roll w1 Hr.
  apply silent_random in Hr.
  destruct (Qltb roll mutpb).
  2:{ injection H as <- <-. exists []. simpl. rewrite app_nil_r.
      split; [congruence|]. split; [constructor|].
      split; [intros k Hk; destruct (touched_nil k Hk)|]. split; auto. }
  proceed H as ind w3 H1.
  apply get_subtree_run in H1 as [-> Hs1].
  rewrite (bind_inr _ _ _ _ _ (emit_run _ _)) in H.
  proceed H as children w6 Hm.
  apply Hsilent in Hm. simpl in Hm.
  destruct children as [|c1 [|? ?]]; try discriminate.
  injection H as <- <-.
  exists [EvMutate i h]. simpl.
  split; [congruence|]. split; [repeat constructor|].
  assert (Htouched : forall k, touched [EvMutate i h] k <-> k = i).
  { intros k. split.
    - intros (j & hh & [Hk|[Hk|Hk]]); apply list_elem_of_singleton in Hk;
        try discriminate. injection Hk; intros; subst; auto.
    - intros ->. exists 0%nat, h. right. right. left. }
  split; [|split].
  - intros k Hk. apply Htouched in Hk as ->.
    apply del_fitness_invalidates. apply is_Some_set_subtree. exact Hs1.
  - intros k Hk. apply invalid_at_del_fitness, invalid_at_set_subtree. exact Hk.
  - intros k Hk.
    assert (k <> i) as Hk1 by (intros ->; apply Hk, Htouched; reflexivity).
    rewrite lookup_del_fitness_ne, lookup_set_subtree_ne by assumption.
    reflexivity.
Qed.

Lemma my_varAnd_varies (toolbox : Toolbox) (population : list Individual)
    (cxpb mutpb : Q) (ntrees : nat) (w : World) offspring w' :
  (forall args, silent (tb_mate toolbox args)) ->
  (forall args, silent (tb_mutate toolbox args)) ->
  _my_varAnd population toolbox cxpb mutpb ntrees w = (inr offspring, w') ->
  varies (population, w) (offspring, w').
Proof.
  intros Hmate Hmut H. unfold _my_varAnd in H.
  proceed H as off1 w1 H1.
  eapply varies_trans.
  - eapply for_fold_varies; [|exact H1].
    intros acc i w0 acc' w0' Hi Hs. eapply varAnd_mate_varies; [exact Hmate| |exact Hs].
    unfold odd_range in Hi. apply list_elem_of_fmap in Hi as (k & -> & _). lia.
  - eapply for_fold_varies; [|exact H].
    intros acc ih w0 acc' w0' _ Hs. eapply varAnd_mutate_varies; [exact Hmut|exact Hs].
Qed.

Lemma fit_toolbox_silent (self : Config) (x_train : Array2)
    (x_dot_train : option Array2) (time_rec_obs : option TimeSpec) :
  (forall args, silent (tb_mate (fit_toolbox self x_train x_dot_train time_rec_obs) args))
  /\ (forall args,
        silent (tb_mutate (fit_toolbox self x_train x_dot_train time_rec_obs) args)).
Proof.
  split; intros args; cbn.
  - apply silent_staticLimit, silent_history_decorator, silent_mate_args.
  - apply silent_staticLimit, silent_history_decorator, silent_mutate_args.
Qed.

End Variation.

Lemma invalid_ind_gen (population : list Individual) : forall f : nat -> nat,
  (List.filter (fun p : nat * Individual => negb (valid (fitness p.2)))
               (imap (fun i x => (f i, x)) population)).*2
  = invalid_individuals population.
Proof.
  induction population as [|x l IH]; intros f; [reflexivity|].
  simpl. destruct (negb (valid (fitness x))); simpl; [f_equal|]; apply (IH (f ∘ S)).
Qed.

Lemma invalid_ind_individuals (population : list Individual) :
  (invalid_ind population).*2 = invalid_individuals population.
Proof. apply (invalid_ind_gen population id). Qed.

Lemma invalid_ind_complete (population : list Individual) (i : nat) ind :
  population !! i = Some ind ->
  valid (fitness ind) = true \/ i ∈ (invalid_ind population).*1.
Proof.
  intros E. destruct (valid (fitness ind)) eqn:Hv; [left; reflexivity|right].
  apply list_elem_of_fmap. exists (i, ind). split; [reflexivity|].
  unfold invalid_ind. apply list_elem_of_In, filter_In. split.
  - apply list_elem_of_In, elem_of_lookup_imap. eauto.
  - simpl. rewrite Hv. reflexivity.
Qed.

Lemma invalid_ind_weights (population : list Individual) (ws : list Q) :
  Forall (fun ind => weights (fitness ind) = ws) population ->
  Forall (fun p : nat * Individual => weights (fitness p.2) = ws) (invalid_ind population).
Proof.
  intros Hall. apply Forall_forall. intros [i ind] Hin.
  unfold invalid_ind in Hin. apply list_elem_of_In, filter_In in Hin as [Hin _].
  apply list_elem_of_In, elem_of_lookup_imap in Hin as (j & y & E & Hy).
  injection E as -> ->. rewrite Forall_forall in Hall. apply Hall.
  eapply list_elem_of_lookup_2. exact Hy.
Qed.

Section Evaluation.

Context {TE : TreeEngine} {FE : FittingEngine}.

Lemma fit_and_score_evaluations (model : Model) (x_train : Array2)
    (x_dot_train : option Array2) (time_rec_obs : option TimeSpec)
    (score_metrics : Metric) (score_metrics_kwargs : Kwargs)
    (tr_te_ratio : option Q) (w : World) r w' :
  fit_and_score model x_train x_dot_train time_rec_obs score_metrics
                score_metrics_kwargs tr_te_ratio w = (r, w') ->
  exists evs, w' = after_events w evs /\ evaluations_of evs = [].
Proof.
  assert (Hgen : forall x_tr xd_tr t_tr x_te xd_te t_te w,
    (model <- fit_sindy_model model x_tr xd_tr t_tr ;;
     score_sindy_model model x_te t_te xd_te score_metrics score_metrics_kwargs) w
    = (r, w') ->
    exists evs, w' = after_events w evs /\ evaluations_of evs = []).
  { intros x_tr xd_tr t_tr x_te xd_te t_te w0 H. rewrite fit_then_score_run in H.
    destruct (SINDy_fit model x_tr t_tr xd_tr) as [e|m'].
    - injection H as _ <-. eexists. split; reflexivity.
    - injection H as _ <-. eexists. split; reflexivity. }
  assert (Hnil : forall w0 : World, exists evs,
                   w0 = after_events w0 evs /\ evaluations_of evs = []).
  { intros w0. exists []. rewrite after_events_nil. split; reflexivity. }
  unfold fit_and_score. destruct tr_te_ratio as [ratio|]; [|apply Hgen].
  assert (Hlift : forall {A} (c : exn + A) (w0 : World) r0 w1,
                    lift c w0 = (r0, w1) -> w1 = w0).
  { intros A c w0 r0 w1 E. rewrite lift_run in E. congruence. }
  intros H.
  apply bind_inv in H as [(e & H & _)|([a b] & w1 & H1 & H)];
    [apply Hlift in H as ->; apply Hnil|].
  apply Hlift in H1 as ->.
  apply bind_inv in H as [(e & H & _)|([c d] & w2 & H2 & H)];
    [apply Hlift in H as ->; apply Hnil|].
  apply Hlift in H2 as ->.
  apply bind_inv in H as [(e & H & _)|([f g] & w3 & H3 & H)];
    [apply Hlift in H as ->; apply Hnil|].
  apply Hlift in H3 as ->.
  destruct a as [a|]; [|injection H as _ <-; apply Hnil].
  destruct b as [b|]; [|injection H as _ <-; apply Hnil].
  eapply Hgen. exact H.
Qed.

(** A call of the evaluator is recorded once, and the fitness it returns
    under [flag_solution=False] is a one-element list. *)
Lemma evalSymbReg_evaluations
    (individual : Individual) (ntrees : nat) (max_depth : Z) (toolbox : Toolbox)
    (x_train : Array2) (x_dot_train : option Array2) (time_rec_obs : option TimeSpec)
    (sindy_kwargs : option Kwargs) (score_metrics : option Metric)
    (score_metrics_kwargs : option Kwargs) (flag_solution : bool)
    (tr_te_ratio : option Q) (sparsity : string) (w : World) r w' :
  evalSymbReg individual ntrees max_depth toolbox x_train x_dot_train time_rec_obs
              sindy_kwargs score_metrics score_metrics_kwargs flag_solution
              tr_te_ratio sparsity w = (r, w') ->
  (exists evs,
      w' = after_events w evs
      /\ evaluations_of evs = [(trees individual, flag_solution, tr_te_ratio)])
  /\ (forall v, r = inr v ->
        if flag_solution then exists m, v = FittedModel m
        else exists f, v = FitnessList [f]).
Proof.
  intros H.
  apply evalSymbReg_run in H
    as [(_ & -> & ->)|(_ & rc & cevs & _ & Hall & Hrest)].
  { split; [eexists; split; reflexivity|discriminate]. }
  destruct (build_events_silent cevs Hall) as (_ & _ & Hce).
  destruct rc as [e|model].
  { destruct Hrest as [-> ->]. split; [|discriminate].
    rewrite after_events_app. eexists. split; [reflexivity|].
    simpl. rewrite Hce. reflexivity. }
  destruct Hrest as (rf & w2 & Hf & Hrest).
  apply fit_and_score_evaluations in Hf as (fevs & -> & Hfe).
  destruct rf as [e|[m s]].
  { destruct Hrest as [-> ->]. split; [|discriminate].
    rewrite !after_events_app. eexists. split; [reflexivity|].
    simpl. rewrite evaluations_of_app, Hce, Hfe. reflexivity. }
  destruct Hrest as (rp & Hp & ->).
  pose proof (penalized_run _ _ _ _ _ _ _ _ _ Hp) as ->.
  destruct (penalty_events_silent sparsity) as (_ & _ & Hpe).
  split.
  - rewrite !after_events_app. eexists. split; [reflexivity|].
    simpl. rewrite !evaluations_of_app, Hce, Hfe, Hpe. reflexivity.
  - intros v Hv. destruct rp as [e|f]; [discriminate|]. injection Hv as <-.
    destruct flag_solution; simpl; eauto.
Qed.

Lemma evaluate_loop (self : Config) (max_depth : Z) (toolbox : Toolbox)
    (x_train : Array2) (x_dot_train : option Array2) (time_rec_obs : option TimeSpec)
    (l : list (nat * Individual)) : forall (acc : list Individual) (w : World) acc' w',
  for_fold (fun (pop : list Individual) (p : nat * Individual) =>
              fit <- call_registered "evaluate"
                       (Some (evaluate_of self max_depth toolbox x_train x_dot_train
                                          time_rec_obs)) p.2 ;;
              ind <- assign_fitness p.2 fit ;;
              ret (<[p.1 := ind]> pop)) l acc w = (inr acc', w') ->
  exists evs,
    w' = after_events w evs
    /\ evaluations_of evs
       = (fun p : nat * Individual => (trees p.2, false, Some 0.8)) <$> l
    /\ length acc' = length acc
    /\ (Forall (fun p : nat * Individual => weights (fitness p.2) = [1.0]) l ->
        (forall i ind, acc !! i = Some ind ->
                       valid (fitness ind) = true \/ i ∈ l.*1) ->
        Forall (fun ind => valid (fitness ind) = true) acc').
Proof.
  induction l as [|[i0 ind0] l IH]; intros acc w acc' w' H; simpl in H.
  - injection H as <- <-. exists []. rewrite after_events_nil.
    repeat split. intros _ Hacc. apply Forall_forall. intros ind Hin.
    apply list_elem_of_lookup_1 in Hin as [i Hi].
    destruct (Hacc i ind Hi) as [Hv|Hi0]; [exact Hv|inversion Hi0].
  - proceed H as acc1 w1 H1.
    proceed H1 as fit w2 Hev.
    cbn [call_registered snd] in Hev. unfold evaluate_of in Hev.
    apply evalSymbReg_evaluations in Hev as [(evs1 & -> & He1) Hval].
    destruct (Hval fit eq_refl) as [f ->].
    cbn [assign_fitness] in H1.
    rewrite (bind_inr _ _ _ _ _ (eq_refl : ret _ _ = (inr _, _))) in H1.
    injection H1 as <- <-.
    apply IH in H as (evs2 & -> & He2 & Hlen & Hvalid).
    exists (evs1 ++ evs2). rewrite after_events_app. split; [reflexivity|].
    split; [rewrite evaluations_of_app, He1, He2; reflexivity|].
    split; [rewrite Hlen; apply length_insert|].
    intros Hw Hacc. apply Forall_cons in Hw as [Hw0 Hw]. apply Hvalid; [exact Hw|].
    intros i ind Hi. destruct (decide (i = i0)) as [->|Hne].
    + left. pose proof (lookup_lt_Some _ _ _ Hi) as Hlt.
      rewrite length_insert in Hlt.
      rewrite list_lookup_insert_eq in Hi by exact Hlt.
      injection Hi as <-. cbn [snd] in Hw0.
      unfold valid, set_values. cbn [fitness wvalues weights]. rewrite Hw0. reflexivity.
    + rewrite list_lookup_insert_ne in Hi by congruence.
      destruct (Hacc i ind Hi) as [Hv|Hin]; [left; exact Hv|right].
      simpl in Hin. apply elem_of_cons in Hin as [?|Hin]; [congruence|exact Hin].
Qed.

End Evaluation.

Section VariationClaim.

Context {TE : TreeEngine} {FE : FittingEngine}.

(** C6. In the variation step of a generation, every position of the
    offspring that was handed to the mating or to the mutation operator has
    its fitness deleted when the step ends, and a position that was not
    keeps its individual, fitness included. The evaluation that follows
    calls the evaluator on exactly the individuals whose fitness is invalid,
    once each and in order, counts them as [nevals], and leaves every
    individual with a valid fitness; a generation selects, varies and
    evaluates in this order. *)
Theorem variation_invalidates_evaluation_revalidates
    (self : Config) (x_train : Array2) (x_dot_train : option Array2)
    (time_rec_obs : option TimeSpec) :
  let toolbox := fit_toolbox self x_train x_dot_train time_rec_obs in
  (forall pool cxpb mutpb ntrees w offspring w',
      _my_varAnd pool toolbox cxpb mutpb ntrees w = (inr offspring, w') ->
      exists evs,
        trace w' = trace w ++ evs
        /\ Forall is_variation_event evs
        /\ (forall i, touched evs i -> invalid_at offspring i)
        /\ (forall i, ~ touched evs i -> offspring !! i = pool !! i))
  /\ (forall offspring w offspring' nevals w',
        evaluate_invalid toolbox offspring w = (inr (offspring', nevals), w') ->
        exists evs,
          w' = after_events w evs
          /\ evaluations_of evs
             = (fun ind => (trees ind, false, Some 0.8)) <$> invalid_individuals offspring
          /\ nevals = length (invalid_individuals offspring)
          /\ length offspring' = length offspring
          /\ (Forall (fun ind => weights (fitness ind) = [1.0]) offspring ->
              Forall (fun ind => valid (fitness ind) = true) offspring'))
  /\ (forall cxpb mutpb ntrees population logbook halloffame gen,
        generation toolbox cxpb mutpb ntrees (population, logbook, halloffame) gen
        = (pool <- tb_select toolbox population (length population) ;;
           offspring <- _my_varAnd pool toolbox cxpb mutpb ntrees ;;
           let* (offspring, nevals) := evaluate_invalid toolbox offspring in
           ret (offspring, logbook ++ [{| gen := gen; nevals := nevals |}],
                (fun hof => hof_update hof offspring) <$> halloffame))).
Proof.
  intros toolbox. split; [|split].
  - intros pool cxpb mutpb ntrees w offspring w' H.
    destruct (fit_toolbox_silent self x_train x_dot_train time_rec_obs) as [Hm Hu].
    apply my_varAnd_varies in H as (evs & Ht & Hv & Hi & _ & Hun);
      [|exact Hm|exact Hu].
    exists evs. simpl in *. auto.
  - intros offspring w offspring' nevals w' H. unfold evaluate_invalid in H.
    proceed H as pop1 w1 H1.
    injection H as <- <- <-.
    apply evaluate_loop in H1 as (evs & -> & He & Hlen & Hvalid).
    exists evs. split; [reflexivity|]. split; [|split; [|split]].
    + rewrite He, <- invalid_ind_individuals, <- list_fmap_compose. reflexivity.
    + rewrite <- invalid_ind_individuals, length_fmap. reflexivity.
    + exact Hlen.
    + intros Hw. apply Hvalid.
      * apply invalid_ind_weights. exact Hw.
      * intros i ind. apply invalid_ind_complete.
  - reflexivity.
Qed.

End VariationClaim.

Section VariationRuns.

Import Toy.

(** Two individuals with a valid fitness: mating touches both, so both end
    invalid; the evaluation then calls the evaluator twice. *)
Lemma variation_invalidates_evaluation_revalidates_witness :
  let scored_ind := {| trees := [leaf; leaf];
                       fitness := {| weights := [1.0]; wvalues := [1] |} |} in
  exists offspring w',
    _my_varAnd [scored_ind; scored_ind] (fit_toolbox config x10 None None)
               0.7 0.8 2 (world 0) = (inr offspring, w')
    /\ invalid_at offspring 0 /\ invalid_at offspring 1
    /\ exists offspring' w'',
         evaluate_invalid (fit_toolbox config x10 None None) offspring w'
         = (inr (offspring', 2%nat), w'')
         /\ Forall (fun ind => valid (fitness ind) = true) offspring'.
Proof.
  intros scored_ind.
  destruct (variation_invalidates_evaluation_revalidates config x10 None None)
    as (Hvar & Heval & _).
  destruct (_my_varAnd [scored_ind; scored_ind] (fit_toolbox config x10 None None)
              0.7 0.8 2 (world 0)) as [r w'] eqn:E.
  assert (Er : exists offspring, r = inr offspring
                 /\ Forall (fun ind => weights (fitness ind) = [1.0]) offspring
                 /\ trace w' = [EvMate 0 1 0; EvMutate 0 0; EvMutate 0 1;
                                EvMutate 1 0; EvMutate 1 1]).
  { vm_compute in E. injection E as <- <-. eexists. split; [reflexivity|].
    split; [repeat constructor|reflexivity]. }
  destruct Er as (offspring & -> & Hw & Htr).
  destruct (Hvar _ _ _ _ _ _ _ E) as (evs & Hevs & _ & Hinv & _).
  simpl in Hevs. rewrite Htr in Hevs. subst evs.
  exists offspring, w'. split; [reflexivity|].
  split; [apply Hinv; exists 1%nat, 0%nat; left; left|].
  split; [apply Hinv; exists 0%nat, 0%nat; right; left; left|].
  destruct (evaluate_invalid (fit_toolbox config x10 None None) offspring w')
    as [r2 w''] eqn:E2.
  assert (Er2 : exists offspring', r2 = inr (offspring', 2%nat)).
  { vm_compute in E. injection E as <- <-.
    vm_compute in E2. injection E2 as <- _. eexists. reflexivity. }
  destruct Er2 as (offspring' & ->).
  exists offspring', w''. split; [reflexivity|].
  destruct (Heval _ _ _ _ _ E2) as (evs2 & _ & _ & _ & _ & Hvalid).
  apply Hvalid. exact Hw.
Defined.

End VariationRuns.

(** ** The trained model *)

Section TrainedModel.

Context {TE : TreeEngine} {FE : FittingEngine}.

(** A call of the evaluator with a split ratio that returns. *)
Lemma evalSymbReg_split_success
    (individual : Individual) (ntrees : nat) (max_depth : Z) (toolbox : Toolbox)
    (x_train : Array2) (x_dot_train : option Array2) (t : option (list Q))
    (sindy_kwargs : option Kwargs) (score_metrics : option Metric)
    (score_metrics_kwargs : option Kwargs) (flag_solution : bool)
    (ratio : Q) (sparsity : string) (w : World) v w' :
  0 <= ratio ->
  evalSymbReg individual ntrees max_depth toolbox x_train x_dot_train
              (TimeArray <$> t) sindy_kwargs score_metrics score_metrics_kwargs
              flag_solution (Some ratio) sparsity w = (inr v, w') ->
  exists evs model m,
    w' = after_events w evs
    /\ evaluations_of evs = [(trees individual, flag_solution, Some ratio)]
    /\ fits_of evs = [(train_of ratio x_train, TimeArray <$> (train_of ratio <$> t),
                       train_of ratio <$> x_dot_train)]
    /\ scores_of evs = [(test_of ratio x_train, TimeArray <$> (test_of ratio <$> t),
                         test_of ratio <$> x_dot_train)]
    /\ SINDy_fit model (train_of ratio x_train) (TimeArray <$> (train_of ratio <$> t))
                 (train_of ratio <$> x_dot_train) = inr m
    /\ (flag_solution = true -> v = FittedModel m).
Proof.
  intros Hr H.
  apply evalSymbReg_run in H
    as [(_ & ? & _)|(_ & rc & cevs & _ & Hall & Hrest)]; [discriminate|].
  destruct (build_events_silent cevs Hall) as (Hcf & Hcs & Hce).
  destruct rc as [e|model]; [destruct Hrest; discriminate|].
  destruct Hrest as (rf & w2 & Hf & Hrest).
  rewrite fit_and_score_split in Hf by exact Hr.
  rewrite fit_then_score_run in Hf.
  destruct (SINDy_fit model (train_of ratio x_train)
              (TimeArray <$> (train_of ratio <$> t))
              (train_of ratio <$> x_dot_train)) as [e|m] eqn:Efit.
  { injection Hf as <- <-. destruct Hrest; discriminate. }
  destruct (SINDy_score m (test_of ratio x_train)
              (TimeArray <$> (test_of ratio <$> t))
              (test_of ratio <$> x_dot_train)
              (default r2_score score_metrics)
              (default no_kwargs score_metrics_kwargs)) as [e|s].
  { injection Hf as <- <-. destruct Hrest; discriminate. }
  injection Hf as <- <-. destruct Hrest as (rp & Hp & Hv).
  pose proof (penalized_run _ _ _ _ _ _ _ _ _ Hp) as ->.
  destruct (penalty_events_silent sparsity) as (Hpf & Hps & Hpe).
  destruct rp as [e|f]; [discriminate|]. injection Hv as Hv.
  rewrite !after_events_app.
  eexists _, model, m. split; [reflexivity|].
  rewrite !fits_of_app, !scores_of_app, !evaluations_of_app.
  rewrite Hcf, Hcs, Hce, Hpf, Hps, Hpe. simpl.
  repeat split; try reflexivity; try exact Efit.
  intros ->. simpl in Hv. congruence.
Qed.

(** C1, as the code has it. When [fit] returns, the generational loop has
    ended and the evaluator has then been called exactly once more, on the
    best individual of the hall of fame, with the return-model flag set and
    with the split ratio 0.8 of the in-loop evaluations: the trained model is
    the model this call fitted on the first [floor(0.8 * len)] samples, the
    remaining samples being used for its score. *)
Theorem final_model_is_refit_on_the_split
    (self : Config) (x_train : Array2) (x_dot_train : option Array2)
    (t : option (list Q)) (w : World) (fitted : Fitted) (w' : World) :
  fit self x_train x_dot_train (TimeArray <$> t) w = (inr fitted, w') ->
  let toolbox := fit_toolbox self x_train x_dot_train (TimeArray <$> t) in
  exists pop0 w0 w1 best,
    tb_population toolbox (n_individuals self) w = (inr pop0, w0)
    /\ my_eaSimple pop0 toolbox (cxpb self) (mutpb self) (ngen self) (ntrees self)
                   (Some {| maxsize := 1; items := [] |}) w0
       = (inr (fitted_population fitted, fitted_log fitted, Some (fitted_hof fitted)),
          w1)
    /\ items (fitted_hof fitted) !! 0%nat = Some best
    /\ exists evs model,
         w' = after_events w1 evs
         /\ evaluations_of evs = [(trees best, true, Some 0.8)]
         /\ fits_of evs = [(train_of 0.8 x_train,
                            TimeArray <$> (train_of 0.8 <$> t),
                            train_of 0.8 <$> x_dot_train)]
         /\ scores_of evs = [(test_of 0.8 x_train,
                              TimeArray <$> (test_of 0.8 <$> t),
                              test_of 0.8 <$> x_dot_train)]
         /\ SINDy_fit model (train_of 0.8 x_train)
                      (TimeArray <$> (train_of 0.8 <$> t))
                      (train_of 0.8 <$> x_dot_train)
            = inr (final_model fitted).
Proof.
  intros H toolbox. unfold fit in H. cbn [configure_DEAP] in H.
  proceed H as pop0 w0 Hpop.
  proceed H as [[pop log] hof] w1 Hea.
  destruct hof as [hof|]; [|discriminate].
  destruct (items hof !! 0%nat) as [best|] eqn:Ebest; [|discriminate].
  proceed H as final w2 Hfinal.
  destruct final as [v|m]; [discriminate|].
  injection H as <- <-.
  exists pop0, w0, w1, best.
  split; [exact Hpop|]. split; [exact Hea|]. split; [exact Ebest|].
  cbn [call_registered tb_retrieve_model register_retrieve_model] in Hfinal.
  unfold retrieve_model_of in Hfinal.
  apply evalSymbReg_split_success in Hfinal
    as (evs & model & m' & -> & He & Hf & Hs & Hfit & Hm); [|discriminate].
  specialize (Hm eq_refl). injection Hm as ->.
  exists evs, model. simpl. auto.
Qed.

End TrainedModel.

Section TrainedModelRuns.

Import Toy.

(** A run of [fit] on ten samples: the trained model has been fitted on the
    first eight of them. *)
Lemma final_model_is_refit_on_the_split_witness :
  exists fitted w',
    fit config x10 None None (world 0) = (inr fitted, w')
    /\ last (fits_of (trace w')) = Some (train_of 0.8 x10, None, None)
    /\ last (evaluations_of (trace w')) = Some ([leaf; leaf], true, Some 0.8).
Proof.
  destruct (fit config x10 None None (world 0)) as [r w'] eqn:E.
  assert (Er : exists fitted, r = inr fitted).
  { vm_compute in E. injection E as <- _. eexists. reflexivity. }
  destruct Er as [fitted ->]. exists fitted, w'. split; [reflexivity|].
  destruct (final_model_is_refit_on_the_split config x10 None None _ _ _ E)
    as (pop0 & w0 & w1 & best & _ & _ & Hbest & evs & model & -> & He & Hf & _ & _).
  simpl. rewrite fits_of_app, evaluations_of_app, Hf, He, !last_snoc.
  split; [reflexivity|].
  assert (Eb : trees best = [leaf; leaf]).
  { vm_compute in E. injection E as <- _. simpl in Hbest. injection Hbest as <-.
    reflexivity. }
  rewrite Eb. reflexivity.
Defined.

(** C1, as stated, fails: the final fit is not on the entire training set.
    On ten samples the trained model was fitted on the first eight. *)
Lemma final_fit_is_not_on_the_entire_set :
  exists fitted w',
    fit config x10 None None (world 0) = (inr fitted, w')
    /\ toy_fitted_on (final_model fitted) = take 8 x10
    /\ toy_fitted_on (final_model fitted) <> x10
    /\ last (fits_of (trace w')) = Some (take 8 x10, None, None).
Proof.
  eexists _, _. split; [vm_compute; reflexivity|].
  split; [reflexivity|]. split; [discriminate|reflexivity].
Qed.

End TrainedModelRuns.

(** * Further properties of the evaluator *)

(** ** The split lambda, for every ratio *)


Lemma int_inject_Z (z : Z) : int (inject_Z z) = z.
Proof. unfold int, inject_Z. simpl. apply Z.quot_1_r. Qed.


Lemma slice_index_zero (n : nat) : slice_index n 0 = 0%nat.
Proof. reflexivity. Qed.



Lemma len_nonneg (n : nat) : 0 <= inject_Z (Z.of_nat n).
Proof. unfold Qle. simpl. lia. Qed.


(** ** Evaluation without a split *)

Section Unsplit.

Context {TE : TreeEngine} {FE : FittingEngine}.


End Unsplit.

Section UnsplitRuns.

Import Toy.


End UnsplitRuns.

(** ** A float time step and the split *)

Section TimeStepSplit.

Context {TE : TreeEngine} {FE : FittingEngine}.

Lemma fit_and_score_time_step (model : Model) (x_train : Array2)
    (x_dot_train : option Array2) (dt : Q)
    (score_metrics : Metric) (score_metrics_kwargs : Kwargs) (ratio : Q) (w : World) :
  fit_and_score model x_train x_dot_train (Some (TimeStep dt))
                score_metrics score_metrics_kwargs (Some ratio) w
  = (inl (TypeError "object of type 'float' has no len()"), w).
Proof. destruct x_dot_train; reflexivity. Qed.

Lemma evalSymbReg_time_step
    (individual : Individual) (ntrees : nat) (max_depth : Z) (toolbox : Toolbox)
    (x_train : Array2) (x_dot_train : option Array2) (dt : Q)
    (sindy_kwargs : option Kwargs) (score_metrics : option Metric)
    (score_metrics_kwargs : option Kwargs) (flag_solution : bool)
    (ratio : Q) (sparsity : string) (w : World) :
  exists e evs,
    evalSymbReg individual ntrees max_depth toolbox x_train x_dot_train
                (Some (TimeStep dt)) sindy_kwargs score_metrics score_metrics_kwargs
                flag_solution (Some ratio) sparsity w
    = (inl e, after_events w evs)
    /\ fits_of evs = [] /\ scores_of evs = []
    /\ ((3 <= length x_train)%nat ->
        forall model w1,
          create_sindy_model ntrees individual toolbox (default no_kwargs sindy_kwargs)
            (after_events w [EvEvaluate (trees individual) flag_solution (Some ratio)])
          = (inr model, w1) ->
          e = TypeError "object of type 'float' has no len()").
Proof.
  destruct (evalSymbReg individual ntrees max_depth toolbox x_train x_dot_train
              (Some (TimeStep dt)) sindy_kwargs score_metrics score_metrics_kwargs
              flag_solution (Some ratio) sparsity w) as [r w'] eqn:H.
  apply evalSymbReg_run in H
    as [(Hlt & -> & ->)|(_ & rc & cevs & Hc & Hall & Hrest)].
  { eexists _, _. split; [reflexivity|]. repeat split. intros Hge. lia. }
  destruct (build_events_silent cevs Hall) as (Hcf & Hcs & _).
  destruct rc as [e|model].
  { destruct Hrest as [-> ->]. rewrite after_events_app.
    eexists _, _. split; [reflexivity|].
    rewrite fits_of_app, scores_of_app, Hcf, Hcs.
    repeat split. intros _ model w1 Hm. congruence. }
  destruct Hrest as (rf & w2 & Hf & Hrest).
  rewrite fit_and_score_time_step in Hf. injection Hf as <- <-.
  destruct Hrest as [-> ->]. rewrite after_events_app.
  eexists _, _. split; [reflexivity|].
  rewrite fits_of_app, scores_of_app, Hcf, Hcs. repeat split.
Qed.

(** X3. Called with a split ratio and a float time step, the evaluator
    never returns and fits nothing: the split lambda asks the time step for
    its length. When the input has three samples or more and the model can
    be built, the error is that [TypeError]. *)
Theorem time_step_cannot_be_split
    (individual : Individual) (ntrees : nat) (max_depth : Z) (toolbox : Toolbox)
    (x_train : Array2) (x_dot_train : option Array2) (dt : Q)
    (sindy_kwargs : option Kwargs) (score_metrics : option Metric)
    (score_metrics_kwargs : option Kwargs) (flag_solution : bool)
    (ratio : Q) (sparsity : string) (w : World) :
  split (Some (TimeStep dt)) ratio
  = inl (TypeError "object of type 'float' has no len()")
  /\ exists e evs,
       evalSymbReg individual ntrees max_depth toolbox x_train x_dot_train
                   (Some (TimeStep dt)) sindy_kwargs score_metrics
                   score_metrics_kwargs flag_solution (Some ratio) sparsity w
       = (inl e, after_events w evs)
       /\ fits_of evs = [] /\ scores_of evs = []
       /\ ((3 <= length x_train)%nat ->
           forall model w1,
             create_sindy_model ntrees individual toolbox
               (default no_kwargs sindy_kwargs)
               (after_events w [EvEvaluate (trees individual) flag_solution
                                           (Some ratio)])
             = (inr model, w1) ->
             e = TypeError "object of type 'float' has no len()").
Proof.
  split; [reflexivity|]. apply evalSymbReg_time_step.
Qed.

Lemma silent_initRepeat {A} (func : M A) (n : nat) :
  silent func -> silent (initRepeat func n).
Proof.
  intros Hf. induction n as [|n IH]; simpl; [apply silent_ret|].
  apply silent_bind; [exact Hf|]. intros a.
  apply silent_bind; [exact IH|]. intros rest. apply silent_ret.
Qed.

Lemma silent_population (pset : PrimitiveSet) (ntrees : nat) (max_depth : Z) (n : nat) :
  silent (tb_population (_create_toolbox pset ntrees max_depth) n).
Proof.
  cbn [tb_population _create_toolbox]. apply silent_initRepeat.
  apply silent_bind; [|intros ts; apply silent_ret].
  apply silent_initRepeat. apply silent_with_rng.
Qed.

(** The generational loop on an empty population: nothing is selected,
    varied or evaluated, and the hall of fame stays empty. *)
Lemma empty_generations (toolbox : Toolbox) (cxpb mutpb : Q) (ntrees : nat)
    (w : World) :
  tb_select toolbox = selTournament 2 ->
  forall gens logbook,
    exists logbook',
      for_fold (generation toolbox cxpb mutpb ntrees) gens
               ([], logbook, Some {| maxsize := 1; items := [] |}) w
      = (inr ([], logbook', Some {| maxsize := 1; items := [] |}), w).
Proof.
  intros Hsel. induction gens as [|g gens IH]; intros logbook.
  - exists logbook. reflexivity.
  - destruct (IH (logbook ++ [{| gen := g; nevals := 0 |}])) as [logbook' E].
    exists logbook'. cbn [for_fold].
    assert (Hg : generation toolbox cxpb mutpb ntrees
                   ([], logbook, Some {| maxsize := 1; items := [] |}) g w
                 = (inr ([], logbook ++ [{| gen := g; nevals := 0 |}],
                         Some {| maxsize := 1; items := [] |}), w)).
    { unfold generation. rewrite Hsel. reflexivity. }
    rewrite (bind_inr _ _ _ _ _ Hg). exact E.
Qed.

Lemma my_eaSimple_empty (toolbox : Toolbox) (cxpb mutpb : Q) (ngen ntrees : nat)
    (w : World) :
  tb_select toolbox = selTournament 2 ->
  exists logbook,
    my_eaSimple [] toolbox cxpb mutpb ngen ntrees
                (Some {| maxsize := 1; items := [] |}) w
    = (inr ([], logbook, Some {| maxsize := 1; items := [] |}), w).
Proof.
  intros Hsel. unfold my_eaSimple.
  destruct (empty_generations toolbox cxpb mutpb ntrees w Hsel
              (seq 1 ngen) [{| gen := 0; nevals := 0 |}]) as [logbook' E].
  exists logbook'.
  assert (He : evaluate_invalid toolbox [] w = (inr ([], 0%nat), w)) by reflexivity.
  rewrite (bind_inr _ _ _ _ _ He). exact E.
Qed.

(** X4. [fit] cannot be used with a float time step: it registers the
    evaluator with the split ratio 0.8, so the first evaluation raises, and
    an empty population leaves the hall of fame empty. Whatever the data and
    the configuration, [fit] ends with an error, and the engine has fitted
    and scored nothing. *)
Theorem fit_rejects_a_time_step
    (self : Config) (x_train : Array2) (x_dot_train : option Array2) (dt : Q)
    (w : World) :
  exists e w',
    fit self x_train x_dot_train (Some (TimeStep dt)) w = (inl e, w')
    /\ fits_of (trace w') = fits_of (trace w)
    /\ scores_of (trace w') = scores_of (trace w).
Proof.
  unfold fit. cbn [configure_DEAP].
  cbn [tb_population register_retrieve_model register_evaluate].
  set (pset := _rename_args _ _ _ _).
  destruct (tb_population (_create_toolbox pset (ntrees self) 2) (n_individuals self) w)
    as [[e|pop] w0] eqn:Hpop.
  { pose proof (silent_population _ _ _ _ _ _ _ Hpop) as Htr.
    cbn [tb_population _create_toolbox] in Hpop.
    rewrite (bind_inl _ _ _ _ _ Hpop).
    exists e, w0. rewrite Htr. repeat split. }
  pose proof (population_fresh _ _ _ _ _ _ _ Hpop) as (Hl & Hall & Htr).
  cbn [tb_population _create_toolbox] in Hpop.
  rewrite (bind_inr _ _ _ _ _ Hpop).
  destruct pop as [|first rest].
  - match goal with
    | |- context [my_eaSimple [] ?tb ?c ?m ?g ?n _] =>
        destruct (my_eaSimple_empty tb c m g n w0 eq_refl) as [logbook' E]
    end.
    rewrite (bind_inr _ _ _ _ _ E).
    eexists _, w0. split; [reflexivity|]. rewrite Htr. split; reflexivity.
  - apply Forall_cons in Hall as [Hfit _].
    destruct (evalSymbReg_time_step first (ntrees self) 2
                (_create_toolbox pset (ntrees self) 2) x_train x_dot_train dt
                (sindy_kwargs self) (score_metrics self) (score_metrics_kwargs self)
                false 0.8 (sparsity self) w0) as (e & evs & He & Hf & Hs & _).
    exists e, (after_events w0 evs). split.
    + apply bind_inl. unfold my_eaSimple. apply bind_inl.
      unfold evaluate_invalid. apply bind_inl.
      destruct (invalid_ind_head first rest) as [others ->];
        [rewrite Hfit; reflexivity|].
      apply for_fold_inl. apply bind_inl.
      cbn [call_registered tb_evaluate register_retrieve_model register_evaluate snd].
      unfold evaluate_of. exact He.
    + simpl. rewrite fits_of_app, scores_of_app, Hf, Hs, !app_nil_r, Htr.
      split; reflexivity.
Qed.

End TimeStepSplit.

(** ** The sparsity mode of the constructor *)

Section DefaultSparsity.

Context {TE : TreeEngine} {FE : FittingEngine}.

Lemma fit_and_score_unread (model : Model) (x_train : Array2)
    (x_dot_train : option Array2) (time_rec_obs : option TimeSpec)
    (score_metrics : Metric) (score_metrics_kwargs : Kwargs)
    (tr_te_ratio : option Q) (w : World) r w' :
  fit_and_score model x_train x_dot_train time_rec_obs score_metrics
                score_metrics_kwargs tr_te_ratio w = (r, w') ->
  exists evs, w' = after_events w evs /\ coefficients_unread evs.
Proof.
  assert (Hgen : forall x_tr xd_tr t_tr x_te xd_te t_te w,
    (model <- fit_sindy_model model x_tr xd_tr t_tr ;;
     score_sindy_model model x_te t_te xd_te score_metrics score_metrics_kwargs) w
    = (r, w') ->
    exists evs, w' = after_events w evs /\ coefficients_unread evs).
  { intros x_tr xd_tr t_tr x_te xd_te t_te w0 H. rewrite fit_then_score_run in H.
    destruct (SINDy_fit model x_tr t_tr xd_tr) as [e|m'].
    - injection H as _ <-. eexists. split; [reflexivity|].
      repeat constructor; discriminate.
    - injection H as _ <-. eexists. split; [reflexivity|].
      repeat constructor; discriminate. }
  assert (Hnil : forall w0 : World, exists evs,
                   w0 = after_events w0 evs /\ coefficients_unread evs).
  { intros w0. exists []. rewrite after_events_nil. split; [reflexivity|constructor]. }
  unfold fit_and_score. destruct tr_te_ratio as [ratio|]; [|apply Hgen].
  assert (Hlift : forall {A} (c : exn + A) (w0 : World) r0 w1,
                    lift c w0 = (r0, w1) -> w1 = w0).
  { intros A c w0 r0 w1 E. rewrite lift_run in E. congruence. }
  intros H.
  apply bind_inv in H as [(e & H & _)|([a b] & w1 & H1 & H)];
    [apply Hlift in H as ->; apply Hnil|].
  apply Hlift in H1 as ->.
  apply bind_inv in H as [(e & H & _)|([c d] & w2 & H2 & H)];
    [apply Hlift in H as ->; apply Hnil|].
  apply Hlift in H2 as ->.
  apply bind_inv in H as [(e & H & _)|([f g] & w3 & H3 & H)];
    [apply Hlift in H as ->; apply Hnil|].
  apply Hlift in H3 as ->.
  destruct a as [a|]; [|injection H as _ <-; apply Hnil].
  destruct b as [b|]; [|injection H as _ <-; apply Hnil].
  eapply Hgen. exact H.
Qed.

Lemma build_events_unread (evs : list Event) :
  Forall is_build_event evs -> coefficients_unread evs.
Proof.
  intros H. eapply Forall_impl; [exact H|]. intros ev Hev ->. exact Hev.
Qed.

(** An evaluation in a mode other than ["n_zero_nodes"]. *)
Lemma evalSymbReg_unpenalized
    (individual : Individual) (ntrees : nat) (max_depth : Z) (toolbox : Toolbox)
    (x_train : Array2) (x_dot_train : option Array2) (time_rec_obs : option TimeSpec)
    (sindy_kwargs : option Kwargs) (score_metrics : option Metric)
    (score_metrics_kwargs : option Kwargs) (flag_solution : bool)
    (tr_te_ratio : option Q) (sparsity : string) (w : World) v w' :
  String.eqb sparsity "n_zero_nodes" = false ->
  evalSymbReg individual ntrees max_depth toolbox x_train x_dot_train time_rec_obs
              sindy_kwargs score_metrics score_metrics_kwargs flag_solution
              tr_te_ratio sparsity w = (inr v, w') ->
  exists evs model score x t xd,
    w' = after_events w evs
    /\ coefficients_unread evs
    /\ SINDy_score model x t xd (default r2_score score_metrics)
                   (default no_kwargs score_metrics_kwargs) = inr score
    /\ v = if flag_solution then FittedModel model else FitnessList [score].
Proof.
  intros Hmode H.
  apply evalSymbReg_run in H
    as [(_ & ? & _)|(_ & rc & cevs & _ & Hall & Hrest)]; [discriminate|].
  destruct rc as [e|model0]; [destruct Hrest; discriminate|].
  destruct Hrest as (rf & w2 & Hf & Hrest).
  destruct rf as [e|[m s]]; [destruct Hrest; discriminate|].
  destruct Hrest as (rp & Hp & Hr).
  unfold penalized in Hp. rewrite Hmode in Hp. injection Hp as <- <-.
  injection Hr as ->.
  destruct (fit_and_score_scored _ _ _ _ _ _ _ _ _ _ _ Hf) as (x & t & xd & Hs & _).
  apply fit_and_score_unread in Hf as (fevs & -> & Hfe).
  rewrite !after_events_app.
  eexists _, m, s, x, t, xd. split; [reflexivity|].
  split; [|split; [exact Hs|destruct flag_solution; reflexivity]].
  apply Forall_app. split; [repeat constructor; discriminate|].
  apply Forall_app. split; [apply build_events_unread; exact Hall|exact Hfe].
Qed.

(** X5. The constructor's default sparsity mode is ["n_nodes"], and [fit]
    hands the mode of the object to the evaluator, which penalizes in mode
    ["n_zero_nodes"] only. For an object constructed without a [sparsity]
    argument, every fitness [fit] computes is therefore the score of the
    engine as it is, and the coefficients of the model are never read; the
    same holds for any call of the evaluator in another mode than
    ["n_zero_nodes"]. *)
Theorem default_sparsity_applies_no_penalty :
  sparsity (__init__ no_args) = "n_nodes"
  /\ (forall args max_depth toolbox x_train x_dot_train time_rec_obs individual
             w v w',
        arg_sparsity args = None ->
        evaluate_of (__init__ args) max_depth toolbox x_train x_dot_train
                    time_rec_obs individual w = (inr v, w') ->
        exists evs model score x t xd,
          w' = after_events w evs
          /\ coefficients_unread evs
          /\ SINDy_score model x t xd
                         (default r2_score (score_metrics (__init__ args)))
                         (default no_kwargs (score_metrics_kwargs (__init__ args)))
             = inr score
          /\ v = FitnessList [score])
  /\ (forall individual ntrees max_depth toolbox x_train x_dot_train time_rec_obs
             sindy_kwargs score_metrics score_metrics_kwargs flag_solution
             tr_te_ratio sparsity w v w',
        String.eqb sparsity "n_zero_nodes" = false ->
        evalSymbReg individual ntrees max_depth toolbox x_train x_dot_train
                    time_rec_obs sindy_kwargs score_metrics score_metrics_kwargs
                    flag_solution tr_te_ratio sparsity w = (inr v, w') ->
        exists evs model score x t xd,
          w' = after_events w evs
          /\ coefficients_unread evs
          /\ SINDy_score model x t xd (default r2_score score_metrics)
                         (default no_kwargs score_metrics_kwargs) = inr score
          /\ v = if flag_solution then FittedModel model else FitnessList [score]).
Proof.
  split; [reflexivity|]. split.
  - intros args max_depth toolbox x_train x_dot_train time_rec_obs individual
           w v w' Hargs H.
    unfold evaluate_of in H.
    apply evalSymbReg_unpenalized in H; [exact H|].
    cbn [sparsity __init__]. rewrite Hargs. reflexivity.
  - intros individual ntrees max_depth toolbox x_train x_dot_train time_rec_obs
           sindy_kwargs score_metrics score_metrics_kwargs flag_solution
           tr_te_ratio sparsity w v w' Hmode H.
    eapply evalSymbReg_unpenalized; eassumption.
Qed.

End DefaultSparsity.

Section DefaultSparsityRuns.

Import Toy.

(** The object [SymINDy(ntrees=2, dims=1)]: the evaluation of an individual
    whose first subtree has two nodes and a non-zero coefficient returns the
    score 2 of the engine, not [2 - 2/16]. *)
Lemma default_sparsity_applies_no_penalty_witness :
  let args := {| arg_ngen := None; arg_ntrees := Some 2%nat; arg_mutpb := None;
                 arg_cxpb := None; arg_dims := Some 1%nat; arg_library_name := None;
                 arg_is_time_dependent := None; arg_score_metrics := None;
                 arg_score_metrics_kwargs := None; arg_nc := None;
                 arg_n_individuals := None; arg_sindy_kwargs := None;
                 arg_sparsity := None |} in
  exists w',
    evaluate_of (__init__ args) 2
                (_create_toolbox (library 0 1 false "generalized") 2 2)
                x10 None None {| trees := [tree1; leaf]; fitness := FitnessMax |}
                (world 0)
    = (inr (FitnessList [2]), w')
    /\ coefficients_unread (trace w').
Proof.
  intros args.
  destruct default_sparsity_applies_no_penalty as (_ & Hfit & _).
  destruct (evaluate_of (__init__ args) 2
              (_create_toolbox (library 0 1 false "generalized") 2 2)
              x10 None None {| trees := [tree1; leaf]; fitness := FitnessMax |}
              (world 0)) as [r w'] eqn:E.
  assert (Er : r = inr (FitnessList [2])).
  { vm_compute in E. injection E as <- _. reflexivity. }
  subst r. exists w'. split; [reflexivity|].
  destruct (Hfit args _ _ _ _ _ _ _ _ _ eq_refl E)
    as (evs & model & score & x & t & xd & -> & Hun & _).
  exact Hun.
Defined.

End DefaultSparsityRuns.

(** ** The range of the penalty *)

Section PenaltyRange.

Context {TE : TreeEngine} {FE : FittingEngine}.

Lemma inject_nat_add (a b : nat) :
  inject_Z (Z.of_nat (a + b)) = inject_Z (Z.of_nat a) + inject_Z (Z.of_nat b).
Proof. rewrite Nat2Z.inj_add. apply inject_Z_plus. Qed.

Lemma count_nodes_bound (ntrees : nat) (individual : Individual)
    (ind_coefs_list : list (list Q)) (B : Q) (w : World) n w' :
  0 <= B ->
  Forall (fun t : Tree => inject_Z (Z.of_nat (length t)) <= B) (trees individual) ->
  count_nodes ntrees individual ind_coefs_list w = (inr n, w') ->
  inject_Z (Z.of_nat n) <= inject_Z (Z.of_nat ntrees) * B.
Proof.
  intros HB Hsize. unfold count_nodes.
  assert (Hgen : forall l acc w n w',
    for_fold (fun (n_nodes i : nat) =>
                match ind_coefs_list !! i with
                | None => raise (IndexError "list index out of range")
                | Some coefs =>
                    if np.all_zero coefs then ret n_nodes
                    else t <- subtree individual i ;; ret (n_nodes + length t)%nat
                end) l acc w = (inr n, w') ->
    inject_Z (Z.of_nat n)
    <= inject_Z (Z.of_nat acc) + inject_Z (Z.of_nat (length l)) * B).
  { induction l as [|i l IH]; intros acc w0 n0 w0' H; simpl in H.
    - injection H as <- _. simpl. rewrite Qmult_0_l, Qplus_0_r. apply Qle_refl.
    - proceed H as acc1 w1 H1.
      apply IH in H.
      assert (Hstep : inject_Z (Z.of_nat acc1) <= inject_Z (Z.of_nat acc) + B).
      { destruct (ind_coefs_list !! i) as [coefs|]; [|discriminate].
        destruct (np.all_zero coefs).
        - injection H1 as <- _.
          rewrite <- (Qplus_0_r (inject_Z (Z.of_nat acc))) at 1.
          apply Qplus_le_r. exact HB.
        - proceed H1 as t w2 Ht. injection H1 as <- _.
          unfold subtree in Ht.
          destruct (trees individual !! i) as [t'|] eqn:Et; [|discriminate].
          injection Ht as <- _.
          rewrite inject_nat_add. apply Qplus_le_r.
          rewrite Forall_forall in Hsize. apply Hsize.
          eapply list_elem_of_lookup_2. exact Et. }
      eapply Qle_trans; [exact H|].
      change (length (i :: l)) with (S (length l)).
      rewrite Nat2Z.inj_succ. unfold Z.succ. rewrite inject_Z_plus.
      eapply Qle_trans; [apply Qplus_le_l; exact Hstep|].
      apply Qle_lteq. right. ring. }
  intros H. apply Hgen in H. rewrite length_seq in H.
  change (inject_Z (Z.of_nat 0)) with 0 in H. rewrite Qplus_0_l in H. exact H.
Qed.

Lemma penalized_count (individual : Individual) (ntrees : nat) (max_depth : Z)
    (model : Model) (fitness : Q) (w : World) f w' :
  penalized individual ntrees max_depth "n_zero_nodes" model fitness w = (inr f, w') ->
  exists coefficients sections n w1 w2,
    SINDy_coefficients model = inr coefficients
    /\ np.split (np.T_reshape_flat coefficients) ntrees = inr sections
    /\ count_nodes ntrees individual sections w1 = (inr n, w2)
    /\ f = fitness - inject_Z (Z.of_nat n)
                     / (2 ^ (1 + max_depth) * inject_Z (Z.of_nat ntrees))
    /\ ~ 2 ^ (1 + max_depth) * inject_Z (Z.of_nat ntrees) == 0.
Proof.
  unfold penalized. rewrite String.eqb_refl. intros H.
  rewrite (bind_inr _ _ _ _ _ (emit_run _ _)) in H.
  proceed H as c w1 Hc. rewrite lift_run in Hc. injection Hc as Hc <-.
  proceed H as l w2 Hl. rewrite lift_run in Hl. injection Hl as Hl <-.
  proceed H as n w3 Hn.
  destruct (Qeq_bool _ _) eqn:E; [discriminate|].
  injection H as <- _. exists c, l, n, (after_events w [EvCoefficients]), w3.
  split; [exact Hc|]. split; [exact Hl|]. split; [exact Hn|].
  split; [reflexivity|]. apply Qeq_bool_neq. exact E.
Qed.

(** X6. The penalty is a share of the bound: when no subtree of the
    individual has more than [2^(1+max_depth)] nodes, a fitness the evaluator
    returns in mode ["n_zero_nodes"] lies between the score of the engine
    less 1 and that score. *)
Theorem penalty_is_at_most_one
    (individual : Individual) (ntrees : nat) (max_depth : Z) (toolbox : Toolbox)
    (x_train : Array2) (x_dot_train : option Array2) (time_rec_obs : option TimeSpec)
    (sindy_kwargs : option Kwargs) (score_metrics : option Metric)
    (score_metrics_kwargs : option Kwargs) (tr_te_ratio : option Q)
    (w : World) v w' :
  Forall (fun t : Tree => inject_Z (Z.of_nat (length t)) <= 2 ^ (1 + max_depth))
         (trees individual) ->
  evalSymbReg individual ntrees max_depth toolbox x_train x_dot_train time_rec_obs
              sindy_kwargs score_metrics score_metrics_kwargs false tr_te_ratio
              "n_zero_nodes" w = (inr (FitnessList v), w') ->
  exists model score x t xd f,
    SINDy_score model x t xd (default r2_score score_metrics)
                (default no_kwargs score_metrics_kwargs) = inr score
    /\ v = [f] /\ score - 1 <= f /\ f <= score.
Proof.
  intros Hsize H.
  apply evalSymbReg_run in H
    as [(_ & ? & _)|(_ & rc & cevs & _ & _ & Hrest)]; [discriminate|].
  destruct rc as [e|model0]; [destruct Hrest; discriminate|].
  destruct Hrest as (rf & w2 & Hf & Hrest).
  destruct rf as [e|[m s]]; [destruct Hrest; discriminate|].
  destruct Hrest as (rp & Hp & Hr).
  destruct rp as [e|f]; [discriminate|].
  simpl in Hr. injection Hr as ->.
  destruct (fit_and_score_scored _ _ _ _ _ _ _ _ _ _ _ Hf) as (x & t & xd & Hs & _).
  apply penalized_count in Hp as (c & secs & n & w3 & w4 & _ & _ & Hn & -> & Hne).
  exists m, s, x, t, xd. eexists. split; [exact Hs|]. split; [reflexivity|].
  set (B := 2 ^ (1 + max_depth)) in *.
  set (D := B * inject_Z (Z.of_nat ntrees)) in *.
  assert (HB : 0 < B) by (apply Qpower_0_lt; reflexivity).
  assert (HD : 0 < D).
  { destruct ntrees as [|k].
    - exfalso. apply Hne. unfold D. simpl. ring.
    - apply max_nnodes_pos. lia. }
  assert (Hn0 : 0 <= inject_Z (Z.of_nat n) / D).
  { apply Qle_shift_div_l; [exact HD|]. rewrite Qmult_0_l. apply len_nonneg. }
  assert (Hn1 : inject_Z (Z.of_nat n) / D <= 1).
  { apply Qle_shift_div_r; [exact HD|]. rewrite Qmult_1_l.
    unfold D. rewrite Qmult_comm.
    eapply count_nodes_bound; [apply Qlt_le_weak; exact HB|exact Hsize|exact Hn]. }
  split.
  - apply (Qplus_le_r _ _ s) in Hn1.
    apply Qopp_le_compat in Hn1.
    apply (Qplus_le_r _ _ (s + s)) in Hn1.
    eapply Qle_trans; [|eapply Qle_trans; [exact Hn1|]];
      apply Qle_lteq; right; ring.
  - apply (Qplus_le_r _ _ (s - inject_Z (Z.of_nat n) / D)) in Hn0.
    eapply Qle_trans; [|eapply Qle_trans; [exact Hn0|]];
      apply Qle_lteq; right; ring.
Qed.

End PenaltyRange.

Section PenaltyRangeRuns.

Import Toy.

(** Subtrees of two nodes and of one, the bound [2^3 = 8]: the fitness
    [2 - 2/16] lies between the score 2 less 1 and the score. *)
Lemma penalty_is_at_most_one_witness :
  exists w' score f,
    evalSymbReg {| trees := [tree1; leaf]; fitness := FitnessMax |} 2 2
                (_create_toolbox (library 0 1 false "generalized") 2 2)
                x10 None None None None None false (Some 0.8) "n_zero_nodes"
                (world 0)
    = (inr (FitnessList [f]), w')
    /\ f == 2 - 2 / 16 /\ score - 1 <= f /\ f <= score.
Proof.
  destruct (evalSymbReg {| trees := [tree1; leaf]; fitness := FitnessMax |} 2 2
              (_create_toolbox (library 0 1 false "generalized") 2 2)
              x10 None None None None None false (Some 0.8) "n_zero_nodes"
              (world 0)) as [r w'] eqn:E.
  assert (Er : r = inr (FitnessList [2 - 2 / (2 ^ 3 * 2)])).
  { vm_compute in E. injection E as <- _. reflexivity. }
  subst r.
  destruct (penalty_is_at_most_one
              {| trees := [tree1; leaf]; fitness := FitnessMax |} 2 2
              (_create_toolbox (library 0 1 false "generalized") 2 2)
              x10 None None None None None (Some 0.8) (world 0) _ w'
              ltac:(repeat constructor; discriminate) E)
    as (model & score & x & t & xd & f & _ & Hv & Hlo & Hhi).
  injection Hv as <-.
  exists w', score, (2 - 2 / (2 ^ 3 * 2)).
  split; [reflexivity|]. split; [reflexivity|]. split; assumption.
Defined.

End PenaltyRangeRuns.

(** ** Several library features per subtree *)

Lemma chunks_blocks {A} (m R : nat) : forall (n : nat) (cols : list (list A)),
  length cols = (n * m)%nat ->
  Forall (fun l => length l = R) cols ->
  np.chunks (m * R) (concat cols) n
  = (fun i : nat => concat (take m (drop (i * m) cols))) <$> seq 0 n.
Proof.
  induction n as [|n IH]; intros cols Hlen Hcols; [reflexivity|].
  cbn [np.chunks seq fmap list_fmap].
  rewrite <- (take_drop m cols) at 1 2.
  rewrite concat_app.
  assert (Hhead : length (concat (take m cols)) = (m * R)%nat).
  { rewrite (length_concat_uniform R).
    - rewrite length_take. f_equal. lia.
    - apply Forall_take. exact Hcols. }
  rewrite take_app_length' by (symmetry; exact Hhead).
  rewrite drop_app_length' by (symmetry; exact Hhead).
  f_equal.
  rewrite IH.
  - rewrite <- fmap_S_seq, <- list_fmap_compose.
    apply list_fmap_ext. intros _ i _. unfold compose.
    rewrite drop_drop. reflexivity.
  - rewrite length_drop. lia.
  - apply Forall_drop. exact Hcols.
Qed.

Lemma feature_block_empty (m i : nat) : feature_block [] m i = [].
Proof.
  unfold feature_block. generalize (i * m)%nat as a.
  induction m as [|m IH]; intros a; [reflexivity|]. simpl. apply IH.
Qed.

Lemma chunks_nil {A} (n : nat) : np.chunks 0 (@nil A) n = replicate n [].
Proof. induction n as [|n IH]; [reflexivity|]. simpl. rewrite IH. reflexivity. Qed.

Lemma split_blocks (coefficients : Array2) (ntrees m : nat) :
  (1 <= ntrees)%nat ->
  Forall (fun row => length row = (ntrees * m)%nat) coefficients ->
  np.split (np.T_reshape_flat coefficients) ntrees
  = inr (feature_block coefficients m <$> seq 0 ntrees).
Proof.
  intros Hn Hshape.
  destruct coefficients as [|row rest].
  - unfold np.T_reshape_flat, np.split. simpl.
    destruct ntrees as [|n]; [lia|].
    rewrite Nat.Div0.mod_0_l, Nat.Div0.div_0_l. simpl Nat.eqb. cbv iota.
    f_equal. rewrite chunks_nil.
    generalize (S n) as k. intros k. generalize 0%nat as a.
    induction k as [|k IH]; intros a; [reflexivity|].
    simpl. rewrite feature_block_empty. f_equal. apply IH.
  - set (c := row :: rest).
    set (cols := subtree_coefficients c <$> seq 0 (ntrees * m)).
    assert (Hcols : Forall (fun l => length l = length c) cols).
    { apply Forall_fmap, Forall_forall. intros i _.
      change (length (subtree_coefficients c i) = length c).
      unfold subtree_coefficients. apply length_fmap. }
    assert (Hlen : length cols = (ntrees * m)%nat).
    { unfold cols. rewrite length_fmap, length_seq. reflexivity. }
    assert (Hflat : np.T_reshape_flat c = concat cols).
    { unfold np.T_reshape_flat. rewrite flat_map_concat_map.
      apply Forall_cons in Hshape as [Hrow _]. unfold c. simpl hd. rewrite Hrow.
      reflexivity. }
    rewrite Hflat. unfold np.split.
    destruct ntrees as [|n] eqn:En; [lia|]. rewrite <- En in *.
    rewrite (length_concat_uniform _ _ Hcols), Hlen.
    replace (ntrees * m * length c)%nat with ((m * length c) * ntrees)%nat by lia.
    rewrite Nat.Div0.mod_mul, Nat.div_mul by lia.
    simpl Nat.eqb. cbv iota. f_equal.
    rewrite (chunks_blocks m (length c) ntrees cols Hlen Hcols).
    apply list_fmap_ext. intros k i Hi.
    apply lookup_seq in Hi as [-> Hi]. simpl.
    unfold feature_block, cols.
    rewrite <- fmap_drop, <- fmap_take, drop_seq, take_seq.
    assert (Hk : (k * m + m <= S n * m)%nat) by nia.
    rewrite Nat.min_l by lia. reflexivity.
Qed.

Section FeatureBlocks.

Context {TE : TreeEngine} {FE : FittingEngine}.

Lemma count_nodes_sections (ntrees : nat) (individual : Individual)
    (section : nat -> list Q) (w : World) :
  (ntrees <= length (trees individual))%nat ->
  count_nodes ntrees individual (section <$> seq 0 ntrees) w
  = (inr (retained_nodes_of individual section ntrees), w).
Proof.
  intros Hlen. unfold count_nodes, retained_nodes_of.
  assert (Hgen : forall l acc,
    Forall (fun i => (i < ntrees)%nat) l ->
    for_fold (fun (n_nodes i : nat) =>
                match (section <$> seq 0 ntrees) !! i with
                | None => raise (IndexError "list index out of range")
                | Some coefs =>
                    if np.all_zero coefs then ret n_nodes
                    else t <- subtree individual i ;; ret (n_nodes + length t)%nat
                end) l acc w
    = (inr (acc + sum_list
                    ((fun i : nat =>
                        if np.all_zero (section i) then 0%nat
                        else length (default [] (trees individual !! i))) <$> l))%nat,
       w)).
  { induction l as [|i l IH]; intros acc Hl.
    - simpl. rewrite Nat.add_0_r. reflexivity.
    - apply Forall_cons in Hl as [Hi Hl]. cbn [for_fold].
      destruct (lookup_lt_is_Some_2 (trees individual) i ltac:(lia)) as [t Ht].
      assert (Hstep :
        (match (section <$> seq 0 ntrees) !! i with
         | None => raise (IndexError "list index out of range")
         | Some coefs =>
             if np.all_zero coefs then ret acc
             else t <- subtree individual i ;; ret (acc + length t)%nat
         end) w
        = (inr (acc + (if np.all_zero (section i) then 0
                       else length (default [] (trees individual !! i))))%nat, w)).
      { rewrite list_lookup_fmap, lookup_seq_lt by exact Hi.
        cbn [fmap option_fmap option_map]. change (0 + i)%nat with i.
        destruct (np.all_zero (section i)).
        - rewrite Nat.add_0_r. reflexivity.
        - assert (Hd : default [] (trees individual !! i) = t).
          { transitivity (default [] (Some t)); [f_equal; exact Ht|reflexivity]. }
          rewrite Hd. unfold subtree. rewrite Ht. reflexivity. }
      rewrite (bind_inr _ _ _ _ _ Hstep), IH by exact Hl.
      rewrite fmap_cons. simpl sum_list. do 2 f_equal. lia. }
  rewrite Hgen; [reflexivity|].
  apply Forall_forall. intros i Hi. apply elem_of_seq in Hi. lia.
Qed.

(** X7. When the library has [m] features for each subtree, so that the
    coefficient matrix has [ntrees * m] columns, [np.split] cuts the
    transposed, flattened matrix into one section per subtree: section [i]
    holds the coefficients of the features [i*m .. i*m + m - 1], for all
    targets. The nodes of subtree [i] count for the penalty unless all of
    these are exactly zero. *)
Theorem penalty_counts_by_feature_block
    (individual : Individual) (ntrees m : nat) (max_depth : Z)
    (model : Model) (fitness : Q) (coefficients : Array2) (w : World) :
  (1 <= ntrees)%nat ->
  (ntrees <= length (trees individual))%nat ->
  SINDy_coefficients model = inr coefficients ->
  Forall (fun row => length row = (ntrees * m)%nat) coefficients ->
  np.split (np.T_reshape_flat coefficients) ntrees
  = inr (feature_block coefficients m <$> seq 0 ntrees)
  /\ penalized individual ntrees max_depth "n_zero_nodes" model fitness w
     = (inr (fitness
             - inject_Z (Z.of_nat (retained_nodes_of individual
                                     (feature_block coefficients m) ntrees))
               / (2 ^ (1 + max_depth) * inject_Z (Z.of_nat ntrees))),
        after_events w [EvCoefficients]).
Proof.
  intros Hn Hlen Hcoef Hshape.
  pose proof (split_blocks coefficients ntrees m Hn Hshape) as Hsplit.
  split; [exact Hsplit|].
  unfold penalized. rewrite String.eqb_refl.
  rewrite (bind_inr _ _ _ _ _ (emit_run _ _)).
  rewrite Hcoef. rewrite (bind_inr _ _ _ _ _ (lift_run _ _)).
  rewrite Hsplit.
  rewrite (bind_inr _ _ _ _ _ (lift_run _ _)).
  rewrite (bind_inr _ _ _ _ _ (count_nodes_sections _ _ _ _ Hlen)).
  destruct (Qeq_bool (2 ^ (1 + max_depth) * inject_Z (Z.of_nat ntrees)) 0) eqn:E.
  - apply Qeq_bool_eq in E. pose proof (max_nnodes_pos ntrees max_depth Hn) as Hpos.
    rewrite E in Hpos. exfalso. exact (Qlt_irrefl 0 Hpos).
  - reflexivity.
Qed.

(** X8. [np.split] wants equal sections: when the number of coefficients
    (features times targets) is not a multiple of [ntrees], the evaluator
    raises a [ValueError] in mode ["n_zero_nodes"], after the model has been
    fitted and scored and its coefficients read. *)
Theorem uneven_coefficients_abort_the_penalty
    (individual : Individual) (ntrees k : nat) (max_depth : Z)
    (model : Model) (fitness : Q) (coefficients : Array2) (w : World) :
  (1 <= ntrees)%nat ->
  SINDy_coefficients model = inr coefficients ->
  coefficients <> [] ->
  Forall (fun row => length row = k) coefficients ->
  ((k * length coefficients) mod ntrees <> 0)%nat ->
  penalized individual ntrees max_depth "n_zero_nodes" model fitness w
  = (inl (ValueError "array split does not result in an equal division"),
     after_events w [EvCoefficients]).
Proof.
  intros Hn Hcoef Hne Hshape Hmod.
  unfold penalized. rewrite String.eqb_refl.
  rewrite (bind_inr _ _ _ _ _ (emit_run _ _)).
  rewrite Hcoef. rewrite (bind_inr _ _ _ _ _ (lift_run _ _)).
  assert (Hflat : length (np.T_reshape_flat coefficients)
                  = (k * length coefficients)%nat).
  { destruct coefficients as [|row rest]; [congruence|].
    unfold np.T_reshape_flat. rewrite flat_map_concat_map.
    pose proof Hshape as Hshape'. apply Forall_cons in Hshape' as [Hrow _].
    simpl hd. rewrite Hrow.
    rewrite (length_concat_uniform (length (row :: rest))).
    - rewrite length_fmap, length_seq. reflexivity.
    - apply Forall_fmap, Forall_forall. intros i _.
      change (length ((fun r : list Q => nth i r 0) <$> row :: rest)
              = length (row :: rest)).
      apply length_fmap. }
  unfold np.split. destruct ntrees as [|n]; [lia|].
  rewrite Hflat. apply Nat.eqb_neq in Hmod. rewrite Hmod. reflexivity.
Qed.

End FeatureBlocks.

Section FeatureBlockRuns.

Import Toy.

(** Two subtrees and four features: the first block [1; 0] keeps the two
    nodes of the first subtree, the second block [0; 0] drops the leaf. With
    three features for two subtrees the split fails. *)
Lemma penalty_counts_by_feature_block_witness :
  let model := {| toy_library := [tree1; leaf; leaf; leaf]; toy_fitted_on := [] |} in
  penalized {| trees := [tree1; leaf]; fitness := FitnessMax |} 2 2 "n_zero_nodes"
            model 1 (world 0)
  = (inr (1 - inject_Z (Z.of_nat 2) / (2 ^ (1 + 2) * inject_Z (Z.of_nat 2))),
     after_events (world 0) [EvCoefficients]).
Proof.
  intros model.
  exact (proj2 (penalty_counts_by_feature_block
                  {| trees := [tree1; leaf]; fitness := FitnessMax |} 2 2 2
                  model 1 [[1; 0; 0; 0]] (world 0)
                  ltac:(simpl; lia) ltac:(simpl; lia) eq_refl
                  ltac:(repeat constructor))).
Defined.

Lemma uneven_coefficients_abort_the_penalty_witness :
  let model := {| toy_library := [tree1; leaf; leaf]; toy_fitted_on := [] |} in
  penalized {| trees := [tree1; leaf]; fitness := FitnessMax |} 2 2 "n_zero_nodes"
            model 1 (world 0)
  = (inl (ValueError "array split does not result in an equal division"),
     after_events (world 0) [EvCoefficients]).
Proof.
  intros model.
  exact (uneven_coefficients_abort_the_penalty
           {| trees := [tree1; leaf]; fitness := FitnessMax |} 2 3 2
           model 1 [[1; 0; 0]] (world 0)
           ltac:(simpl; lia) eq_refl ltac:(discriminate)
           ltac:(repeat constructor) ltac:(simpl; lia)).
Defined.

End FeatureBlockRuns.

(** * Further properties of the variation step *)

(** ** Probabilities 0 and 1 *)

Lemma after_rolls_0 (w : World) : after_rolls w 0 = w.
Proof. destruct w as [[o c] t]. reflexivity. Qed.

Lemma after_rolls_roll (w : World) (k : nat) :
  after_rolls (after_roll w) k = after_rolls w (S k).
Proof.
  unfold after_rolls, after_roll. simpl. do 2 f_equal. lia.
Qed.

Lemma after_rolls_add (w : World) (a b : nat) :
  after_rolls (after_rolls w a) b = after_rolls w (a + b).
Proof.
  unfold after_rolls. simpl. do 2 f_equal. lia.
Qed.

Lemma roll_not_below (w : World) (p : Q) : p <= 0 -> Qltb (roll_of w) p = false.
Proof.
  intros Hp. apply Qltb_ge. eapply Qle_trans; [exact Hp|].
  apply roll_range.
Qed.

Lemma roll_below (w : World) (p : Q) : 1 <= p -> Qltb (roll_of w) p = true.
Proof.
  intros Hp. apply Qltb_lt. eapply Qlt_le_trans; [|exact Hp].
  apply roll_range.
Qed.

Lemma for_fold_skip {A B} (f : B -> A -> M B) (l : list A) (acc : B) :
  (forall a w, f acc a w = (inr acc, after_roll w)) ->
  forall w, for_fold f l acc w = (inr acc, after_rolls w (length l)).
Proof.
  intros Hf. induction l as [|a l IH]; intros w.
  - simpl. rewrite after_rolls_0. reflexivity.
  - cbn [for_fold length]. rewrite (bind_inr _ _ _ _ _ (Hf a w)), IH.
    rewrite after_rolls_roll. reflexivity.
Qed.

Lemma length_bind_uniform {A B} (f : A -> list B) (k : nat) (l : list A) :
  (forall a, length (f a) = k) -> length (l ≫= f) = (length l * k)%nat.
Proof.
  intros Hf. induction l as [|a l IH]; [reflexivity|].
  cbn [mbind list_bind length]. rewrite length_app, Hf. simpl in IH |- *.
  rewrite IH. reflexivity.
Qed.

Lemma length_set_subtree (off : list Individual) (i h : nat) (t : Tree) :
  length (set_subtree off i h t) = length off.
Proof.
  unfold set_subtree. destruct (off !! i); [apply length_insert|reflexivity].
Qed.

Lemma length_del_fitness (off : list Individual) (i : nat) :
  length (del_fitness off i) = length off.
Proof.
  unfold del_fitness. destruct (off !! i); [apply length_insert|reflexivity].
Qed.

Section Probabilities.

Context {TE : TreeEngine} {FE : FittingEngine}.

(** X9. With crossover and mutation probabilities of 0 (or less) the
    variation step calls no operator and returns the offspring as it was;
    it still draws its random numbers, one for each pair of neighbours and
    one for each subtree of each individual. *)
Theorem zero_probabilities_vary_nothing
    (population : list Individual) (toolbox : Toolbox) (cxpb mutpb : Q)
    (ntrees : nat) (w : World) :
  cxpb <= 0 -> mutpb <= 0 ->
  _my_varAnd population toolbox cxpb mutpb ntrees w
  = (inr population,
     after_rolls w (length population / 2 + length population * ntrees)).
Proof.
  intros Hc Hm. unfold _my_varAnd.
  assert (Hmate : forall i w0,
            varAnd_mate toolbox cxpb ntrees population i w0
            = (inr population, after_roll w0)).
  { intros i w0. unfold varAnd_mate.
    rewrite (bind_inr _ _ _ _ _ (random_run w0)), roll_not_below by exact Hc.
    reflexivity. }
  assert (Hmut : forall ih w0,
            varAnd_mutate toolbox mutpb population ih w0
            = (inr population, after_roll w0)).
  { intros ih w0. unfold varAnd_mutate.
    rewrite (bind_inr _ _ _ _ _ (random_run w0)), roll_not_below by exact Hm.
    reflexivity. }
  rewrite (bind_inr _ _ _ _ _ (for_fold_skip _ _ _ Hmate w)).
  rewrite (for_fold_skip _ _ _ Hmut).
  rewrite after_rolls_add. do 3 f_equal.
  - unfold odd_range. rewrite length_fmap, length_seq. reflexivity.
  - rewrite (length_bind_uniform _ ntrees).
    + rewrite length_seq. reflexivity.
    + intros i. rewrite length_fmap, length_seq. reflexivity.
Qed.

Lemma varAnd_mate_length (toolbox : Toolbox) (cxpb : Q) (ntrees : nat)
    (off : list Individual) (i : nat) (w : World) off' w' :
  varAnd_mate toolbox cxpb ntrees off i w = (inr off', w') ->
  length off' = length off
  /\ forall k, invalid_at off k -> invalid_at off' k.
Proof.
  unfold varAnd_mate. intros H.
  proceed H as roll w1 _.
  destruct (Qltb roll cxpb); [|injection H as <- _; auto].
  proceed H as h w2 _.
  proceed H as ind1 w3 _.
  proceed H as ind2 w4 _.
  proceed H as u w5 _.
  proceed H as children w6 _.
  destruct children as [|c1 [|c2 [|? ?]]]; try discriminate.
  injection H as <- _. split.
  - rewrite !length_del_fitness, !length_set_subtree. reflexivity.
  - intros k Hk. do 2 apply invalid_at_del_fitness.
    do 2 apply invalid_at_set_subtree. exact Hk.
Qed.

Lemma varAnd_mutate_certain (toolbox : Toolbox) (mutpb : Q)
    (off : list Individual) (i h : nat) (w : World) off' w' :
  1 <= mutpb ->
  varAnd_mutate toolbox mutpb off (i, h) w = (inr off', w') ->
  length off' = length off
  /\ invalid_at off' i
  /\ forall k, invalid_at off k -> invalid_at off' k.
Proof.
  unfold varAnd_mutate. intros Hp H. cbn [fst snd] in H.
  rewrite (bind_inr _ _ _ _ _ (random_run w)), roll_below in H by exact Hp.
  proceed H as ind w3 H1.
  apply get_subtree_run in H1 as [-> Hs1].
  proceed H as u w5 _.
  proceed H as children w6 _.
  destruct children as [|c1 [|? ?]]; try discriminate.
  injection H as <- _. split; [|split].
  - rewrite length_del_fitness, length_set_subtree. reflexivity.
  - apply del_fitness_invalidates. apply is_Some_set_subtree. exact Hs1.
  - intros k Hk. apply invalid_at_del_fitness, invalid_at_set_subtree. exact Hk.
Qed.

Lemma mutate_loop_certain (toolbox : Toolbox) (mutpb : Q) (l : list (nat * nat)) :
  1 <= mutpb ->
  forall off w off' w',
    for_fold (varAnd_mutate toolbox mutpb) l off w = (inr off', w') ->
    length off' = length off
    /\ (forall ih, ih ∈ l -> invalid_at off' ih.1)
    /\ forall k, invalid_at off k -> invalid_at off' k.
Proof.
  intros Hp. induction l as [|[i h] l IH]; intros off w off' w' H; simpl in H.
  - injection H as <- _. split; [reflexivity|]. split; [|auto].
    intros ih Hin. inversion Hin.
  - proceed H as off1 w1 H1.
    apply varAnd_mutate_certain in H1 as (Hl1 & Hi1 & Hk1); [|exact Hp].
    apply IH in H as (Hl & Hi & Hk).
    split; [congruence|]. split.
    + intros ih Hin. apply elem_of_cons in Hin as [->|Hin]; [|apply Hi; exact Hin].
      apply Hk. exact Hi1.
    + intros k Hk0. apply Hk, Hk1, Hk0.
Qed.

(** X10. With a mutation probability of 1 (or more) and at least one
    subtree per individual, every individual of the offspring is mutated:
    when the variation step returns, the offspring has the size of the pool
    and every fitness in it is invalid, so that the evaluation that follows
    evaluates every individual. *)
Theorem certain_mutation_invalidates_everyone
    (population : list Individual) (toolbox : Toolbox) (cxpb mutpb : Q)
    (ntrees : nat) (w : World) offspring w' :
  1 <= mutpb -> (1 <= ntrees)%nat ->
  _my_varAnd population toolbox cxpb mutpb ntrees w = (inr offspring, w') ->
  length offspring = length population
  /\ Forall (fun ind => valid (fitness ind) = false) offspring
  /\ invalid_individuals offspring = offspring.
Proof.
  intros Hp Hn H. unfold _my_varAnd in H.
  proceed H as off1 w1 H1.
  assert (Hl1 : length off1 = length population).
  { eapply (for_fold_invariant _ (fun off => length off = length population));
      [|exact H1|reflexivity].
    intros acc a s acc' s' _ Hs Hacc.
    apply varAnd_mate_length in Hs as [Hs _]. congruence. }
  apply mutate_loop_certain in H as (Hl & Hi & _); [|exact Hp].
  assert (Hall : Forall (fun ind => valid (fitness ind) = false) offspring).
  { apply Forall_forall. intros ind Hin.
    apply list_elem_of_lookup_1 in Hin as [i Hi0].
    pose proof (lookup_lt_Some _ _ _ Hi0) as Hlt.
    destruct (Hi (i, 0%nat)) as (ind' & E & Hv).
    - apply list_elem_of_bind. exists i. split.
      + apply list_elem_of_fmap. exists 0%nat. split; [reflexivity|].
        apply elem_of_seq. lia.
      + apply elem_of_seq. lia.
    - simpl in E. congruence. }
  split; [congruence|]. split; [exact Hall|].
  unfold invalid_individuals. clear -Hall.
  induction Hall as [|ind l Hv _ IH]; [reflexivity|].
  simpl. rewrite Hv. simpl. f_equal. exact IH.
Qed.

End Probabilities.

Section ProbabilityRuns.

Import Toy.

(** Two individuals with a valid fitness and two subtrees each: with
    probabilities 0 they come back as they were, five random numbers
    later; with a mutation probability of 1 both come back invalid. *)
Lemma zero_probabilities_vary_nothing_witness :
  let scored_ind := {| trees := [leaf; leaf];
                       fitness := {| weights := [1.0]; wvalues := [1] |} |} in
  _my_varAnd [scored_ind; scored_ind] (fit_toolbox config x10 None None)
             0 0 2 (world 0)
  = (inr [scored_ind; scored_ind], after_rolls (world 0) 5).
Proof.
  intros scored_ind.
  exact (zero_probabilities_vary_nothing [scored_ind; scored_ind]
           (fit_toolbox config x10 None None) 0 0 2 (world 0)
           (Qle_refl 0) (Qle_refl 0)).
Defined.

Lemma certain_mutation_invalidates_everyone_witness :
  let scored_ind := {| trees := [leaf; leaf];
                       fitness := {| weights := [1.0]; wvalues := [1] |} |} in
  exists offspring w',
    _my_varAnd [scored_ind; scored_ind] (fit_toolbox config x10 None None)
               0 1 2 (world 0) = (inr offspring, w')
    /\ length offspring = 2%nat
    /\ Forall (fun ind => valid (fitness ind) = false) offspring.
Proof.
  intros scored_ind.
  destruct (_my_varAnd [scored_ind; scored_ind] (fit_toolbox config x10 None None)
              0 1 2 (world 0)) as [r w'] eqn:E.
  assert (Er : exists offspring, r = inr offspring).
  { vm_compute in E. injection E as <- _. eexists. reflexivity. }
  destruct Er as [offspring ->]. exists offspring, w'. split; [reflexivity|].
  destruct (certain_mutation_invalidates_everyone [scored_ind; scored_ind]
              (fit_toolbox config x10 None None) 0 1 2 (world 0) offspring w'
              (Qle_refl 1) ltac:(lia) E) as (Hl & Hall & _).
  split; [exact Hl|exact Hall].
Defined.

End ProbabilityRuns.

(** ** Where the operators are applied *)

Lemma randint_range (a b : Z) (w : World) h w' :
  random.randint a b w = (inr h, w') -> (a <= h <= b)%Z.
Proof.
  unfold random.randint. destruct (Z.ltb_spec b a) as [Hlt|Hge]; [discriminate|].
  intros H. proceed H as k w1 _. injection H as <- _.
  pose proof (Z.mod_pos_bound (Z.of_N k) (b - a + 1) ltac:(lia)). lia.
Qed.

Lemma operated_app (evs1 evs2 : list Event) (k h : nat) :
  operated (evs1 ++ evs2) k h <-> operated evs1 k h \/ operated evs2 k h.
Proof.
  unfold operated. split.
  - intros [(j & H)|H]; rewrite !elem_of_app in H.
    + destruct H as [[H|H]|[H|H]]; [left|right|left|right]; left; exists j; auto.
    + destruct H as [H|H]; [left|right]; right; exact H.
  - intros [[(j & H)|H]|[(j & H)|H]].
    + left. exists j. rewrite !elem_of_app. tauto.
    + right. rewrite elem_of_app. tauto.
    + left. exists j. rewrite !elem_of_app. tauto.
    + right. rewrite elem_of_app. tauto.
Qed.

Lemma operated_nil (k h : nat) : ~ operated [] k h.
Proof. intros [(j & [H|H])|H]; inversion H. Qed.

Lemma subtree_at_set_subtree (off : list Individual) (i h k h' : nat) (t : Tree) :
  k <> i \/ h' <> h ->
  subtree_at (set_subtree off i h t) k h' = subtree_at off k h'.
Proof.
  intros Hne. unfold set_subtree, subtree_at.
  destruct (off !! i) as [ind|] eqn:E; [|reflexivity].
  destruct (decide (k = i)) as [->|Hk].
  - rewrite list_lookup_insert_eq by (eapply lookup_lt_Some; exact E).
    rewrite E. simpl. apply list_lookup_insert_ne. destruct Hne; congruence.
  - rewrite list_lookup_insert_ne by congruence. reflexivity.
Qed.

Lemma subtree_at_del_fitness (off : list Individual) (i k h : nat) :
  subtree_at (del_fitness off i) k h = subtree_at off k h.
Proof.
  unfold del_fitness, subtree_at.
  destruct (off !! i) as [ind|] eqn:E; [|reflexivity].
  destruct (decide (k = i)) as [->|Hk].
  - rewrite list_lookup_insert_eq by (eapply lookup_lt_Some; exact E).
    rewrite E. reflexivity.
  - rewrite list_lookup_insert_ne by congruence. reflexivity.
Qed.

Lemma sizes_set_subtree (off : list Individual) (i h : nat) (t : Tree) :
  (fun ind => length (trees ind)) <$> set_subtree off i h t
  = (fun ind => length (trees ind)) <$> off.
Proof.
  unfold set_subtree. destruct (off !! i) as [ind|] eqn:E; [|reflexivity].
  rewrite list_fmap_insert. cbn [trees]. rewrite length_insert.
  apply list_insert_id. rewrite list_lookup_fmap, E. reflexivity.
Qed.

Lemma sizes_del_fitness (off : list Individual) (i : nat) :
  (fun ind => length (trees ind)) <$> del_fitness off i
  = (fun ind => length (trees ind)) <$> off.
Proof.
  unfold del_fitness. destruct (off !! i) as [ind|] eqn:E; [|reflexivity].
  rewrite list_fmap_insert. cbn [trees].
  apply list_insert_id. rewrite list_lookup_fmap, E. reflexivity.
Qed.

Lemma locally_varied_refl (P : Event -> Prop) (n ntrees : nat)
    (off : list Individual) (w : World) :
  locally_varied P n ntrees (off, w) (off, w).
Proof.
  exists []. simpl. rewrite app_nil_r. repeat split; constructor.
Qed.

Lemma locally_varied_trans (P : Event -> Prop) (n ntrees : nat)
    (a b c : list Individual * World) :
  locally_varied P n ntrees a b -> locally_varied P n ntrees b c ->
  locally_varied P n ntrees a c.
Proof.
  intros (evs1 & Ht1 & Hp1 & Hw1 & Hs1 & Hf1) (evs2 & Ht2 & Hp2 & Hw2 & Hs2 & Hf2).
  exists (evs1 ++ evs2). split; [rewrite Ht2, Ht1, app_assoc; reflexivity|].
  split; [apply Forall_app; split; assumption|].
  split; [apply Forall_app; split; assumption|].
  split; [congruence|].
  intros k h Hk. rewrite Hf2, Hf1; [reflexivity| |];
    intros H; apply Hk; apply operated_app; auto.
Qed.

Lemma locally_varied_weaken (P Q : Event -> Prop) (n ntrees : nat)
    (a b : list Individual * World) :
  (forall ev, P ev -> Q ev) ->
  locally_varied P n ntrees a b -> locally_varied Q n ntrees a b.
Proof.
  intros HPQ (evs & Ht & Hp & Hrest). exists evs. split; [exact Ht|].
  split; [|exact Hrest]. eapply Forall_impl; [exact Hp|exact HPQ].
Qed.

Lemma for_fold_local {A} (P : Event -> Prop) (n ntrees : nat)
    (f : list Individual -> A -> M (list Individual)) (l : list A) :
  (forall acc a w acc' w', a ∈ l -> f acc a w = (inr acc', w') ->
                           locally_varied P n ntrees (acc, w) (acc', w')) ->
  forall acc w res w',
    for_fold f l acc w = (inr res, w') ->
    locally_varied P n ntrees (acc, w) (res, w').
Proof.
  induction l as [|a l IH]; intros Hstep acc w res w' H; simpl in H.
  - injection H as <- <-. apply locally_varied_refl.
  - proceed H as acc1 w1 H1.
    eapply locally_varied_trans.
    + eapply Hstep; [left|exact H1].
    + eapply IH; [|exact H]. intros. eapply Hstep; [right|]; eassumption.
Qed.

Section LocalVariation.

Context {TE : TreeEngine} {FE : FittingEngine}.

Lemma varAnd_mate_local (toolbox : Toolbox) (cxpb : Q) (n ntrees : nat)
    (off : list Individual) (i : nat) (w : World) off' w' :
  (forall args, silent (tb_mate toolbox args)) ->
  (exists k0 : nat, i = (2 * k0 + 1)%nat) ->
  (i < n)%nat ->
  varAnd_mate toolbox cxpb ntrees off i w = (inr off', w') ->
  locally_varied is_mate_event n ntrees (off, w) (off', w').
Proof.
  intros Hsilent [k0 Hk0] Hi H. unfold varAnd_mate in H.
  proceed H as roll w1 Hr.
  apply silent_random in Hr.
  destruct (Qltb roll cxpb).
  2:{ injection H as <- <-. exists []. simpl. rewrite app_nil_r.
      split; [congruence|]. repeat split; constructor. }
  proceed H as h w2 Hh.
  pose proof (randint_range _ _ _ _ _ Hh) as Hrange.
  apply silent_randint in Hh.
  proceed H as ind1 w3 H1.
  apply get_subtree_run in H1 as [-> Hs1].
  proceed H as ind2 w4 H2.
  apply get_subtree_run in H2 as [-> Hs2].
  rewrite (bind_inr _ _ _ _ _ (emit_run _ _)) in H.
  proceed H as children w6 Hm.
  apply Hsilent in Hm. simpl in Hm.
  destruct children as [|c1 [|c2 [|? ?]]]; try discriminate.
  injection H as <- <-.
  set (hc := Z.to_nat h) in *.
  exists [EvMate (i - 1) i hc]. cbn [fst snd].
  split; [congruence|]. split; [repeat constructor|].
  split.
  { repeat constructor; [exists k0; lia|exact Hi|unfold hc; lia]. }
  split.
  { rewrite !sizes_del_fitness, !sizes_set_subtree. reflexivity. }
  intros k h' Hk.
  assert (Hne : (k <> (i - 1)%nat /\ k <> i) \/ h' <> hc).
  { destruct (decide (h' = hc)) as [->|Hh']; [left|right; exact Hh'].
    split; intros ->; apply Hk; left.
    - exists i. left. left.
    - exists (i - 1)%nat. right. left. }
  rewrite !subtree_at_del_fitness.
  rewrite !subtree_at_set_subtree by tauto. reflexivity.
Qed.

Lemma varAnd_mutate_local (toolbox : Toolbox) (mutpb : Q) (n ntrees : nat)
    (off : list Individual) (i h : nat) (w : World) off' w' :
  (forall args, silent (tb_mutate toolbox args)) ->
  (i < n)%nat -> (h < ntrees)%nat ->
  varAnd_mutate toolbox mutpb off (i, h) w = (inr off', w') ->
  locally_varied is_mutate_event n ntrees (off, w) (off', w').
Proof.
  intros Hsilent Hi Hh H. unfold varAnd_mutate in H. cbn [fst snd] in H.
  proceed H as roll w1 Hr.
  apply silent_random in Hr.
  destruct (Qltb roll mutpb).
  2:{ injection H as <- <-. exists []. simpl. rewrite app_nil_r.
      split; [congruence|]. repeat split; constructor. }
  proceed H as ind w3 H1.
  apply get_subtree_run in H1 as [-> Hs1].
  rewrite (bind_inr _ _ _ _ _ (emit_run _ _)) in H.
  proceed H as children w6 Hm.
  apply Hsilent in Hm. simpl in Hm.
  destruct children as [|c1 [|? ?]]; try discriminate.
  injection H as <- <-.
  exists [EvMutate i h]. cbn [fst snd].
  split; [congruence|]. split; [repeat constructor|].
  split; [repeat constructor; assumption|].
  split.
  { rewrite sizes_del_fitness, sizes_set_subtree. reflexivity. }
  intros k h' Hk.
  assert (Hne : k <> i \/ h' <> h).
  { destruct (decide (k = i)) as [->|]; [right|left; assumption].
    intros ->. apply Hk. right. left. }
  rewrite subtree_at_del_fitness, subtree_at_set_subtree by exact Hne.
  reflexivity.
Qed.

(** The two loops of the variation step. *)
Lemma my_varAnd_local (toolbox : Toolbox) (population : list Individual)
    (cxpb mutpb : Q) (ntrees : nat) (w : World) offspring w' :
  (forall args, silent (tb_mate toolbox args)) ->
  (forall args, silent (tb_mutate toolbox args)) ->
  _my_varAnd population toolbox cxpb mutpb ntrees w = (inr offspring, w') ->
  exists off1 w1,
    locally_varied is_mate_event (length population) ntrees
                   (population, w) (off1, w1)
    /\ locally_varied is_mutate_event (length population) ntrees
                      (off1, w1) (offspring, w').
Proof.
  intros Hmate Hmut H. unfold _my_varAnd in H.
  proceed H as off1 w1 H1.
  exists off1, w1.
  assert (L1 : locally_varied is_mate_event (length population) ntrees
                 (population, w) (off1, w1)).
  { eapply for_fold_local; [|exact H1].
    intros acc i w0 acc' w0' Hi Hs.
    unfold odd_range in Hi. apply list_elem_of_fmap in Hi as (k0 & -> & Hk).
    apply elem_of_seq in Hk.
    eapply varAnd_mate_local; [exact Hmate|exists k0; reflexivity| |exact Hs].
    pose proof (Nat.Div0.mul_div_le (length population) 2). lia. }
  split; [exact L1|].
  assert (Hlen : length off1 = length population).
  { destruct L1 as (evs & _ & _ & _ & Hs & _). cbn [fst] in Hs.
    apply (f_equal length) in Hs. rewrite !length_fmap in Hs. exact Hs. }
  eapply for_fold_local; [|exact H].
  intros acc [i h] w0 acc' w0' Hi Hs.
  apply list_elem_of_bind in Hi as (i' & Hi & Hi').
  apply list_elem_of_fmap in Hi as (h' & E & Hh'). injection E as -> ->.
  apply elem_of_seq in Hi', Hh'.
  eapply varAnd_mutate_local; [exact Hmut| | |exact Hs]; lia.
Qed.

(** X11. The calls the variation step makes to the operators, in a
    successful run: first the matings, then the mutations. A mating is of
    the two neighbours at positions [2k] and [2k+1] of the offspring, at one
    subtree index below [ntrees]; a mutation is of one subtree of one
    individual. The last individual of an offspring of odd size is never
    mated, and the offspring keeps its size. *)
Theorem variation_calls_are_well_placed
    (self : Config) (x_train : Array2) (x_dot_train : option Array2)
    (time_rec_obs : option TimeSpec)
    (pool : list Individual) (cxpb mutpb : Q) (ntrees : nat)
    (w : World) offspring w' :
  _my_varAnd pool (fit_toolbox self x_train x_dot_train time_rec_obs)
             cxpb mutpb ntrees w = (inr offspring, w') ->
  exists matings mutations,
    trace w' = trace w ++ matings ++ mutations
    /\ Forall is_mate_event matings
    /\ Forall is_mutate_event mutations
    /\ Forall (well_placed (length pool) ntrees) (matings ++ mutations)
    /\ (Nat.Odd (length pool) -> ~ mated (matings ++ mutations) (length pool - 1))
    /\ length offspring = length pool.
Proof.
  intros H.
  destruct (fit_toolbox_silent self x_train x_dot_train time_rec_obs) as [Hm Hu].
  apply my_varAnd_local in H as (off1 & w1 & L1 & L2); [|exact Hm|exact Hu].
  destruct L1 as (evs1 & Ht1 & Hp1 & Hw1 & Hs1 & _).
  destruct L2 as (evs2 & Ht2 & Hp2 & Hw2 & Hs2 & _).
  cbn [fst snd] in *.
  assert (Hwp : Forall (well_placed (length pool) ntrees) (evs1 ++ evs2))
    by (apply Forall_app; split; assumption).
  exists evs1, evs2. split; [rewrite Ht2, Ht1, app_assoc; reflexivity|].
  split; [exact Hp1|]. split; [exact Hp2|]. split; [exact Hwp|].
  split.
  - intros [m Hodd] (j & h & Hin). rewrite Forall_forall in Hwp.
    destruct Hin as [Hin|Hin]; apply Hwp in Hin;
      destruct Hin as ((k & Hi & Hj) & Hlt & _); lia.
  - rewrite Hs1 in Hs2. apply (f_equal length) in Hs2.
    rewrite !length_fmap in Hs2. exact Hs2.
Qed.

(** X12. The variation step changes nothing but the subtrees it hands to
    an operator: in a successful run every individual keeps its number of
    subtrees, and subtree [h] of position [k] is the one of the pool unless
    position [k] was mated at subtree index [h] or mutated at it. *)
Theorem variation_changes_operated_subtrees_only
    (self : Config) (x_train : Array2) (x_dot_train : option Array2)
    (time_rec_obs : option TimeSpec)
    (pool : list Individual) (cxpb mutpb : Q) (ntrees : nat)
    (w : World) offspring w' :
  _my_varAnd pool (fit_toolbox self x_train x_dot_train time_rec_obs)
             cxpb mutpb ntrees w = (inr offspring, w') ->
  exists evs,
    trace w' = trace w ++ evs
    /\ (fun ind => length (trees ind)) <$> offspring
       = (fun ind => length (trees ind)) <$> pool
    /\ forall k h, ~ operated evs k h ->
                   subtree_at offspring k h = subtree_at pool k h.
Proof.
  intros H.
  destruct (fit_toolbox_silent self x_train x_dot_train time_rec_obs) as [Hm Hu].
  apply my_varAnd_local in H as (off1 & w1 & L1 & L2); [|exact Hm|exact Hu].
  apply (locally_varied_weaken _ (fun _ => True)) in L1; [|auto].
  apply (locally_varied_weaken _ (fun _ => True)) in L2; [|auto].
  destruct (locally_varied_trans _ _ _ _ _ _ L1 L2) as (evs & Ht & _ & _ & Hs & Hf).
  exists evs. auto.
Qed.

End LocalVariation.

Section LocalVariationRuns.

Import Toy.

(** Three individuals of two subtrees: the first two are mated at subtree
    0, the third is not; every subtree is then mutated. *)
Lemma variation_calls_are_well_placed_witness :
  let scored_ind := {| trees := [leaf; leaf];
                       fitness := {| weights := [1.0]; wvalues := [1] |} |} in
  exists offspring w',
    _my_varAnd [scored_ind; scored_ind; scored_ind]
               (fit_toolbox config x10 None None) 0.7 0.8 2 (world 0)
    = (inr offspring, w')
    /\ trace w' = [EvMate 0 1 0; EvMutate 0 0; EvMutate 0 1; EvMutate 1 0;
                   EvMutate 1 1; EvMutate 2 0; EvMutate 2 1]
    /\ ~ mated (trace w') 2
    /\ length offspring = 3%nat.
Proof.
  intros scored_ind.
  destruct (_my_varAnd [scored_ind; scored_ind; scored_ind]
              (fit_toolbox config x10 None None) 0.7 0.8 2 (world 0))
    as [r w'] eqn:E.
  assert (Er : exists offspring, r = inr offspring
                 /\ trace w' = [EvMate 0 1 0; EvMutate 0 0; EvMutate 0 1;
                                EvMutate 1 0; EvMutate 1 1; EvMutate 2 0;
                                EvMutate 2 1]).
  { vm_compute in E. injection E as <- <-. eexists. split; reflexivity. }
  destruct Er as (offspring & -> & Htr).
  destruct (variation_calls_are_well_placed config x10 None None _ _ _ _ _ _ _ E)
    as (matings & mutations & Ht & _ & _ & _ & Hlast & Hlen).
  exists offspring, w'. split; [reflexivity|]. split; [exact Htr|].
  split; [|exact Hlen].
  simpl in Ht. rewrite Ht. apply Hlast. exists 1%nat. reflexivity.
Defined.

(** One individual of two subtrees, a mutation probability that lets the
    operator run: subtree 0 of position 0 is mutated by insertion, and so
    is subtree 1. With two individuals and no mutation, mating at subtree 0
    leaves the subtrees at index 1 as they were. *)
Lemma variation_changes_operated_subtrees_only_witness :
  let a := {| trees := [leaf; tree1];
              fitness := {| weights := [1.0]; wvalues := [1] |} |} in
  let b := {| trees := [tree1; tree2];
              fitness := {| weights := [1.0]; wvalues := [1] |} |} in
  exists offspring w',
    _my_varAnd [a; b] (fit_toolbox config x10 None None) 0.7 0 2 (world 0)
    = (inr offspring, w')
    /\ trace w' = [EvMate 0 1 0]
    /\ subtree_at offspring 0 1 = Some tree1
    /\ subtree_at offspring 1 1 = Some tree2
    /\ subtree_at offspring 0 0 = Some tree1.
Proof.
  intros a b.
  destruct (_my_varAnd [a; b] (fit_toolbox config x10 None None) 0.7 0 2 (world 0))
    as [r w'] eqn:E.
  assert (Er : exists offspring, r = inr offspring
                 /\ trace w' = [EvMate 0 1 0]
                 /\ subtree_at offspring 0 0 = Some tree1).
  { vm_compute in E. injection E as <- <-. eexists. repeat split. }
  destruct Er as (offspring & -> & Htr & H00).
  destruct (variation_changes_operated_subtrees_only config x10 None None
              _ _ _ _ _ _ _ E) as (evs & Ht & _ & Hframe).
  simpl in Ht. rewrite Htr in Ht. subst evs.
  exists offspring, w'. split; [reflexivity|]. split; [exact Htr|].
  assert (Hno : forall k, ~ operated [EvMate 0 1 0] k 1).
  { intros k [(j & [H|H])|H]; apply list_elem_of_singleton in H; discriminate. }
  split; [|split; [|exact H00]].
  - rewrite (Hframe 0%nat 1%nat (Hno _)). reflexivity.
  - rewrite (Hframe 1%nat 1%nat (Hno _)). reflexivity.
Defined.

End LocalVariationRuns.

(** * Further properties of the driver *)

(** ** The evaluation assigns in place *)

Lemma invalid_ind_elem (population : list Individual) (i : nat) (ind : Individual) :
  (i, ind) ∈ invalid_ind population ->
  population !! i = Some ind /\ valid (fitness ind) = false.
Proof.
  intros Hin. unfold invalid_ind in Hin.
  apply list_elem_of_In, filter_In in Hin as [Hin Hv].
  apply list_elem_of_In, elem_of_lookup_imap in Hin as (j & y & E & Hy).
  injection E as -> ->. split; [exact Hy|].
  simpl in Hv. apply negb_true_iff in Hv. exact Hv.
Qed.

Section InPlace.

Context {TE : TreeEngine} {FE : FittingEngine}.

Lemma evaluate_invalid_size (toolbox : Toolbox) (population : list Individual)
    (w : World) population' nevals w' :
  evaluate_invalid toolbox population w = (inr (population', nevals), w') ->
  length population' = length population
  /\ nevals = length (invalid_individuals population).
Proof.
  unfold evaluate_invalid. intros H.
  proceed H as pop1 w1 H1.
  injection H as <- <- <-. split.
  - eapply (for_fold_invariant _ (fun pop => length pop = length population));
      [|exact H1|reflexivity].
    intros acc [i ind] s acc' s' _ Hs Hacc.
    proceed Hs as fit w2 _.
    proceed Hs as ind' w3 _.
    injection Hs as <- _. rewrite length_insert. exact Hacc.
  - rewrite <- invalid_ind_individuals, length_fmap. reflexivity.
Qed.

(** X13. The evaluation phase assigns fitness values and nothing else,
    whatever function is registered as [evaluate]: when it returns, every
    individual has the subtrees and the fitness weights it had, an
    individual whose fitness was valid is unchanged, and the count it
    reports is the number of individuals whose fitness was invalid. *)
Theorem evaluation_assigns_in_place
    (toolbox : Toolbox) (population : list Individual) (w : World)
    population' nevals w' :
  evaluate_invalid toolbox population w = (inr (population', nevals), w') ->
  nevals = length (invalid_individuals population)
  /\ trees <$> population' = trees <$> population
  /\ (fun ind => weights (fitness ind)) <$> population'
     = (fun ind => weights (fitness ind)) <$> population
  /\ forall i ind, population !! i = Some ind -> valid (fitness ind) = true ->
                   population' !! i = Some ind.
Proof.
  intros H.
  pose proof (evaluate_invalid_size _ _ _ _ _ _ H) as [_ Hn].
  split; [exact Hn|].
  unfold evaluate_invalid in H.
  proceed H as pop1 w1 H1.
  injection H as <- _ _.
  eapply (for_fold_invariant _
            (fun pop =>
               trees <$> pop = trees <$> population
               /\ (fun ind => weights (fitness ind)) <$> pop
                  = (fun ind => weights (fitness ind)) <$> population
               /\ forall i ind, population !! i = Some ind ->
                                valid (fitness ind) = true -> pop !! i = Some ind));
    [|exact H1|auto].
  intros acc [i0 ind0] s acc' s' Hin Hs (Ht & Hw & Hv).
  apply invalid_ind_elem in Hin as [Hi0 Hinv].
  proceed Hs as fit w2 _.
  proceed Hs as ind' w3 Ha.
  injection Hs as <- _. cbn [fst snd] in *.
  destruct fit as [v|m]; [|discriminate]. injection Ha as <- _.
  split; [|split].
  - rewrite list_fmap_insert, Ht. cbn [trees].
    apply list_insert_id. rewrite list_lookup_fmap, Hi0. reflexivity.
  - rewrite list_fmap_insert, Hw. cbn [fitness set_values weights].
    apply list_insert_id. rewrite list_lookup_fmap, Hi0. reflexivity.
  - intros i ind Hi Hvalid.
    assert (i <> i0) by (intros ->; congruence).
    rewrite list_lookup_insert_ne by congruence. apply Hv; assumption.
Qed.

End InPlace.

Section InPlaceRuns.

Import Toy.

(** A valid individual and an invalid one: one evaluation, and the valid
    individual is unchanged. *)
Lemma evaluation_assigns_in_place_witness :
  let scored_ind := {| trees := [leaf; leaf];
                       fitness := {| weights := [1.0]; wvalues := [1] |} |} in
  let fresh_ind := {| trees := [tree1; leaf]; fitness := FitnessMax |} in
  exists population' w',
    evaluate_invalid (fit_toolbox config x10 None None) [scored_ind; fresh_ind]
                     (world 0)
    = (inr (population', 1%nat), w')
    /\ trees <$> population' = [[leaf; leaf]; [tree1; leaf]]
    /\ population' !! 0%nat = Some scored_ind.
Proof.
  intros scored_ind fresh_ind.
  destruct (evaluate_invalid (fit_toolbox config x10 None None)
              [scored_ind; fresh_ind] (world 0)) as [r w'] eqn:E.
  assert (Er : exists population', r = inr (population', 1%nat)).
  { vm_compute in E. injection E as <- _. eexists. reflexivity. }
  destruct Er as [population' ->]. exists population', w'.
  split; [reflexivity|].
  destruct (evaluation_assigns_in_place _ _ _ _ _ _ E) as (_ & Ht & _ & Hv).
  split; [exact Ht|]. apply Hv; reflexivity.
Defined.

End InPlaceRuns.

(** ** The population and the logbook *)

Lemma selTournament_length (tournsize : nat) (individuals : list Individual) :
  forall k w chosen w',
    selTournament tournsize individuals k w = (inr chosen, w') ->
    length chosen = k.
Proof.
  induction k as [|k IH]; intros w chosen w' H; simpl in H.
  - injection H as <- _. reflexivity.
  - proceed H as c w1 _.
    proceed H as rest w2 Hr.
    injection H as <- _. simpl. f_equal. eapply IH. exact Hr.
Qed.

Section Logbook.

Context {TE : TreeEngine} {FE : FittingEngine}.

Lemma varAnd_mutate_length (toolbox : Toolbox) (mutpb : Q)
    (off : list Individual) (ih : nat * nat) (w : World) off' w' :
  varAnd_mutate toolbox mutpb off ih w = (inr off', w') ->
  length off' = length off.
Proof.
  unfold varAnd_mutate. intros H.
  proceed H as roll w1 _.
  destruct (Qltb roll mutpb); [|injection H as <- _; reflexivity].
  proceed H as ind w3 _.
  proceed H as u w5 _.
  proceed H as children w6 _.
  destruct children as [|c1 [|? ?]]; try discriminate.
  injection H as <- _.
  rewrite length_del_fitness, length_set_subtree. reflexivity.
Qed.

Lemma my_varAnd_length (toolbox : Toolbox) (population : list Individual)
    (cxpb mutpb : Q) (ntrees : nat) (w : World) offspring w' :
  _my_varAnd population toolbox cxpb mutpb ntrees w = (inr offspring, w') ->
  length offspring = length population.
Proof.
  intros H. unfold _my_varAnd in H.
  proceed H as off1 w1 H1.
  eapply (for_fold_invariant _ (fun off => length off = length population));
    [|exact H|].
  - intros acc a s acc' s' _ Hs Hacc.
    apply varAnd_mutate_length in Hs. congruence.
  - eapply (for_fold_invariant _ (fun off => length off = length population));
      [|exact H1|reflexivity].
    intros acc a s acc' s' _ Hs Hacc.
    apply varAnd_mate_length in Hs as [Hs _]. congruence.
Qed.

Lemma generation_shape (toolbox : Toolbox) (cxpb mutpb : Q) (ntrees : nat)
    (population : list Individual) logbook halloffame (g : nat) (w : World)
    population' logbook' halloffame' w' :
  tb_select toolbox = selTournament 2 ->
  generation toolbox cxpb mutpb ntrees (population, logbook, halloffame) g w
  = (inr (population', logbook', halloffame'), w') ->
  length population' = length population
  /\ exists n, logbook' = logbook ++ [{| gen := g; nevals := n |}]
               /\ (n <= length population)%nat.
Proof.
  intros Hsel H. unfold generation in H.
  proceed H as pool w1 Hs.
  proceed H as off w2 Hv.
  proceed H as [off' n] w3 He.
  injection H as <- <- _ _.
  rewrite Hsel in Hs. apply selTournament_length in Hs.
  apply my_varAnd_length in Hv.
  apply evaluate_invalid_size in He as [Hl Hn].
  split; [congruence|]. exists n. split; [reflexivity|].
  subst n. unfold invalid_individuals.
  etransitivity; [apply filter_length_le|]. lia.
Qed.

Lemma generations_shape (toolbox : Toolbox) (cxpb mutpb : Q) (ntrees : nat) :
  tb_select toolbox = selTournament 2 ->
  forall gens population logbook halloffame w population' logbook' halloffame' w',
    for_fold (generation toolbox cxpb mutpb ntrees) gens
             (population, logbook, halloffame) w
    = (inr (population', logbook', halloffame'), w') ->
    length population' = length population
    /\ exists records,
         logbook' = logbook ++ records
         /\ gen <$> records = gens
         /\ Forall (fun r => (nevals r <= length population)%nat) records.
Proof.
  intros Hsel.
  induction gens as [|g gens IH];
    intros population logbook halloffame w population' logbook' halloffame' w' H;
    simpl in H.
  - injection H as <- <- _ _. split; [reflexivity|].
    exists []. rewrite app_nil_r. repeat split. constructor.
  - proceed H as [[pop1 log1] hof1] w1 H1.
    apply generation_shape in H1 as (Hl1 & n & -> & Hn); [|exact Hsel].
    apply IH in H as (Hl & records & -> & Hg & Hall).
    split; [congruence|].
    exists ({| gen := g; nevals := n |} :: records).
    split; [rewrite <- app_assoc; reflexivity|].
    split; [simpl; f_equal; exact Hg|].
    constructor; [exact Hn|]. rewrite Hl1 in Hall. exact Hall.
Qed.

Lemma my_eaSimple_shape (toolbox : Toolbox) (population : list Individual)
    (cxpb mutpb : Q) (ngen ntrees : nat) (halloffame : option HallOfFame)
    (w : World) population' logbook halloffame' w' :
  tb_select toolbox = selTournament 2 ->
  my_eaSimple population toolbox cxpb mutpb ngen ntrees halloffame w
  = (inr (population', logbook, halloffame'), w') ->
  length population' = length population
  /\ gen <$> logbook = seq 0 (S ngen)
  /\ head (nevals <$> logbook) = Some (length (invalid_individuals population))
  /\ Forall (fun r => (nevals r <= length population)%nat) logbook.
Proof.
  intros Hsel H. unfold my_eaSimple in H.
  proceed H as [pop1 n1] w1 H1.
  apply evaluate_invalid_size in H1 as [Hl1 Hn1].
  apply generations_shape in H as (Hl & records & -> & Hg & Hall); [|exact Hsel].
  split; [congruence|]. split; [simpl; f_equal; exact Hg|].
  split; [simpl; f_equal; exact Hn1|].
  constructor.
  - simpl. subst n1. unfold invalid_individuals. apply filter_length_le.
  - rewrite Hl1 in Hall. exact Hall.
Qed.

(** X14. The size of the population is the same in every generation, and
    the logbook has one record for each generation, numbered from 0 to
    [ngen]: when the driver returns, the population has the size it started
    with, the record of generation 0 counts the individuals whose fitness
    was invalid at the start, and no record counts more evaluations than
    there are individuals. For [fit], which starts from a fresh population,
    the population it stores has [n_individuals] members and generation 0
    evaluated all of them. *)
Theorem population_size_and_logbook
    (self : Config) (x_train : Array2) (x_dot_train : option Array2)
    (time_rec_obs : option TimeSpec) :
  (forall population cxpb mutpb ngen ntrees halloffame w
          population' logbook halloffame' w',
      my_eaSimple population (fit_toolbox self x_train x_dot_train time_rec_obs)
                  cxpb mutpb ngen ntrees halloffame w
      = (inr (population', logbook, halloffame'), w') ->
      length population' = length population
      /\ gen <$> logbook = seq 0 (S ngen)
      /\ head (nevals <$> logbook) = Some (length (invalid_individuals population))
      /\ Forall (fun r => (nevals r <= length population)%nat) logbook)
  /\ (forall w fitted w',
        fit self x_train x_dot_train time_rec_obs w = (inr fitted, w') ->
        length (fitted_population fitted) = n_individuals self
        /\ gen <$> fitted_log fitted = seq 0 (S (ngen self))
        /\ head (nevals <$> fitted_log fitted) = Some (n_individuals self)
        /\ Forall (fun r => (nevals r <= n_individuals self)%nat) (fitted_log fitted)).
Proof.
  split.
  - intros population cxpb mutpb ngen ntrees halloffame w
           population' logbook halloffame' w' H.
    eapply my_eaSimple_shape; [|exact H]. reflexivity.
  - intros w fitted w' H. unfold fit in H. cbn [configure_DEAP] in H.
    proceed H as pop0 w0 Hpop.
    proceed H as [[pop log] hof] w1 Hea.
    destruct hof as [hof|]; [|discriminate].
    destruct (items hof !! 0%nat) as [best|]; [|discriminate].
    proceed H as final w2 _.
    destruct final as [v|m]; [discriminate|].
    injection H as <- _. cbn [fitted_population fitted_log].
    cbn [tb_population register_retrieve_model register_evaluate] in Hpop.
    apply population_fresh in Hpop as (Hl0 & Hfresh & _).
    apply my_eaSimple_shape in Hea as (Hl & Hg & Hn & Hall); [|reflexivity].
    assert (Hinv : invalid_individuals pop0 = pop0).
    { unfold invalid_individuals. clear -Hfresh.
      induction Hfresh as [|ind l Hf _ IH]; [reflexivity|].
      simpl. rewrite Hf. simpl. f_equal. exact IH. }
    rewrite Hinv, Hl0 in Hn. rewrite Hl0 in Hl, Hall. auto.
Qed.

End Logbook.

Section LogbookRuns.

Import Toy.

(** A run of [fit] with two individuals and one generation: the population
    stored has two members, the logbook the records of generations 0 and 1,
    and generation 0 evaluated both individuals. *)
Lemma population_size_and_logbook_witness :
  exists fitted w',
    fit config x10 None None (world 0) = (inr fitted, w')
    /\ length (fitted_population fitted) = 2%nat
    /\ gen <$> fitted_log fitted = [0; 1]%nat
    /\ head (nevals <$> fitted_log fitted) = Some 2%nat.
Proof.
  destruct (fit config x10 None None (world 0)) as [r w'] eqn:E.
  assert (Er : exists fitted, r = inr fitted).
  { vm_compute in E. injection E as <- _. eexists. reflexivity. }
  destruct Er as [fitted ->]. exists fitted, w'. split; [reflexivity|].
  destruct (population_size_and_logbook config x10 None None) as [_ Hfit].
  destruct (Hfit _ _ _ E) as (Hl & Hg & Hn & _). auto.
Defined.

End LogbookRuns.

(** * Further properties of the configuration *)

(** ** The dictionary of slot names *)

Lemma insert_loop_S key val d a n :
  insert_loop key val d a (S n)
  = insert_loop key val (<[key a := val a]> d) (S a) n.
Proof. reflexivity. Qed.

Lemma insert_loop_dom key val n : forall a d s,
  is_Some (insert_loop key val d a n !! s) ->
  is_Some (d !! s) \/ exists i, (a <= i < a + n)%nat /\ s = key i.
Proof.
  induction n as [|n IH]; intros a d s Hs.
  - left. exact Hs.
  - rewrite insert_loop_S in Hs. apply IH in Hs as [Hs|(i & Hi & ->)].
    + apply lookup_insert_is_Some in Hs as [<-|[_ Hs]].
      * right. exists a. split; [lia|reflexivity].
      * left. exact Hs.
    + right. exists i. split; [lia|reflexivity].
Qed.

Lemma seq_split3 (a b c : nat) :
  seq 0 (a + b + c) = seq 0 a ++ (Nat.add a <$> seq 0 b) ++ seq (a + b) c.
Proof.
  rewrite <- Nat.add_assoc, seq_app, seq_app. simpl.
  rewrite fmap_add_seq, Nat.add_0_r. reflexivity.
Qed.

(** X15. The dictionary [_rename_args] builds has one entry for each
    argument slot and no other: [ARG{k}] is named [x{k}] for a state
    variable, [ARG{dimensions + i}] is named [x{i}] for a constant, and with
    time dependence the slot after these, [ARG{dimensions + nc}], is named
    [t]; the entry for the time never replaces another. Applied to the
    slots [ARG0], [ARG1], ... of the primitive set, the names are, in order,
    those of the state variables, those of the constants, and [t]. *)
Theorem rename_args_names_every_slot
    (nc dimensions : nat) (is_time_dependent : bool) (library_name : string) :
  let d := argnames nc dimensions is_time_dependent in
  let slots := (dimensions + nc + if is_time_dependent then 1 else 0)%nat in
  size d = slots
  /\ (forall k, (k < dimensions)%nat -> d !! ARG k = Some (xname k))
  /\ (forall i, (i < nc)%nat -> d !! ARG (dimensions + i) = Some (xname i))
  /\ (is_time_dependent = true -> d !! ARG (dimensions + nc) = Some "t")
  /\ (forall s, is_Some (d !! s) -> exists k, s = ARG k /\ (k < slots)%nat)
  /\ arguments (_rename_args
                  (library nc dimensions is_time_dependent library_name)
                  nc dimensions is_time_dependent)
     = (xname <$> seq 0 dimensions) ++ (xname <$> seq 0 nc)
       ++ (if is_time_dependent then ["t"] else []).
Proof.
  intros d slots.
  set (d0 := insert_loop (fun i => ARG (i + dimensions)) xname
               (insert_loop ARG xname ∅ 0 dimensions) 0 nc).
  assert (Hd : d = if is_time_dependent then <[ARG (size d0) := "t"]> d0 else d0)
    by apply argnames_loops.
  assert (Hsize0 : size d0 = (dimensions + nc)%nat) by apply argnames_size.
  assert (Hfresh : d0 !! ARG (dimensions + nc) = None).
  { unfold d0. rewrite insert_loop_miss.
    - rewrite insert_loop_miss; [apply lookup_empty|].
      intros j Hj E. apply ARG_inj in E. lia.
    - intros j Hj E. apply ARG_inj in E. lia. }
  assert (Hstate : forall k, (k < dimensions)%nat -> d !! ARG k = Some (xname k))
    by (intros k Hk; apply argnames_state; exact Hk).
  assert (Hconst : forall i, (i < nc)%nat ->
                             d !! ARG (dimensions + i) = Some (xname i))
    by (intros i Hi; apply argnames_constant; exact Hi).
  assert (Htime : is_time_dependent = true -> d !! ARG (dimensions + nc) = Some "t").
  { intros Ht. rewrite Hd, Ht, Hsize0. apply lookup_insert_eq. }
  split; [|split; [exact Hstate|split; [exact Hconst|split; [exact Htime|split]]]].
  - rewrite Hd. unfold slots. destruct is_time_dependent.
    + rewrite map_size_insert_None by (rewrite Hsize0; exact Hfresh). lia.
    + lia.
  - intros s Hs.
    assert (Hs0 : is_Some (d0 !! s) -> exists k, s = ARG k /\ (k < dimensions + nc)%nat).
    { intros H0. unfold d0 in H0.
      apply insert_loop_dom in H0 as [H0|(i & Hi & ->)].
      - apply insert_loop_dom in H0 as [H0|(i & Hi & ->)].
        + rewrite lookup_empty in H0. destruct H0 as [? H0]. discriminate.
        + exists i. split; [reflexivity|lia].
      - exists (i + dimensions)%nat. split; [reflexivity|lia]. }
    rewrite Hd in Hs. unfold slots. destruct is_time_dependent.
    + apply lookup_insert_is_Some in Hs as [<-|[_ Hs]].
      * exists (size d0). split; [reflexivity|lia].
      * destruct (Hs0 Hs) as (k & -> & Hk). exists k. split; [reflexivity|lia].
    + destruct (Hs0 Hs) as (k & -> & Hk). exists k. split; [reflexivity|lia].
  - unfold _rename_args, renameArguments, library. cbn [arguments].
    fold d. rewrite <- list_fmap_compose.
    rewrite seq_split3, !fmap_app, <- list_fmap_compose.
    f_equal; [|f_equal].
    + apply list_fmap_ext. intros j k Hk. apply lookup_seq in Hk as [-> Hk].
      unfold compose. fold (ARG (0 + j)). simpl. rewrite Hstate by exact Hk.
      reflexivity.
    + apply list_fmap_ext. intros j i Hi. apply lookup_seq in Hi as [-> Hi].
      unfold compose. fold (ARG (dimensions + (0 + j))). simpl.
      rewrite Hconst by exact Hi. reflexivity.
    + destruct is_time_dependent; [|reflexivity].
      cbn [seq fmap list_fmap compose]. fold (ARG (dimensions + nc)).
      rewrite Htime by reflexivity. reflexivity.
Qed.

(** * Plotting the best individual *)

Lemma half_floor (n : nat) :
  int (inject_Z (Qfloor (inject_Z (Z.of_nat n) / 2))) = Z.of_nat (n / 2).
Proof.
  rewrite int_inject_Z, Nat2Z.inj_div. change (Z.of_nat 2) with 2%Z.
  unfold Qfloor, Qdiv, Qmult, Qinv, inject_Z. cbn [Qnum Qden].
  rewrite Z.mul_1_r. reflexivity.
Qed.

Lemma half_ceiling (n : nat) :
  int (inject_Z (Qceiling (inject_Z (Z.of_nat n) / 2))) = Z.of_nat ((n + 1) / 2).
Proof.
  rewrite int_inject_Z, Nat2Z.inj_div, Nat2Z.inj_add.
  change (Z.of_nat 2) with 2%Z. change (Z.of_nat 1) with 1%Z.
  unfold Qceiling, Qfloor, Qopp, Qdiv, Qmult, Qinv, inject_Z. cbn [Qnum Qden].
  rewrite Z.mul_1_r. change (Z.pos (1 * 2)) with 2%Z.
  pose proof (Nat2Z.is_nonneg n) as Hn. revert Hn.
  generalize (Z.of_nat n) as z. intros z Hz.
  Z.div_mod_to_equations. lia.
Qed.

Lemma subplots_grid (nrows ncols : nat) :
  (1 <= nrows)%nat -> (1 <= ncols)%nat ->
  exists axs, subplots (Z.of_nat nrows) (Z.of_nat ncols) = inr axs
              /\ length axs = (nrows * ncols)%nat.
Proof.
  intros Hr Hc. unfold subplots.
  destruct (Z.leb_spec (Z.of_nat nrows) 0); [lia|].
  destruct (Z.leb_spec (Z.of_nat ncols) 0); [lia|].
  eexists. split; [reflexivity|].
  rewrite (length_bind_uniform _ ncols).
  - rewrite length_seq, Nat2Z.id. reflexivity.
  - intros r. rewrite length_fmap, length_seq, Nat2Z.id. reflexivity.
Qed.

Lemma draw_all_zip (expr : list Tree) (axs : list (nat * nat)) :
  forall (n a : nat),
    (a + n <= length expr)%nat ->
    draw_all expr (zip (seq a n) axs) = inr (zip (take n (drop a expr)) axs).
Proof.
  intros n. revert axs.
  induction n as [|n IH]; intros axs a Hlen; [reflexivity|].
  destruct axs as [|ax axs].
  - simpl. destruct (drop a expr); reflexivity.
  - destruct (lookup_lt_is_Some_2 expr a ltac:(lia)) as [t Ht].
    cbn [seq zip zip_with draw_all]. rewrite Ht.
    rewrite (IH axs (S a)) by lia.
    rewrite (drop_S _ _ _ Ht). reflexivity.
Qed.

Lemma zip_fst_take {A B} (l : list A) (k : list B) :
  (zip l k).*1 = take (length k) l.
Proof.
  revert k. induction l as [|x l IH]; intros [|y k]; simpl; try reflexivity.
  - f_equal. apply IH.
Qed.

Lemma grid_covers (n : nat) :
  (2 <= n)%nat ->
  (1 <= n / 2)%nat /\ (1 <= (n + 1) / 2)%nat
  /\ (4 <= n -> n <= n / 2 * ((n + 1) / 2))%nat
  /\ (n < 4 -> n / 2 * ((n + 1) / 2) = n - 1)%nat.
Proof.
  intros Hn.
  pose proof (Nat.div_mod_eq n 2) as E1.
  pose proof (Nat.mod_upper_bound n 2 ltac:(lia)) as B1.
  pose proof (Nat.div_mod_eq (n + 1) 2) as E2.
  pose proof (Nat.mod_upper_bound (n + 1) 2 ltac:(lia)) as B2.
  repeat split; try lia.
  - intros H4. nia.
  - intros H4. assert (n = 2 \/ n = 3)%nat as [-> | ->] by lia; reflexivity.
Qed.

(** X16. [plot_trees] lays out a grid of [floor(ntrees/2)] rows and
    [ceil(ntrees/2)] columns and draws the subtrees of the best individual
    on its axes, one each, as far as the shorter of the two goes. With four
    subtrees or more every subtree is drawn; with two or three the last one
    is left out; with fewer than two the grid has no row and the call
    fails. *)
Theorem plot_trees_grid (ntrees : nat) (hof : HallOfFame) (best : Individual) :
  items hof !! 0%nat = Some best ->
  length (trees best) = ntrees ->
  ((ntrees < 2)%nat -> exists e, plot_trees ntrees hof = inl e)
  /\ ((2 <= ntrees)%nat ->
      exists drawn ax,
        plot_trees ntrees hof = inr (drawn, ax)
        /\ drawn.*1 = take (ntrees / 2 * ((ntrees + 1) / 2)) (trees best)
        /\ ((4 <= ntrees)%nat -> drawn.*1 = trees best)
        /\ ((ntrees < 4)%nat -> drawn.*1 = take (ntrees - 1) (trees best))).
Proof.
  intros Hbest Hlen. unfold plot_trees. rewrite Hbest. cbv zeta.
  rewrite half_floor, half_ceiling. split.
  - intros Hn. assert (E : (ntrees / 2 = 0)%nat).
    { apply Nat.div_small_iff; lia. }
    rewrite E. simpl. eexists. reflexivity.
  - intros Hn. destruct (grid_covers ntrees Hn) as (Hr & Hc & Hall & Hfew).
    destruct (subplots_grid _ _ Hr Hc) as (axs & -> & Haxs).
    rewrite draw_all_zip by (simpl; lia).
    rewrite drop_0, take_ge by lia.
    assert (Hfst : (zip (trees best) axs).*1
                   = take (ntrees / 2 * ((ntrees + 1) / 2)) (trees best)).
    { rewrite zip_fst_take, Haxs. reflexivity. }
    destruct (last (zip (trees best) axs)) as [[t ax]|] eqn:Elast.
    + eexists _, ax. split; [reflexivity|]. split; [exact Hfst|]. split.
      * intros H4. rewrite Hfst. apply take_ge. specialize (Hall H4). lia.
      * intros H4. rewrite Hfst, (Hfew H4). reflexivity.
    + exfalso. apply last_None in Elast.
      apply (f_equal (fmap fst)) in Elast. rewrite Hfst in Elast.
      apply (f_equal length) in Elast. rewrite length_take in Elast.
      change (length ([] : list (Tree * (nat * nat))).*1) with 0%nat in Elast.
      rewrite Hlen in Elast.
      assert (1 <= ntrees / 2 * ((ntrees + 1) / 2))%nat by nia. lia.
Qed.

Section PlotRuns.

Import Toy.

(** Three subtrees: a grid of one row and two columns, on which the first
    two subtrees are drawn; the third is not. One subtree: no grid. *)
Lemma plot_trees_grid_witness :
  plot_trees 3 {| maxsize := 1;
                  items := [{| trees := [leaf; tree1; tree2];
                               fitness := FitnessMax |}] |}
  = inr ([(leaf, (0, 0)); (tree1, (0, 1))]%nat, (0, 1)%nat)
  /\ exists e, plot_trees 1 {| maxsize := 1;
                              items := [{| trees := [leaf];
                                           fitness := FitnessMax |}] |} = inl e.
Proof.
  split.
  - destruct (plot_trees_grid 3
                {| maxsize := 1;
                   items := [{| trees := [leaf; tree1; tree2];
                                fitness := FitnessMax |}] |}
                {| trees := [leaf; tree1; tree2]; fitness := FitnessMax |}
                eq_refl eq_refl) as [_ H].
    destruct (H ltac:(lia)) as (drawn & ax & E & _).
    rewrite E. vm_compute in E. injection E as <- <-. reflexivity.
  - destruct (plot_trees_grid 1
                {| maxsize := 1;
                   items := [{| trees := [leaf]; fitness := FitnessMax |}] |}
                {| trees := [leaf]; fitness := FitnessMax |}
                eq_refl eq_refl) as [H _].
    exact (H ltac:(lia)).
Defined.

End PlotRuns.

(** * The earlier variant *)

Section EarlierVariant.

Context {TE : TreeEngine} {FE : FittingEngine}.

(** X17. [my_eaSimple] of the variant cannot return: after its loop it
    reads [models], which is assigned only when [gen == ngen + 1], and the
    loop leaves [gen] at [ngen] (or unassigned, without a generation). Every
    call ends with an error; when the loop itself ran to its end, the error
    is the [UnboundLocalError]. *)
Theorem variant_driver_never_returns
    (population : list Individual) (toolbox : Toolbox) (cxpb mutpb : Q)
    (ngen ntrees : nat) (halloffame : option HallOfFame) (verbose : bool)
    (w : World) :
  (exists e w',
      main_tmp.my_eaSimple population toolbox cxpb mutpb ngen ntrees halloffame
                           verbose w = (inl e, w'))
  /\ forall state w1,
       main_tmp.evolve population toolbox cxpb mutpb ngen ntrees halloffame
                       verbose w = (inr state, w1) ->
       main_tmp.my_eaSimple population toolbox cxpb mutpb ngen ntrees halloffame
                            verbose w
       = (inl (OtherError "UnboundLocalError"
                 (if (ngen =? 0)%nat
                  then "local variable 'gen' referenced before assignment"
                  else "local variable 'models' referenced before assignment")),
          w1).
Proof.
  assert (Htail : forall state w1,
    main_tmp.evolve population toolbox cxpb mutpb ngen ntrees halloffame
                    verbose w = (inr state, w1) ->
    main_tmp.my_eaSimple population toolbox cxpb mutpb ngen ntrees halloffame
                         verbose w
    = (inl (OtherError "UnboundLocalError"
              (if (ngen =? 0)%nat
               then "local variable 'gen' referenced before assignment"
               else "local variable 'models' referenced before assignment")),
       w1)).
  { intros [[[pop log] hof] invalid] w1 E. unfold main_tmp.my_eaSimple.
    rewrite (bind_inr _ _ _ _ _ E). cbv beta iota.
    destruct ngen as [|n]; [reflexivity|].
    rewrite seq_S, last_snoc.
    replace (1 + n =? S n + 1)%nat with false; [reflexivity|].
    symmetry. apply Nat.eqb_neq. lia. }
  split; [|exact Htail].
  destruct (main_tmp.evolve population toolbox cxpb mutpb ngen ntrees halloffame
              verbose w) as [[e|state] w1] eqn:E.
  - exists e, w1. unfold main_tmp.my_eaSimple. apply bind_inl. exact E.
  - eexists _, w1. exact (Htail state w1 eq_refl).
Qed.

(** X18. The evaluator of the variant fits nothing. Its split point is
    [np.floor(0.8) * len(x_train)], the float 0 whatever the data, and an
    array is not sliced at a float: every call ends with an error, before
    any fit or score. It validates the input after it has compiled the
    library and constructed the model: when these succeed, the trace holds
    them, and the call ends with the validation error on fewer than three
    samples and with the [TypeError] of the slice otherwise. *)
Theorem variant_evaluator_never_fits
    (individual : Individual) (ntrees : nat) (toolbox : Toolbox)
    (x_train : Array2) (x_dot_train : option Array2) (time_rec_obs : option TimeSpec)
    (sindy_kwargs : option Kwargs) (score_metrics : option Metric)
    (score_metrics_kwargs : option Kwargs) (flag_solution : bool) (w : World) :
  (exists q, main_tmp.floor_times_len 0.8 x_train = main_tmp.PyFloat q /\ q == 0)
  /\ exists e evs,
       main_tmp.evalSymbReg individual ntrees toolbox x_train x_dot_train
                            time_rec_obs sindy_kwargs score_metrics
                            score_metrics_kwargs flag_solution w
       = (inl e, after_events w evs)
       /\ fits_of evs = [] /\ scores_of evs = []
       /\ forall model w1,
            create_sindy_model ntrees individual toolbox
              (default no_kwargs sindy_kwargs)
              (after_events w [EvEvaluate (trees individual) flag_solution None])
            = (inr model, w1) ->
            after_events w evs = w1
            /\ e = if (length x_train <? 3)%nat then validation_error
                   else TypeError "slice indices must be integers or None or have an __index__ method".
Proof.
  split.
  { eexists. split; [reflexivity|].
    change (inject_Z (Qfloor 0.8)) with 0. apply Qmult_0_l. }
  unfold main_tmp.evalSymbReg.
  rewrite (bind_inr _ _ _ _ _ (emit_run _ w)).
  set (w0 := after_events w [EvEvaluate (trees individual) flag_solution None]).
  destruct (create_sindy_model ntrees individual toolbox
              (default no_kwargs sindy_kwargs) w0) as [rc w1] eqn:Hc.
  destruct (create_sindy_model_run _ _ _ _ _ _ _ Hc) as (cevs & -> & Hall).
  destruct (build_events_silent cevs Hall) as (Hcf & Hcs & _).
  unfold w0 in *. rewrite after_events_app in *.
  destruct rc as [e|model].
  { rewrite (bind_inl _ _ _ _ _ Hc).
    eexists _, _. split; [reflexivity|].
    simpl. rewrite Hcf, Hcs. repeat split; congruence. }
  rewrite (bind_inr _ _ _ _ _ Hc).
  unfold validate_input.
  destruct (length x_train <? 3)%nat eqn:Hlen.
  { eexists _, _. split; [reflexivity|].
    simpl. rewrite Hcf, Hcs. repeat split; congruence. }
  eexists _, _. split.
  { destruct x_dot_train; reflexivity. }
  simpl. rewrite Hcf, Hcs. repeat split; congruence.
Qed.

End EarlierVariant.

Section VariantRuns.

Import Toy.

(** One generation on a valid individual and an invalid one: the loop runs
    to its end, and the driver stops at [models]. Without a generation it
    stops at [gen]. *)
Lemma variant_driver_never_returns_witness :
  let scored_ind := {| trees := [leaf; leaf];
                       fitness := {| weights := [1.0]; wvalues := [1] |} |} in
  let fresh_ind := {| trees := [tree1; leaf]; fitness := FitnessMax |} in
  let toolbox := fit_toolbox config x10 None None in
  (exists w',
      main_tmp.my_eaSimple [scored_ind; fresh_ind] toolbox 0.7 0.8 1 2 None false
                           (world 0)
      = (inl (OtherError "UnboundLocalError"
                "local variable 'models' referenced before assignment"), w'))
  /\ (exists w',
      main_tmp.my_eaSimple [scored_ind; fresh_ind] toolbox 0.7 0.8 0 2 None false
                           (world 0)
      = (inl (OtherError "UnboundLocalError"
                "local variable 'gen' referenced before assignment"), w')).
Proof.
  intros scored_ind fresh_ind toolbox. split.
  - destruct (main_tmp.evolve [scored_ind; fresh_ind] toolbox 0.7 0.8 1 2 None
                false (world 0)) as [r w'] eqn:E.
    assert (Er : exists state, r = inr state).
    { vm_compute in E. injection E as <- _. eexists. reflexivity. }
    destruct Er as [state ->]. exists w'.
    destruct (variant_driver_never_returns [scored_ind; fresh_ind] toolbox
                0.7 0.8 1 2 None false (world 0)) as [_ H].
    exact (H state w' E).
  - destruct (main_tmp.evolve [scored_ind; fresh_ind] toolbox 0.7 0.8 0 2 None
                false (world 0)) as [r w'] eqn:E.
    assert (Er : exists state, r = inr state).
    { vm_compute in E. injection E as <- _. eexists. reflexivity. }
    destruct Er as [state ->]. exists w'.
    destruct (variant_driver_never_returns [scored_ind; fresh_ind] toolbox
                0.7 0.8 0 2 None false (world 0)) as [_ H].
    exact (H state w' E).
Defined.

(** Ten samples: the model is built, and the call ends at the slice. *)
Lemma variant_evaluator_never_fits_witness :
  let individual := {| trees := [tree1; leaf]; fitness := FitnessMax |} in
  exists w',
    main_tmp.evalSymbReg individual 2 (fit_toolbox config x10 None None)
                         x10 None None None None None false (world 0)
    = (inl (TypeError "slice indices must be integers or None or have an __index__ method"),
       w')
    /\ fits_of (trace w') = [].
Proof.
  intros individual.
  destruct (variant_evaluator_never_fits individual 2
              (fit_toolbox config x10 None None) x10 None None None None None
              false (world 0)) as (_ & e & evs & E & Hf & _ & Hm).
  destruct (create_sindy_model 2 individual (fit_toolbox config x10 None None)
              (default no_kwargs None)
              (after_events (world 0) [EvEvaluate (trees individual) false None]))
    as [r w1] eqn:Ec.
  assert (Er : exists model, r = inr model).
  { vm_compute in Ec. injection Ec as <- _. eexists. reflexivity. }
  destruct Er as [model ->].
  destruct (Hm model w1 eq_refl) as [_ ->].
  eexists. split; [exact E|]. simpl. exact Hf.
Defined.

End VariantRuns.
